(** * lnwtao: the watermark filler and the inpainting adapter

    A shallow embedding of the two image transforms of the repository:

    - [Lnwremove]: [removeWatermark] of [lnwremove/script.js], the double
      loop that overwrites the bottom-right corner of a decoded image;
    - [Airemove]: [drawLine], [renderImage], [inpaintToCanvas] and the
      handlers of [airemove/script.js] (and its TypeScript twin).

    Around them: [WatermarkRemover], the list of images and the counters
    of the class of [lnwremove/script.js] ([processImage], [removeImage],
    [clearAll], the name of a download); [AiremoveInput],
    [waitForCvReady] of [airemove/script.js].

    Numbers.  A JavaScript number is a binary64 float.  [Lnwremove] and
    [Airemove] use exact rationals ([Q]) for coordinates and indices, and
    [option Q] where a value can be [NaN]: on integers below 2^53 and on
    halves and quarters the two agree exactly, and what is stated of the
    filler is stated for rectangles with integer corners or at concrete
    sizes that module [Binary64] recomputes.  What depends on the rounding
    of a product, a quotient or a square root is stated on the kernel's
    binary64 floats: the rectangle in [Binary64], the stamps of a stroke
    in [Stroke].

    Pixel buffers.  [ImageData.data] is a [Uint8ClampedArray]: a list of
    bytes, read with a number as key.  A key that is not an integer in
    range reads as [undefined] and is ignored on assignment; an assigned
    number is converted with ToUint8Clamp (round to nearest, ties to even). *)

From Stdlib Require Import ZArith QArith Qround Qminmax Lqa Lia Floats.
From stdpp Require Import base list gmap.

Open Scope Q_scope.

(** ** JavaScript numbers and typed arrays *)

Module JS.

(** A number that may be [NaN] ([None]). *)
Definition number : Type := option Q.

Definition Qltb (a b : Q) : bool := negb (Qle_bool b a).

Definition isInteger (q : Q) : bool := Qeq_bool (inject_Z (Qfloor q)) q.

(** The element a numeric key designates in an array of [len] elements. *)
Definition arrayIndex (len : nat) (q : Q) : option nat :=
  if isInteger q && (0 <=? Qfloor q)%Z && (Qfloor q <? Z.of_nat len)%Z
  then Some (Z.to_nat (Qfloor q))
  else None.

(** ToUint8Clamp of ECMA-262. *)
Definition toUint8Clamp (v : number) : Z :=
  match v with
  | None => 0%Z
  | Some q =>
      let clamped := Qmin (Qmax q 0) 255 in
      let f := Qfloor clamped in
      if Qltb clamped (inject_Z f + 0.5) then f
      else if Qltb (inject_Z f + 0.5) clamped then (f + 1)%Z
      else if Z.even f then f else (f + 1)%Z
  end.

(** [data[q]]: [None] is [undefined]. *)
Definition get (data : list Z) (q : Q) : option Z :=
  i ← arrayIndex (length data) q; data !! i.

(** [data[q] = v]. *)
Definition set (data : list Z) (q : Q) (v : number) : list Z :=
  match arrayIndex (length data) q with
  | Some i => <[i := toUint8Clamp v]> data
  | None => data
  end.

(** [acc += data[q]]: adding [undefined] gives [NaN]. *)
Definition addSample (acc : number) (s : option Z) : number :=
  match acc, s with
  | Some a, Some v => Some (a + inject_Z v)
  | _, _ => None
  end.

(** [acc / count], for a positive integer [count]. *)
Definition divCount (acc : number) (count : Z) : number :=
  a ← acc; Some (a / inject_Z count).

(** [for (let i = start; i < bound; i++) body(i)], threaded through a
    state.  [loopFuel start bound] iterations are all the loop makes. *)
Fixpoint forLoop {S : Type} (fuel : nat) (i bound : Q)
    (body : Q → S → S) (s : S) : S :=
  match fuel with
  | O => s
  | Datatypes.S fuel' =>
      if Qltb i bound then forLoop fuel' (i + 1) bound body (body i s)
      else s
  end.

Definition loopFuel (start bound : Q) : nat :=
  Z.to_nat (Qceiling (bound - start)).

End JS.

(** ** lnwremove/script.js: the region filler *)

Module Lnwremove.
Import JS.

(** A decoded image: [pixels] is what [getImageData] returns once the
    image is drawn on a canvas of the same size, four bytes a pixel. *)
Record Image := mkImage {
  width : Z;
  height : Z;
  pixels : list Z
}.

Definition wellFormed (img : Image) : Prop :=
  (0 <= width img)%Z ∧ (0 <= height img)%Z ∧
  length (pixels img) = Z.to_nat (4 * width img * height img) ∧
  Forall (λ v, (0 <= v <= 255)%Z) (pixels img).

(** [Math.min(100, img.height * 0.15)] and [Math.min(150, img.width * 0.25)]. *)
Definition watermarkHeight (h : Z) : Q := Qmin 100 (inject_Z h * 0.15).
Definition watermarkWidth (w : Z) : Q := Qmin 150 (inject_Z w * 0.25).
Definition startX (w : Z) : Q := inject_Z w - watermarkWidth w.
Definition startY (h : Z) : Q := inject_Z h - watermarkHeight h.

Record Acc := mkAcc { r : number; g : number; b : number; count : Z }.

Definition acc0 : Acc := mkAcc (Some 0) (Some 0) (Some 0) 0.

(** [ny >= 0 && ny < startY && nx >= 0 && nx < img.width]. *)
Definition guard (w : Z) (sY ny nx : Q) : bool :=
  Qle_bool 0 ny && Qltb ny sY && Qle_bool 0 nx && Qltb nx (inject_Z w).

(** The body of the [dy]/[dx] loops at neighbour ([nx], [ny]). *)
Definition sampleStep (w : Z) (sY : Q) (data : list Z) (ny nx : Q)
    (acc : Acc) : Acc :=
  if guard w sY ny nx
  then
    let nIdx := (ny * inject_Z w + nx) * 4 in
    mkAcc (addSample (r acc) (get data nIdx))
          (addSample (g acc) (get data (nIdx + 1)))
          (addSample (b acc) (get data (nIdx + 2)))
          (count acc + 1)
  else acc.

Definition offsets : list Z := [-1; 0; 1]%Z.

(** [for dy in -1..1, for dx in -1..1]. *)
Definition sampleNeighbourhood (w : Z) (sY : Q) (data : list Z)
    (sampleY x : Q) : Acc :=
  foldl (λ acc dy,
    foldl (λ acc dx,
      sampleStep w sY data (sampleY + inject_Z dy) (x + inject_Z dx) acc)
      acc offsets)
    acc0 offsets.

Definition sampleRow (sY y : Q) : Q := Qmax 0 (sY - (y - sY) - 1).

(** The four assignments [data[idx .. idx+3] = ...]. *)
Definition writePixel (data : list Z) (idx : Q) (acc : Acc) : list Z :=
  let d1 := set data idx (divCount (r acc) (count acc)) in
  let d2 := set d1 (idx + 1) (divCount (g acc) (count acc)) in
  let d3 := set d2 (idx + 2) (divCount (b acc) (count acc)) in
  set d3 (idx + 3) (Some 255).

(** The body of the [x] loop: reads and writes the one buffer [data]. *)
Definition fillPixel (w : Z) (sY : Q) (x y : Q) (data : list Z) : list Z :=
  let idx := (y * inject_Z w + x) * 4 in
  let sampleY := sampleRow sY y in
  if Qle_bool 0 sampleY then
    let acc := sampleNeighbourhood w sY data sampleY x in
    if (0 <? count acc)%Z then writePixel data idx acc else data
  else data.

(** The two loops over the buffer. *)
Definition fillRegion (w h : Z) (data : list Z) : list Z :=
  forLoop (loopFuel (startY h) (inject_Z h)) (startY h) (inject_Z h)
    (λ y d,
       forLoop (loopFuel (startX w) (inject_Z w)) (startX w) (inject_Z w)
         (λ x d, fillPixel w (startY h) x y d) d)
    data.

(** [removeWatermark]: [getImageData] throws on a canvas of no area
    ([None]); otherwise the result is a canvas of the image's size. *)
Definition removeWatermark (img : Image) : option Image :=
  if (width img =? 0)%Z || (height img =? 0)%Z then None
  else Some (mkImage (width img) (height img)
               (fillRegion (width img) (height img) (pixels img))).

(** Pixel ([x], [y]) of a buffer of width [w], as four optional bytes. *)
Definition pixelAt (w : Z) (data : list Z) (x y : Z) : list (option Z) :=
  let p := Z.to_nat (4 * (y * w + x)) in
  [data !! p; data !! S p; data !! S (S p); data !! S (S (S p))].

(** *** The loop seen as a fold, and the two-buffer filler

    The loops visit [startY + i], [startX + j] for the offsets ([i], [j])
    of [rectOffsets], row by row. *)

Definition rectRows (h : Z) : nat := loopFuel (startY h) (inject_Z h).
Definition rectCols (w : Z) : nat := loopFuel (startX w) (inject_Z w).

Definition rectOffsets (w h : Z) : list (nat * nat) :=
  seq 0 (rectRows h) ≫= λ i, (λ j, (i, j)) <$> seq 0 (rectCols w).

Definition coordX (w : Z) (j : nat) : Q := startX w + inject_Z (Z.of_nat j).
Definition coordY (h : Z) (i : nat) : Q := startY h + inject_Z (Z.of_nat i).

(** The filler run in place over any order [order] of the offsets. *)
Definition fillInOrder (w h : Z) (order : list (nat * nat))
    (data : list Z) : list Z :=
  foldl (λ d ij, fillPixel w (startY h) (coordX w ij.2) (coordY h ij.1) d)
        data order.

(** One pixel of a filler with two buffers: samples are read from [src],
    the result is written to [dst]. *)
Definition fillPixelFrom (w : Z) (sY : Q) (src : list Z) (x y : Q)
    (dst : list Z) : list Z :=
  let idx := (y * inject_Z w + x) * 4 in
  let sampleY := sampleRow sY y in
  if Qle_bool 0 sampleY then
    let acc := sampleNeighbourhood w sY src sampleY x in
    if (0 <? count acc)%Z then writePixel dst idx acc else dst
  else dst.

(** The pure filler: it reads the input only and fills a copy of it. *)
Definition fillRegionPure (w h : Z) (order : list (nat * nat))
    (input : list Z) : list Z :=
  foldl (λ out ij,
           fillPixelFrom w (startY h) input (coordX w ij.2) (coordY h ij.1) out)
        input order.

Definition inRect (w h : Z) (ij : nat * nat) : Prop :=
  (ij.1 < rectRows h)%nat ∧ (ij.2 < rectCols w)%nat.

(** The key of the first byte the loops can assign: that of the
    rectangle's top-left corner. *)
Definition writeBase (w h : Z) : Q :=
  (startY h * inject_Z w + startX w) * 4.

(** Two buffers of one length with the same bytes below key [bound]. *)
Definition agreeBelow (bound : Q) (d d' : list Z) : Prop :=
  length d = length d' ∧
  ∀ p : nat, inject_Z (Z.of_nat p) < bound → d !! p = d' !! p.

(** *** The fill in the words of the specification

    For a rectangle with integer corners: the qualifying neighbours of a
    pixel, the sums over them and the mean that is stored. *)

Definition integerRect (w h : Z) : bool :=
  isInteger (startX w) && isInteger (startY h).

Definition rectLeft (w : Z) : Z := Qfloor (startX w).
Definition rectTop (h : Z) : Z := Qfloor (startY h).

Definition sourceRow (top y : Z) : Z := Z.max 0 (top - (y - top) - 1).

(** The 3x3 neighbourhood of ([x], [row]), as pairs (column, row). *)
Definition candidates (x row : Z) : list (Z * Z) :=
  dy ← offsets; dx ← offsets; [((x + dx)%Z, (row + dy)%Z)].

Definition qualifies (w top : Z) (n : Z * Z) : Prop :=
  (0 <= n.2 < top)%Z ∧ (0 <= n.1 < w)%Z.

#[export] Instance qualifies_dec (w top : Z) (n : Z * Z) :
  Decision (qualifies w top n).
Proof. unfold qualifies. apply _. Defined.

Definition neighbours (w top x y : Z) : list (Z * Z) :=
  filter (qualifies w top) (candidates x (sourceRow top y)).

(** Channel [c] of pixel [n] in a buffer of width [w]. *)
Definition byteAt (w : Z) (data : list Z) (c : Z) (n : Z * Z) : Z :=
  default 0%Z (data !! Z.to_nat (4 * (n.2 * w + n.1) + c)).

Definition channelSum (w : Z) (data : list Z) (c : Z)
    (ns : list (Z * Z)) : Z :=
  foldr (λ n s, (s + byteAt w data c n)%Z) 0%Z ns.

(** Nearest integer, a tie going to the even one. *)
Definition roundHalfEven (q : Q) : Z :=
  let f := Qfloor q in
  if Qltb (q - inject_Z f) 0.5 then f
  else if Qltb 0.5 (q - inject_Z f) then (f + 1)%Z
  else if Z.even f then f else (f + 1)%Z.

Definition roundedMean (sum : Z) (n : nat) : Z :=
  roundHalfEven (inject_Z sum / inject_Z (Z.of_nat n)).

Definition truncatedMean (sum : Z) (n : nat) : Z := (sum / Z.of_nat n)%Z.

(** The pixel the specification's fill stores at ([x], [y]). *)
Definition filledPixel (mean : Z → nat → Z) (w top : Z) (data : list Z)
    (x y : Z) : list (option Z) :=
  let ns := neighbours w top x y in
  [Some (mean (channelSum w data 0 ns) (length ns));
   Some (mean (channelSum w data 1 ns) (length ns));
   Some (mean (channelSum w data 2 ns) (length ns));
   Some 255%Z].

(** The fill stores [mean] of the qualifying neighbours at every pixel of
    the rectangle of a [w] x [h] buffer. *)
Definition FillsWith (mean : Z → nat → Z) (w h : Z) (data : list Z) : Prop :=
  ∀ x y : Z,
    (rectLeft w <= x < w)%Z → (rectTop h <= y < h)%Z →
    neighbours w (rectTop h) x y ≠ [] ∧
    pixelAt w (fillRegion w h data) x y =
    filledPixel mean w (rectTop h) data x y.

(** Pixel ([x], [y]) covers the unit square at ([x], [y]); it lies
    outside the rectangle when the square does not meet it, inside when
    the rectangle contains the square. *)
Definition outsideRect (w h x y : Z) : Prop :=
  inject_Z x + 1 <= startX w ∨ inject_Z y + 1 <= startY h.

Definition insideRect (w h x y : Z) : Prop :=
  (startX w <= inject_Z x ∧ (x < w)%Z) ∧
  (startY h <= inject_Z y ∧ (y < h)%Z).

(** Concrete images: [n] pixels of one colour. *)
Definition solid (n : nat) (rgba : list Z) : list Z :=
  mjoin (replicate n rgba).

Definition opaqueBlack10 : Image :=
  mkImage 10 10 (solid 100 [0; 0; 0; 255]%Z).

Definition transparent10 : Image :=
  mkImage 10 10 (solid 100 [0; 0; 0; 0]%Z).

(** 4 x 20, red channel 1 everywhere but at pixel (2, 15). *)
Definition speckled4x20 : Image :=
  mkImage 4 20 (<[248%nat := 0%Z]> (solid 80 [1; 0; 0; 255]%Z)).

(** An accumulator holding the integer sums [sr], [sg], [sb] of [n]
    samples. *)
Definition accIs (acc : Acc) (sr sg sb : Z) (n : Z) : Prop :=
  (∃ q, r acc = Some q ∧ q == inject_Z sr) ∧
  (∃ q, g acc = Some q ∧ q == inject_Z sg) ∧
  (∃ q, b acc = Some q ∧ q == inject_Z sb) ∧
  count acc = n.

End Lnwremove.

(** ** airemove/script.js: brush strokes, canvases and the adapter *)

Module Airemove.
Import JS.

Record Point := mkPoint { px : Q; py : Q }.

Definition clamp (n lo hi : Q) : Q := Qmax lo (Qmin hi n).

(** *** The mask brush

    The mask context is kept as the list of the filled circles drawn on
    it: [ctx.arc(p.x, p.y, brush / 2, 0, 2π); ctx.fill()]. *)
Record Stamp := mkStamp { centre : Point; radiusOf : Q }.

Definition drawBrush (ctx : list Stamp) (p : Point) (brush : Q) : list Stamp :=
  ctx ++ [mkStamp p (brush / 2)].

(** [Math.ceil(Math.sqrt(s) / step)] for [0 <= s] and [0 < step], in
    exact arithmetic: the least [n >= 0] with [s <= (n * step)^2]
    (lemma [ceilSqrtDiv_spec]).  The page follows the strokes in exact
    arithmetic, for what does not depend on their number; the number of
    stamps the engine draws is that of [Stroke.drawLine]. *)
Definition ceilSqrtDiv (s step : Q) : Z :=
  let c := Qceiling (s / (step * step)) in
  let r := Z.sqrt c in
  if (r * r =? c)%Z then r else (r + 1)%Z.

Definition lineSteps (a b : Point) (brush : Q) : Z :=
  let dx := px b - px a in
  let dy := py b - py a in
  let step := Qmax 1 (brush / 3) in
  ceilSqrtDiv (dx * dx + dy * dy) step.

(** [steps === 0 ? 0 : i / steps]. *)
Definition lineT (steps : Z) (i : nat) : Q :=
  if (steps =? 0)%Z then 0 else inject_Z (Z.of_nat i) / inject_Z steps.

Definition linePoint (a b : Point) (t : Q) : Point :=
  mkPoint (px a + (px b - px a) * t) (py a + (py b - py a) * t).

(** [for (let i = 0; i <= steps; i++) drawBrush(...)]. *)
Definition drawLine (ctx : list Stamp) (a b : Point) (brush : Q) : list Stamp :=
  let steps := lineSteps a b brush in
  foldl (λ ctx i, drawBrush ctx (linePoint a b (lineT steps i)) brush)
        ctx (seq 0 (S (Z.to_nat steps))).

(** The stamps of one stroke from [a] to [b]. *)
Definition lineStamps (a b : Point) (brush : Q) : list Stamp :=
  let steps := lineSteps a b brush in
  (λ i, mkStamp (linePoint a b (lineT steps i)) (brush / 2))
    <$> seq 0 (S (Z.to_nat steps)).

(** *** Canvases

    A bitmap is described by what was drawn last on a cleared canvas. *)
Record MatData := mkMat {
  rows : Z; cols : Z; channels : Z; bytes : list Z
}.

Inductive Bitmap :=
| Blank
| Picture (imageId : nat) (w h : Z)
| Strokes (stamps : list Stamp)
| Shown (m : MatData)
| Copied (source : Bitmap) (w h : Z).

Record Canvas := mkCanvas { cwidth : Z; cheight : Z; bitmap : Bitmap }.

Record ImageData := mkImageData {
  idWidth : Z; idHeight : Z; idSource : Bitmap
}.

Definition getImageData (c : Canvas) : ImageData :=
  mkImageData (cwidth c) (cheight c) (bitmap c).

Record HtmlImage := mkHtmlImage {
  naturalWidth : Z; naturalHeight : Z; imageId : nat
}.

(** *** The external primitive

    [window.cv]: the calls [inpaintToCanvas] makes.  [None] is a thrown
    exception; [hasMat] is [window.cv.Mat] being defined. *)
Record Cv := mkCv {
  hasMat : bool;
  matFromImageData : ImageData → option MatData;
  newMat : option MatData;
  cvtColor : MatData → Z → option MatData;
  threshold : MatData → Q → Q → Z → option MatData;
  inpaint : MatData → MatData → Q → Z → option MatData;
  imshow : MatData → bool
}.

Definition COLOR_RGBA2RGB : Z := 1.
Definition COLOR_RGBA2GRAY : Z := 11.
Definition THRESH_BINARY : Z := 0.
Definition INPAINT_TELEA : Z := 1.

(** OpenCV's contract for [cv.threshold] with [THRESH_BINARY], the
    external primitive the adapter calls:
    [dst = src > thresh ? maxval : 0]. *)
Definition thresholdBinary (thresh maxval : Q) (v : Z) : Q :=
  if Qltb thresh (inject_Z v) then maxval else 0.

(** The thresholding step with the arguments [inpaintToCanvas] passes. *)
Definition maskThresh : Q := 1.
Definition maskMaxval : Q := 255.
Definition maskThreshold (v : Z) : Q :=
  thresholdBinary maskThresh maskMaxval v.

(** *** The page *)

Inductive Status :=
| StatusInitial | StatusCvReady | StatusCvLoadFailed | StatusImageReady
| StatusMaskCleared | StatusNotReady | StatusWorking | StatusDone
| StatusFailed.

Record AppState := mkAppState {
  img : option HtmlImage;
  imgWidth : Z;
  imgHeight : Z;
  drawing : bool;
  brush : Q;
  radius : Q;
  lastPoint : option Point
}.

(** [mats] holds the native buffers that are allocated and not deleted;
    [pending] lists the click handlers suspended at their [await], each
    with the [cv] it captured. *)
Record World := mkWorld {
  state : AppState;
  imgCanvas : Canvas;
  maskCanvas : Canvas;
  outCanvas : Canvas;
  status : Status;
  removeDisabled : bool;
  clearDisabled : bool;
  downloadDisabled : bool;
  brushValue : Q;
  radiusValue : Q;
  windowCv : option Cv;
  mats : gmap nat MatData;
  pending : list Cv
}.

Definition withState (f : AppState → AppState) (w : World) : World :=
  mkWorld (f (state w)) (imgCanvas w) (maskCanvas w) (outCanvas w) (status w)
    (removeDisabled w) (clearDisabled w) (downloadDisabled w)
    (brushValue w) (radiusValue w) (windowCv w) (mats w) (pending w).
Definition withImgCanvas (c : Canvas) (w : World) : World :=
  mkWorld (state w) c (maskCanvas w) (outCanvas w) (status w)
    (removeDisabled w) (clearDisabled w) (downloadDisabled w)
    (brushValue w) (radiusValue w) (windowCv w) (mats w) (pending w).
Definition withMaskCanvas (c : Canvas) (w : World) : World :=
  mkWorld (state w) (imgCanvas w) c (outCanvas w) (status w)
    (removeDisabled w) (clearDisabled w) (downloadDisabled w)
    (brushValue w) (radiusValue w) (windowCv w) (mats w) (pending w).
Definition withOutCanvas (c : Canvas) (w : World) : World :=
  mkWorld (state w) (imgCanvas w) (maskCanvas w) c (status w)
    (removeDisabled w) (clearDisabled w) (downloadDisabled w)
    (brushValue w) (radiusValue w) (windowCv w) (mats w) (pending w).
Definition setStatus (s : Status) (w : World) : World :=
  mkWorld (state w) (imgCanvas w) (maskCanvas w) (outCanvas w) s
    (removeDisabled w) (clearDisabled w) (downloadDisabled w)
    (brushValue w) (radiusValue w) (windowCv w) (mats w) (pending w).
Definition withButtons (rm cl dl : bool) (w : World) : World :=
  mkWorld (state w) (imgCanvas w) (maskCanvas w) (outCanvas w) (status w)
    rm cl dl
    (brushValue w) (radiusValue w) (windowCv w) (mats w) (pending w).
Definition withSliders (b r : Q) (w : World) : World :=
  mkWorld (state w) (imgCanvas w) (maskCanvas w) (outCanvas w) (status w)
    (removeDisabled w) (clearDisabled w) (downloadDisabled w)
    b r (windowCv w) (mats w) (pending w).
Definition withCv (cv : option Cv) (w : World) : World :=
  mkWorld (state w) (imgCanvas w) (maskCanvas w) (outCanvas w) (status w)
    (removeDisabled w) (clearDisabled w) (downloadDisabled w)
    (brushValue w) (radiusValue w) cv (mats w) (pending w).
Definition withMats (m : gmap nat MatData) (w : World) : World :=
  mkWorld (state w) (imgCanvas w) (maskCanvas w) (outCanvas w) (status w)
    (removeDisabled w) (clearDisabled w) (downloadDisabled w)
    (brushValue w) (radiusValue w) (windowCv w) m (pending w).
Definition withPending (n : list Cv) (w : World) : World :=
  mkWorld (state w) (imgCanvas w) (maskCanvas w) (outCanvas w) (status w)
    (removeDisabled w) (clearDisabled w) (downloadDisabled w)
    (brushValue w) (radiusValue w) (windowCv w) (mats w) n.

(** *** renderImage *)

(** [a / n] for a natural dimension [n]; [None] is [Infinity]. *)
Definition ratio (a : Q) (n : Z) : option Q :=
  if (n =? 0)%Z then None else Some (a / inject_Z n).

Definition minWith (a : option Q) (b : Q) : Q :=
  match a with None => b | Some x => Qmin x b end.

(** [Math.min(maxW / naturalWidth, maxH / naturalHeight, 1)]. *)
Definition renderScale (i : HtmlImage) : Q :=
  minWith (ratio 960 (naturalWidth i)) (minWith (ratio 640 (naturalHeight i)) 1).

(** [Math.round]: the integer nearest to [q], a tie going up. *)
Definition round (q : Q) : Z := Qfloor (q + 0.5).

Definition renderWidth (i : HtmlImage) : Z :=
  Z.max 1 (round (inject_Z (naturalWidth i) * renderScale i)).
Definition renderHeight (i : HtmlImage) : Z :=
  Z.max 1 (round (inject_Z (naturalHeight i) * renderScale i)).

(** Setting a canvas dimension clears it; then the image is drawn on the
    one and the other is cleared.  The result is [{ w, h }]. *)
Definition renderImage (i : HtmlImage) (w : World) : (Z * Z) * World :=
  let rw := renderWidth i in
  let rh := renderHeight i in
  let w1 := withImgCanvas (mkCanvas rw rh Blank) w in
  let w2 := withMaskCanvas (mkCanvas rw rh Blank) w1 in
  let w3 := withImgCanvas (mkCanvas rw rh (Picture (imageId i) rw rh)) w2 in
  ((rw, rh), w3).

Definition syncControls (w : World) : World :=
  let w1 := withState (λ s, mkAppState (img s) (imgWidth s) (imgHeight s)
                              (drawing s) (brushValue w) (radiusValue w)
                              (lastPoint s)) w in
  let canWork := bool_decide (is_Some (img (state w1)))
                 && (0 <? cwidth (imgCanvas w1))%Z
                 && (0 <? cheight (imgCanvas w1))%Z in
  let canDownload := canWork && (0 <? cwidth (outCanvas w1))%Z
                     && (0 <? cheight (outCanvas w1))%Z in
  withButtons (negb canWork) (negb canWork) (negb canDownload) w1.

(** [loadImageFromFile], once the file has been decoded as [i]. *)
Definition loadImageFromFile (i : HtmlImage) (w : World) : World :=
  let w1 := withState (λ s, mkAppState (Some i) (imgWidth s) (imgHeight s)
                              (drawing s) (brush s) (radius s) (lastPoint s)) w in
  let '((rw, rh), w2) := renderImage i w1 in
  let w3 := withState (λ s, mkAppState (img s) rw rh
                              (drawing s) (brush s) (radius s) (lastPoint s)) w2 in
  let w4 := withOutCanvas (mkCanvas rw rh Blank) w3 in
  syncControls (setStatus StatusImageReady w4).

(** *** Pointer handlers *)

Definition strokesOf (b : Bitmap) : list Stamp :=
  match b with Strokes l => l | _ => [] end.

Definition paintMask (f : list Stamp → list Stamp) (w : World) : World :=
  withMaskCanvas
    (mkCanvas (cwidth (maskCanvas w)) (cheight (maskCanvas w))
       (Strokes (f (strokesOf (bitmap (maskCanvas w)))))) w.

Definition pointerDown (p : Point) (w : World) : World :=
  match img (state w) with
  | None => w
  | Some _ =>
      let w1 := withState (λ s, mkAppState (img s) (imgWidth s) (imgHeight s)
                                  true (brush s) (radius s) (Some p)) w in
      paintMask (λ ctx, drawBrush ctx p (brush (state w1))) w1
  end.

Definition pointerMove (p : Point) (shiftKey : bool) (w : World) : World :=
  if negb (drawing (state w)) || negb (bool_decide (is_Some (img (state w))))
  then w
  else
    let w1 :=
      match shiftKey, lastPoint (state w) with
      | true, Some last =>
          paintMask (λ ctx, drawLine ctx last p (brush (state w))) w
      | _, _ => paintMask (λ ctx, drawBrush ctx p (brush (state w))) w
      end in
    withState (λ s, mkAppState (img s) (imgWidth s) (imgHeight s)
                      (drawing s) (brush s) (radius s) (Some p)) w1.

Definition pointerUp (w : World) : World :=
  withState (λ s, mkAppState (img s) (imgWidth s) (imgHeight s)
                    false (brush s) (radius s) None) w.

Definition clearClick (w : World) : World :=
  match img (state w) with
  | None => w
  | Some _ =>
      setStatus StatusMaskCleared
        (withMaskCanvas (mkCanvas (cwidth (maskCanvas w))
                           (cheight (maskCanvas w)) Blank) w)
  end.

(** *** inpaintToCanvas, in a state and exception monad *)

Inductive Result (A : Type) := Ok (a : A) | Throw.
Arguments Ok {A} a.
Arguments Throw {A}.

Definition M (A : Type) : Type := World → Result A * World.

Definition ret {A : Type} (a : A) : M A := λ w, (Ok a, w).

Definition bind {A B : Type} (m : M A) (k : A → M B) : M B :=
  λ w, match m w with
       | (Ok a, w') => k a w'
       | (Throw, w') => (Throw, w')
       end.

Notation "x <- m ;; k" := (bind m (λ x, k))
  (at level 100, m at next level, right associativity).
Notation "m ;;; k" := (bind m (λ _, k))
  (at level 100, right associativity).

Definition modify (f : World → World) : M unit := λ w, (Ok tt, f w).

(** [try { body } catch { handler }]. *)
Definition tryCatch (body handler : M unit) : M unit :=
  λ w, match body w with
       | (Ok _, w') => (Ok tt, w')
       | (Throw, w') => handler w'
       end.

(** A call that returns a new [Mat]. *)
Definition allocMat (d : option MatData) : M nat :=
  λ w, match d with
       | None => (Throw, w)
       | Some m =>
           let h := fresh (dom (mats w)) in
           (Ok h, withMats (<[h := m]> (mats w)) w)
       end.

Definition readMat (h : nat) : M MatData :=
  λ w, match mats w !! h with
       | Some m => (Ok m, w)
       | None => (Throw, w)
       end.

Definition writeMat (h : nat) (d : option MatData) : M unit :=
  λ w, match d with
       | None => (Throw, w)
       | Some m => (Ok tt, withMats (<[h := m]> (mats w)) w)
       end.

(** [m.delete()]. *)
Definition deleteMat (h : nat) : M unit :=
  modify (λ w, withMats (delete h (mats w)) w).

Definition cvCvtColor (cv : Cv) (src dst : nat) (code : Z) : M unit :=
  m <- readMat src ;; writeMat dst (cvtColor cv m code).

Definition cvThreshold (cv : Cv) (src dst : nat) (thresh maxval : Q)
    (type : Z) : M unit :=
  m <- readMat src ;; writeMat dst (threshold cv m thresh maxval type).

Definition cvInpaint (cv : Cv) (src mask dst : nat) (r : Q) (flags : Z) : M unit :=
  s <- readMat src ;; m <- readMat mask ;;
  writeMat dst (inpaint cv s m r flags).

(** [cv.imshow(outCanvas, mat)]: the canvas takes the size of the Mat. *)
Definition cvImshow (cv : Cv) (mat : nat) : M unit :=
  m <- readMat mat ;;
  λ w, if imshow cv m
       then (Ok tt, withOutCanvas (mkCanvas (cols m) (rows m) (Shown m)) w)
       else (Throw, w).

(** The body of [inpaintToCanvas] from [cv.matFromImageData] on. *)
Definition inpaintData (cv : Cv) (radius : Q) (imgData maskData : ImageData)
    : M unit :=
   srcRgba <- allocMat (matFromImageData cv imgData) ;;
   srcRgb <- allocMat (newMat cv) ;;
   cvCvtColor cv srcRgba srcRgb COLOR_RGBA2RGB ;;;
   maskRgba <- allocMat (matFromImageData cv maskData) ;;
   maskGray <- allocMat (newMat cv) ;;
   cvCvtColor cv maskRgba maskGray COLOR_RGBA2GRAY ;;;
   maskBin <- allocMat (newMat cv) ;;
   cvThreshold cv maskGray maskBin maskThresh maskMaxval THRESH_BINARY ;;;
   dst <- allocMat (newMat cv) ;;
   let safeRadius := clamp radius 1 30 in
   cvInpaint cv srcRgb maskBin dst safeRadius INPAINT_TELEA ;;;
   cvImshow cv dst ;;;
   deleteMat srcRgba ;;;
   deleteMat srcRgb ;;;
   deleteMat maskRgba ;;;
   deleteMat maskGray ;;;
   deleteMat maskBin ;;;
   deleteMat dst.

Definition inpaintToCanvas (cv : Cv) (radius : Q) : M unit :=
  λ w, let imgData := getImageData (imgCanvas w) in
       let maskData := getImageData (maskCanvas w) in
       inpaintData cv radius imgData maskData w.

(** [imgCtx.clearRect(0, 0, imgCanvas.width, imgCanvas.height)]. *)
Definition clearImgCanvas : M unit :=
  modify (λ w, withImgCanvas
                 (mkCanvas (cwidth (imgCanvas w)) (cheight (imgCanvas w)) Blank) w).

(** [imgCtx.drawImage(outCanvas, 0, 0)]: a source canvas of no area
    throws [InvalidStateError]. *)
Definition drawOutOnImg : M unit :=
  λ w, let out := outCanvas w in
       if (cwidth out =? 0)%Z || (cheight out =? 0)%Z then (Throw, w)
       else (Ok tt,
             withImgCanvas
               (mkCanvas (cwidth (imgCanvas w)) (cheight (imgCanvas w))
                  (Copied (bitmap out) (cwidth out) (cheight out))) w).

(** *** The remove button

    The click handler up to its [await] ([removeClick]) and from there
    on ([removeResume]). *)
(** [!!(window.cv && window.cv.Mat)]. *)
Definition isCvReady (w : World) : bool :=
  match windowCv w with
  | Some cv => hasMat cv
  | None => false
  end.

Definition removeClick : M unit :=
  λ w, match img (state w) with
       | None => (Ok tt, w)
       | Some _ =>
           match windowCv w with
           | None => (Ok tt, setStatus StatusNotReady w)
           | Some cv =>
               if negb (isCvReady w)
               then (Ok tt, setStatus StatusNotReady w)
               else
                 let w1 := withButtons true (clearDisabled w)
                             (downloadDisabled w) w in
                 (Ok tt, withPending (pending w ++ [cv])
                           (setStatus StatusWorking w1))
           end
       end.

Definition removeResume (cv : Cv) : M unit :=
  tryCatch
    (λ w, (inpaintToCanvas cv (radius (state w)) ;;;
           clearImgCanvas ;;;
           drawOutOnImg ;;;
           modify (setStatus StatusDone)) w)
    (modify (setStatus StatusFailed)) ;;;
  modify (λ w, syncControls
                 (withButtons false (clearDisabled w) (downloadDisabled w) w)).

(** *** Events of the page *)

Inductive Event :=
| FileLoaded (i : HtmlImage)
| PointerDown (p : Point)
| PointerMove (p : Point) (shiftKey : bool)
| PointerUp
| KeyEscape
| SliderInput (brushV radiusV : Q)
| CvLoaded (cv : Cv)
| CvWaitDone
| CvWaitTimeout
| ClickClear
| ClickRemove
| RemoveTimer.

(** One turn of the event loop.  A disabled button receives no click; the
    timer of a click handler fires only if one is suspended. *)
Definition step (e : Event) (w : World) : World :=
  match e with
  | FileLoaded i => loadImageFromFile i w
  | PointerDown p => pointerDown p w
  | PointerMove p shiftKey => pointerMove p shiftKey w
  | PointerUp | KeyEscape => pointerUp w
  | SliderInput b r => syncControls (withSliders b r w)
  | CvLoaded cv => withCv (Some cv) w
  | CvWaitDone => setStatus StatusCvReady w
  | CvWaitTimeout => setStatus StatusCvLoadFailed w
  | ClickClear => if clearDisabled w then w else clearClick w
  | ClickRemove => if removeDisabled w then w else (removeClick w).2
  | RemoveTimer =>
      match pending w with
      | [] => w
      | cv :: rest => (removeResume cv (withPending rest w)).2
      end
  end.

Definition run (es : list Event) (w : World) : World :=
  foldl (λ w e, step e w) w es.

(** The page as loaded: no image, nothing suspended, and the buttons
    disabled by the [syncControls()] that ends the script. *)
Definition initial (w : World) : Prop :=
  img (state w) = None ∧ pending w = [] ∧
  removeDisabled w = true ∧ clearDisabled w = true.

(** What [inpaintToCanvas] may change: the native buffers and the output
    canvas, nothing else. *)
Definition sameButOutput (w w' : World) : Prop :=
  state w' = state w ∧ imgCanvas w' = imgCanvas w ∧
  maskCanvas w' = maskCanvas w ∧ status w' = status w ∧
  removeDisabled w' = removeDisabled w ∧ clearDisabled w' = clearDisabled w ∧
  brushValue w' = brushValue w ∧ radiusValue w' = radiusValue w ∧
  windowCv w' = windowCv w ∧ pending w' = pending w.

(** What the click handler keeps once resumed: the image, the size of the
    image canvas, the mask canvas and the suspended handlers. *)
Definition keepsShape (w w' : World) : Prop :=
  img (state w') = img (state w) ∧
  cwidth (imgCanvas w') = cwidth (imgCanvas w) ∧
  cheight (imgCanvas w') = cheight (imgCanvas w) ∧
  maskCanvas w' = maskCanvas w ∧ pending w' = pending w.

(** The two canvases have one size once an image is loaded; without an
    image the remove button is disabled and no handler is suspended. *)
Definition pageInvariant (w : World) : Prop :=
  (img (state w) = None → removeDisabled w = true ∧ pending w = []) ∧
  (is_Some (img (state w)) →
     cwidth (imgCanvas w) = cwidth (maskCanvas w) ∧
     cheight (imgCanvas w) = cheight (maskCanvas w)).

(** [m], started where [P] holds, can only return in a world and with a
    value that satisfy [Q]. *)
Definition ensures {A : Type} (m : M A) (P : World → Prop)
    (Q : A → World → Prop) : Prop :=
  ∀ w a w', P w → m w = (Ok a, w') → Q a w'.

(** The native buffers relative to those of [m0]: the handles of [live]
    were allocated since, those of [gone] are deleted again. *)
Definition tracked (m0 : gmap nat MatData) (live gone : list nat)
    (w : World) : Prop :=
  (∀ k, k ∉ live → mats w !! k = m0 !! k) ∧
  (∀ k, k ∈ live → m0 !! k = None) ∧
  (∀ k, k ∈ gone → mats w !! k = None).

Definition preserves {A : Type} (R : World → World → Prop) (m : M A) : Prop :=
  ∀ w, R w (m w).2.

(** A primitive that fails at [cv.inpaint] and nowhere else. *)
Definition cvInpaintThrows : Cv :=
  mkCv true
    (λ d, Some (mkMat (idHeight d) (idWidth d) 4 []))
    (Some (mkMat 0 0 0 []))
    (λ m code, Some (mkMat (rows m) (cols m) (if (code =? 11)%Z then 1 else 3) []))
    (λ m _ _ _, Some m)
    (λ _ _ _ _, None)
    (λ _, true).

(** A primitive none of whose calls fails. *)
Definition cvWorking : Cv :=
  mkCv true
    (λ d, Some (mkMat (idHeight d) (idWidth d) 4 []))
    (Some (mkMat 0 0 0 []))
    (λ m code, Some (mkMat (rows m) (cols m) (if (code =? 11)%Z then 1 else 3) []))
    (λ m _ _ _, Some m)
    (λ s _ _ _, Some s)
    (λ _, true).

(** The page as loaded, with the default canvas size of HTML. *)
Definition freshPage : World :=
  mkWorld (mkAppState None 300 150 false 24 5 None)
    (mkCanvas 300 150 Blank) (mkCanvas 300 150 Blank) (mkCanvas 300 150 Blank)
    StatusInitial true true true 24 5 None ∅ [].

Definition photo : HtmlImage := mkHtmlImage 1920 1080 0.

(** The sizes of the two buffers [inpaintToCanvas] is given when event
    [e] invokes it. *)
Definition invocation (e : Event) (w : World)
    : option ((Z * Z) * (Z * Z)) :=
  match e with
  | RemoveTimer =>
      match pending w with
      | [] => None
      | _ :: _ =>
          let i := getImageData (imgCanvas w) in
          let m := getImageData (maskCanvas w) in
          Some ((idWidth i, idHeight i), (idWidth m, idHeight m))
      end
  | _ => None
  end.

End Airemove.

(** ** The same arithmetic in binary64

    The rectangle and the first key of the filler, computed as the engine
    computes them, on the kernel's binary64 floats. *)

Module Binary64.
Open Scope float_scope.

(** The double nearest to 0.15, the value of the literal [0.15]. *)
Definition c015 : float := 0x1.3333333333333p-3.

(** [Math.min] of two numbers (neither is [NaN] here). *)
Definition min (a b : float) : float := if PrimFloat.ltb b a then b else a.

Definition watermarkHeight (h : float) : float := min 100 (h * c015).
Definition watermarkWidth (w : float) : float := min 150 (w * 0.25).
Definition startX (w : float) : float := w - watermarkWidth w.
Definition startY (h : float) : float := h - watermarkHeight h.
Definition key (w x y : float) : float := (y * w + x) * 4.

(** An image dimension as a number. *)
Definition ofZ (z : Z) : float := PrimFloat.of_uint63 (Uint63.of_Z z).

(** [dist / Math.max(1, brush / 3)] at distance [dist]. *)
Definition strokeRatio (dist brush : float) : float :=
  let step := if PrimFloat.ltb 1 (brush / 3) then brush / 3 else 1 in
  dist / step.

(** *** The value of a number

    A binary64 number is not a number, an infinity, or the rational
    [m * 2^e] of its mantissa and exponent. *)
Inductive Value := NotANumber | Infinite (negative : bool) | Finite (q : Q).

Definition value (x : float) : Value :=
  match Prim2SF x with
  | S754_nan => NotANumber
  | S754_infinity s => Infinite s
  | S754_zero _ => Finite 0%Q
  | S754_finite s m e =>
      let n := if s then Zneg m else Zpos m in
      Finite (match e with
              | Z0 => inject_Z n
              | Zpos p => inject_Z (n * 2 ^ Zpos p)
              | Zneg p => Qmake n (2 ^ p)
              end)
  end.

Definition toQ (x : float) : option Q :=
  match value x with Finite q => Some q | _ => None end.

(** The comparisons [<], [<=] and [==] of two numbers. *)
Definition ltF (a b : float) : Prop := PrimFloat.ltb a b = true.
Definition leF (a b : float) : Prop := PrimFloat.leb a b = true.
Definition eqF (a b : float) : Prop := PrimFloat.eqb a b = true.

(** *** The rectangle at every size

    [f] on the [p] integers from [lo] on. *)
Fixpoint allFrom (f : Z → bool) (p : positive) (lo : Z) : bool :=
  match p with
  | xH => f lo
  | xO q => allFrom f q lo && allFrom f q (lo + Zpos q)
  | xI q => f lo && allFrom f q (lo + 1) && allFrom f q (lo + 1 + Zpos q)
  end.

(** The largest side of a canvas in any browser, 2^22 - 1 pixels. *)
Definition maxSide : positive := 4194303.

(** [f] at the [p] integers from [lo] on, counted on machine integers. *)
Definition one : PrimInt63.int := Eval vm_compute in Uint63.of_Z 1.

Definition scan (f : PrimInt63.int → bool) (st : PrimInt63.int * bool)
    : PrimInt63.int * bool :=
  (PrimInt63.add (fst st) one, snd st && f (fst st)).

Definition allFromInt (f : PrimInt63.int → bool) (p : positive)
    (lo : PrimInt63.int) : bool :=
  snd (Pos.iter (scan f) (lo, true) p).

(** One side of the rectangle, for an image of [n] pixels that side:
    [dim] is its extent, at most [cap], and [start] its first coordinate;
    from [switch] pixels on the extent is [cap]. *)
Definition sideInImage (cap : float) (capI switch : PrimInt63.int)
    (dim start : float → float) (n : PrimInt63.int) : bool :=
  let N := PrimFloat.of_uint63 n in
  let d := dim N in
  let s := start N in
  PrimFloat.ltb 0 d && PrimFloat.leb d cap && PrimFloat.leb d N
  && PrimFloat.leb 0 s && PrimFloat.ltb s N
  && (PrimInt63.ltb n switch
      || PrimFloat.eqb d cap
         && PrimFloat.eqb s (PrimFloat.of_uint63 (PrimInt63.sub n capI))).

Definition heightInImage : PrimInt63.int → bool :=
  sideInImage 100 (Uint63.of_Z 100) (Uint63.of_Z 667) watermarkHeight startY.
Definition widthInImage : PrimInt63.int → bool :=
  sideInImage 150 (Uint63.of_Z 150) (Uint63.of_Z 600) watermarkWidth startX.

Definition within (a b eps : Q) : bool :=
  Qle_bool (b - eps) a && Qle_bool a (b + eps).

(** Below 667 pixels the height of the rectangle is [0.15 * h] and its top
    [0.85 * h], each rounded; the top is exact where it is an integer. *)
Definition heightRounded (h : Z) : bool :=
  let H := ofZ h in
  match toQ (watermarkHeight H), toQ (startY H) with
  | Some qh, Some qy =>
      within qh (0.15 * inject_Z h)%Q (1 # 2 ^ 46)
      && within qy (0.85 * inject_Z h)%Q (1 # 2 ^ 44)
      && (negb (h mod 20 =? 0)%Z || Qeq_bool qy (0.85 * inject_Z h)%Q)
  | _, _ => false
  end.

(** Below 600 pixels the width is [0.25 * w] and the left [0.75 * w]. *)
Definition widthExact (w : Z) : bool :=
  let W := ofZ w in
  match toQ (watermarkWidth W), toQ (startX W) with
  | Some qw, Some qx =>
      Qeq_bool qw (0.25 * inject_Z w)%Q && Qeq_bool qx (0.75 * inject_Z w)%Q
  | _, _ => false
  end.

End Binary64.

(** ** drawLine in binary64 *)

Module Stroke.
Import Binary64.
Open Scope float_scope.

Record Point := mkPoint { px : float; py : float }.

(** [ctx.arc(p.x, p.y, brush / 2, 0, Math.PI * 2); ctx.fill()]. *)
Record Stamp := mkStamp { centre : Point; radiusOf : float }.

Definition drawBrush (ctx : list Stamp) (p : Point) (brush : float)
    : list Stamp :=
  ctx ++ [mkStamp p (brush / 2)].

(** [Math.max(1, v)]. *)
Definition max1 (v : float) : float :=
  if PrimFloat.is_nan v then nan else if PrimFloat.ltb 1 v then v else 1.

(** [Math.sqrt(dx * dx + dy * dy)]. *)
Definition distance (a b : Point) : float :=
  let dx := px b - px a in
  let dy := py b - py a in
  PrimFloat.sqrt (dx * dx + dy * dy).

Definition stepOf (brush : float) : float := max1 (brush / 3).

(** The value of [Math.ceil(x)]: not a number, an infinity or an
    integer. *)
Inductive Count := NoNumber | Unbounded (negative : bool) | Whole (n : Z).

Definition ceil (x : float) : Count :=
  match value x with
  | NotANumber => NoNumber
  | Infinite s => Unbounded s
  | Finite q => Whole (Qceiling q)
  end.

Definition lineSteps (a b : Point) (brush : float) : Count :=
  ceil (distance a b / stepOf brush).

(** [steps === 0 ? 0 : i / steps], for the integers [i] and [steps]. *)
Definition lineT (steps : Z) (i : nat) : float :=
  if (steps =? 0)%Z then 0 else ofZ (Z.of_nat i) / ofZ steps.

(** [{ x: a.x + dx * t, y: a.y + dy * t }]. *)
Definition linePoint (a b : Point) (t : float) : Point :=
  mkPoint (px a + (px b - px a) * t) (py a + (py b - py a) * t).

(** The stamps of the loop [for (let i = 0; i <= steps; i++)]. *)
Definition lineStamps (a b : Point) (brush : float) (steps : Z) : list Stamp :=
  (λ i, mkStamp (linePoint a b (lineT steps i)) (brush / 2))
    <$> seq 0 (S (Z.to_nat steps)).

(** [drawLine(ctx, a, b, brush)].  The counter [i] takes the integers
    0, 1, 2, ..., which are exact below 2^53; with [steps] not a number
    the test [i <= steps] fails at once, and with [steps] infinite or
    2^53 and more the loop does not end: [None]. *)
Definition drawLine (ctx : list Stamp) (a b : Point) (brush : float)
    : option (list Stamp) :=
  match lineSteps a b brush with
  | NoNumber | Unbounded true => Some ctx
  | Unbounded false => None
  | Whole steps =>
      if (steps <? 0)%Z then Some ctx
      else if (2 ^ 53 <=? steps)%Z then None
      else Some (foldl (λ ctx i,
                          drawBrush ctx (linePoint a b (lineT steps i)) brush)
                       ctx (seq 0 (S (Z.to_nat steps))))
  end.

(** Two points [3 * k] apart with the brush [k]: the stroke has one
    step at least, and ends. *)
Definition threeBrushesApart (k : Z) : bool :=
  match lineSteps (mkPoint 0 0) (mkPoint (ofZ (3 * k)) 0) (ofZ k) with
  | Whole steps => (1 <=? steps)%Z && (steps <? 2 ^ 53)%Z
  | _ => false
  end.

End Stroke.

(** ** airemove/script.js: the wait for the library and kinds of events *)

Module AiremoveInput.
Import Airemove.

(** How the promise of [waitForCvReady] stands. *)
Inductive Wait := Resolved | Rejected | Waiting.

(** The calls of [tick], each with what it reads: [isCvReady()] and
    [Date.now()].  The promise is settled by the first call that finds the
    library or the time out; a call that does neither sets the timer of
    the next. *)
Fixpoint ticks (start timeoutMs : Z) (reads : list (bool * Z)) : Wait :=
  match reads with
  | [] => Waiting
  | (ready, now) :: reads =>
      if ready then Resolved
      else if (timeoutMs <? now - start)%Z then Rejected
      else ticks start timeoutMs reads
  end.

(** [waitForCvReady(timeoutMs)], called when [isCvReady()] is [ready] and
    [Date.now()] is [start]. *)
Definition waitForCvReady (timeoutMs : Z) (ready : bool) (start : Z)
    (reads : list (bool * Z)) : Wait :=
  if ready then Resolved else ticks start timeoutMs reads.

(** The clock does not go back from one call of [tick] to the next. *)
Fixpoint clockFrom (t : Z) (reads : list (bool * Z)) : Prop :=
  match reads with
  | [] => True
  | (_, now) :: reads => (t <= now)%Z ∧ clockFrom now reads
  end.

(** The events of the pointer and of the Escape key. *)
Definition pointerEvent (e : Event) : bool :=
  match e with
  | PointerDown _ | PointerMove _ _ | PointerUp | KeyEscape => true
  | _ => false
  end.

Definition isPointerMove (e : Event) : bool :=
  match e with PointerMove _ _ => true | _ => false end.

(** [canWork] of [syncControls]. *)
Definition canWork (w : World) : bool :=
  bool_decide (is_Some (img (state w)))
  && (0 <? cwidth (imgCanvas w))%Z && (0 <? cheight (imgCanvas w))%Z.

End AiremoveInput.

(** ** The page of the watermark remover

    [class WatermarkRemover] of [lnwremove/script.js]: the list of processed
    images, the two counters and the part of the document the methods
    change.  A string is its list of UTF-16 code units.  An element made by
    [createImageItem] is an entry of [elements], named by a number; [grid]
    lists the children of [imagesGrid]. *)

Module WatermarkRemover.
Import Lnwremove.

Definition str : Type := list nat.

(** What the methods use of a [File]: its name, its MIME type and what
    [loadImage] gives for it, [None] when the promise is rejected. *)
Record File := mkFile {
  fileName : str;
  fileType : str;
  decoded : option Image }.

(** [removeWatermark] with what [canvas.getContext('2d')] answers:
    without a context it throws. *)
Definition removeWatermarkOn (context : bool) (img : Image) : option Image :=
  if context then removeWatermark img else None.

Inductive Status := Processing | Success | Failed.

Record Item := mkItem {
  dataId : str;
  title : str;
  status : Status;
  downloadDisabled : bool;
  previewLoaded : bool }.

(** An entry of [this.images]. *)
Record Stored := mkStored {
  imageId : str;
  imageName : str;
  canvas : Image;
  element : nat }.

Record Page := mkPage {
  images : list Stored;
  processedCount : Z;
  successCount : Z;
  elements : gmap nat Item;
  grid : list nat;
  nextNode : nat;
  uploadHidden : bool;
  processingHidden : bool;
  statsHidden : bool;
  fileInputValue : str;
  processedCountEl : Z;
  successCountEl : Z }.

(** The constructor, on a document [dom]. *)
Definition constructor (dom : Page) : Page :=
  mkPage [] 0 0 (elements dom) (grid dom) (nextNode dom) (uploadHidden dom)
    (processingHidden dom) (statsHidden dom) (fileInputValue dom)
    (processedCountEl dom) (successCountEl dom).

Definition updateStats (p : Page) : Page :=
  mkPage (images p) (processedCount p) (successCount p) (elements p) (grid p)
    (nextNode p) (uploadHidden p) (processingHidden p) (statsHidden p)
    (fileInputValue p) (processedCount p) (successCount p).

Definition clearAll (p : Page) : Page :=
  updateStats
    (mkPage [] 0 0 (elements p) [] (nextNode p) false true true []
       (processedCountEl p) (successCountEl p)).

Definition createImageItem (id name : str) : Item :=
  mkItem id name Processing true false.

(** [updateImageStatus(imageItem, status, text)], on the element [node]. *)
Definition withStatus (st : Status) (it : Item) : Item :=
  mkItem (dataId it) (title it) st
    (match st with Success => false | _ => downloadDisabled it end)
    (previewLoaded it).

Definition withElements (es : gmap nat Item) (p : Page) : Page :=
  mkPage (images p) (processedCount p) (successCount p) es (grid p)
    (nextNode p) (uploadHidden p) (processingHidden p) (statsHidden p)
    (fileInputValue p) (processedCountEl p) (successCountEl p).

Definition updateImageStatus (node : nat) (st : Status) (p : Page) : Page :=
  withElements (alter (withStatus st) node (elements p)) p.

(** [preview.src = img.src]. *)
Definition setPreview (node : nat) (p : Page) : Page :=
  withElements
    (alter (λ it, mkItem (dataId it) (title it) (status it)
                    (downloadDisabled it) true) node (elements p)) p.

(** [processImage] up to its first [await]: the element is made and
    appended to the grid. *)
Definition processStart (id : str) (file : File) (p : Page) : Page :=
  mkPage (images p) (processedCount p) (successCount p)
    (<[nextNode p := createImageItem id (fileName file)]> (elements p))
    (grid p ++ [nextNode p]) (S (nextNode p)) (uploadHidden p)
    (processingHidden p) (statsHidden p) (fileInputValue p)
    (processedCountEl p) (successCountEl p).

Definition pushImage (im : Stored) (p : Page) : Page :=
  mkPage (images p ++ [im]) (processedCount p) (successCount p + 1)
    (elements p) (grid p) (nextNode p) (uploadHidden p) (processingHidden p)
    (statsHidden p) (fileInputValue p) (processedCountEl p)
    (successCountEl p).

Definition countProcessed (p : Page) : Page :=
  mkPage (images p) (processedCount p + 1) (successCount p) (elements p)
    (grid p) (nextNode p) (uploadHidden p) (processingHidden p)
    (statsHidden p) (fileInputValue p) (processedCountEl p)
    (successCountEl p).

(** [processImage] from the settling of [loadImage] to its end, for the
    element [node] made at the start. *)
Definition processFinish (node : nat) (id : str) (file : File)
    (p : Page) : Page :=
  let p :=
    match decoded file with
    | None => updateImageStatus node Failed p
    | Some img =>
        let p := setPreview node p in
        match removeWatermark img with
        | None => updateImageStatus node Failed p
        | Some out =>
            updateStats
              (pushImage (mkStored id (fileName file) out node)
                 (updateImageStatus node Success p))
        end
    end in
  updateStats (countProcessed p).

(** [this.images.findIndex(img => img.id === imageId)]. *)
Fixpoint findIndex (id : str) (l : list Stored) : option nat :=
  match l with
  | [] => None
  | im :: l =>
      if bool_decide (imageId im = id) then Some 0%nat
      else S <$> findIndex id l
  end.

Definition removeImage (id : str) (p : Page) : Page :=
  match findIndex id (images p) with
  | None => p
  | Some index =>
      match images p !! index with
      | None => p
      | Some image =>
          let p :=
            updateStats
              (mkPage (delete index (images p)) (processedCount p - 1)
                 (successCount p - 1) (elements p)
                 (filter (λ n, n ≠ element image) (grid p)) (nextNode p)
                 (uploadHidden p) (processingHidden p) (statsHidden p)
                 (fileInputValue p) (processedCountEl p)
                 (successCountEl p)) in
          match images p with
          | [] => clearAll p
          | _ => p
          end
      end
  end.

(** The code units of ['.'] and ['/']. *)
Definition dot : nat := 46.
Definition slash : nat := 47.

(** A code unit matched by [[^/.]]. *)
Definition extensionChar (c : nat) : bool :=
  negb (Nat.eqb c slash) && negb (Nat.eqb c dot).

(** [name.replace(/\.[^/.]+$/, '')]: the first position where the
    pattern matches, a dot followed by one or more code units other than
    slash and dot up to the end, is where the name is cut. *)
Fixpoint stripExtension (name : str) : str :=
  match name with
  | [] => []
  | c :: rest =>
      if Nat.eqb c dot && negb (bool_decide (rest = []))
         && forallb extensionChar rest
      then []
      else c :: stripExtension rest
  end.

(** The code units of ['_no_watermark.png']. *)
Definition suffix : str :=
  [95; 110; 111; 95; 119; 97; 116; 101; 114; 109; 97; 114; 107; 46; 112;
   110; 103]%nat.

Definition downloadName (name : str) : str := stripExtension name ++ suffix.

(** What runs between two turns of the event loop. *)
Inductive Event :=
  | Started (id : str) (file : File)
  | Finished (node : nat) (id : str) (file : File)
  | RemoveClicked (id : str)
  | ClearClicked.

Definition step (p : Page) (e : Event) : Page :=
  match e with
  | Started id file => processStart id file p
  | Finished node id file => processFinish node id file p
  | RemoveClicked id => removeImage id p
  | ClearClicked => clearAll p
  end.

Definition run (es : list Event) (p : Page) : Page := foldl step p es.

(** The counters agree with the list of images. *)
Definition counted (p : Page) : Prop :=
  successCount p = Z.of_nat (length (images p)) ∧
  (successCount p <= processedCount p)%Z.

(** A page with one stored image, [a.p], among three processed. *)
Definition samplePage : Page :=
  mkPage [mkStored [1]%nat [97; 46; 112]%nat opaqueBlack10 2] 3 1 ∅
    [0; 1; 2]%nat 3 true false false [] 3 1.

End WatermarkRemover.

(** ** Facts about numbers, typed arrays and loops *)

Module JSFacts.
Import JS.

Lemma Qltb_lt (a b : Q) : Qltb a b = true ↔ a < b.
Proof.
  unfold Qltb. rewrite negb_true_iff.
  destruct (Qle_bool b a) eqn:E.
  - apply Qle_bool_iff in E. split; [discriminate | intros; lra].
  - split; [intros _ | reflexivity].
    destruct (Qlt_le_dec a b) as [|L]; [assumption|].
    apply Qle_bool_iff in L. congruence.
Qed.

Lemma Qltb_ge (a b : Q) : Qltb a b = false ↔ b <= a.
Proof.
  unfold Qltb. rewrite negb_false_iff. apply Qle_bool_iff.
Qed.

Ltac Qltb_prop H := first [apply Qltb_lt in H | apply Qltb_ge in H].

#[export] Instance Qltb_comp : Proper (Qeq ==> Qeq ==> eq) Qltb.
Proof. intros a a' Ha b b' Hb. unfold Qltb. now rewrite Ha, Hb. Qed.

#[export] Instance isInteger_comp : Proper (Qeq ==> eq) isInteger.
Proof.
  intros a a' Ha. unfold isInteger. rewrite (Qfloor_comp a a' Ha).
  now apply Qeqb_comp.
Qed.

#[export] Instance arrayIndex_comp (len : nat) :
  Proper (Qeq ==> eq) (arrayIndex len).
Proof.
  intros a a' Ha. unfold arrayIndex.
  now rewrite (Qfloor_comp a a' Ha), (isInteger_comp a a' Ha).
Qed.

#[export] Instance get_comp (data : list Z) : Proper (Qeq ==> eq) (get data).
Proof. intros a a' Ha. unfold get. now rewrite (arrayIndex_comp _ a a' Ha). Qed.

#[export] Instance set_comp (data : list Z) :
  Proper (Qeq ==> eq ==> eq) (set data).
Proof.
  intros a a' Ha v v' <-. unfold set. now rewrite (arrayIndex_comp _ a a' Ha).
Qed.

Lemma set_key_eq (data : list Z) (q q' : Q) (v : number) :
  q == q' → set data q v = set data q' v.
Proof. intros E. now apply set_comp. Qed.

(** A key designates element [i] exactly when it is the integer [i],
    within the array. *)
Lemma arrayIndex_Some (len : nat) (q : Q) (i : nat) :
  arrayIndex len q = Some i ↔ q == inject_Z (Z.of_nat i) ∧ (i < len)%nat.
Proof.
  unfold arrayIndex, isInteger. split.
  - destruct (Qeq_bool _ q) eqn:E1; [|discriminate].
    destruct (0 <=? Qfloor q)%Z eqn:E2; [|discriminate].
    destruct (Qfloor q <? Z.of_nat len)%Z eqn:E3; [|discriminate].
    simpl. intros [= <-]. apply Qeq_bool_eq in E1.
    rewrite Z2Nat.id by lia. split; [now symmetry | lia].
  - intros [Hq Hi]. fold (isInteger q). fold (arrayIndex len q).
    rewrite (arrayIndex_comp len _ _ Hq). unfold arrayIndex, isInteger.
    rewrite Qfloor_Z, Qeq_bool_refl.
    replace (0 <=? Z.of_nat i)%Z with true by (symmetry; apply Z.leb_le; lia).
    replace (Z.of_nat i <? Z.of_nat len)%Z with true
      by (symmetry; apply Z.ltb_lt; lia).
    simpl. now rewrite Nat2Z.id.
Qed.

Lemma length_set (data : list Z) (q : Q) (v : number) :
  length (set data q v) = length data.
Proof. unfold set. destruct (arrayIndex _ q); [apply length_insert | done]. Qed.

(** What an assignment leaves at element [p]. *)
Lemma lookup_set (data : list Z) (q : Q) (v : number) (p : nat) :
  set data q v !! p =
  if decide (arrayIndex (length data) q = Some p)
  then Some (toUint8Clamp v) else data !! p.
Proof.
  unfold set. destruct (arrayIndex (length data) q) as [i|] eqn:E.
  - destruct (decide (Some i = Some p)) as [[= ->]|N].
    + apply list_lookup_insert_eq. now apply arrayIndex_Some in E.
    + apply list_lookup_insert_ne. congruence.
  - now destruct (decide (None = Some p)).
Qed.

Lemma set_commute (data : list Z) (q1 q2 : Q) (v1 v2 : number) :
  ¬ q1 == q2 →
  set (set data q1 v1) q2 v2 = set (set data q2 v2) q1 v1.
Proof.
  intros N. apply list_eq. intros p.
  rewrite !lookup_set, !length_set.
  destruct (decide (arrayIndex (length data) q2 = Some p)) as [E2|];
    destruct (decide (arrayIndex (length data) q1 = Some p)) as [E1|];
    try reflexivity.
  apply arrayIndex_Some in E1, E2. destruct N. lra.
Qed.

Lemma forLoop_ext {S : Type} (body body' : Q → S → S) :
  (∀ q s, body q s = body' q s) →
  ∀ fuel i bound s,
    forLoop fuel i bound body s = forLoop fuel i bound body' s.
Proof.
  intros E fuel. induction fuel as [|n IH]; intros i bound s; simpl.
  - reflexivity.
  - destruct (Qltb i bound); [|reflexivity]. now rewrite E, IH.
Qed.

Lemma inject_Z_minus (a b : Z) : inject_Z (a - b) = inject_Z a - inject_Z b.
Proof. unfold Z.sub. now rewrite inject_Z_plus, inject_Z_opp. Qed.

Lemma Qle_inject (a b : Z) : inject_Z a <= inject_Z b ↔ (a <= b)%Z.
Proof. now rewrite <- Zle_Qle. Qed.

Lemma Qlt_inject (a b : Z) : inject_Z a < inject_Z b ↔ (a < b)%Z.
Proof. now rewrite <- Zlt_Qlt. Qed.

Lemma Qceiling_pred (q : Q) : Qceiling (q - 1) = (Qceiling q - 1)%Z.
Proof.
  pose proof (Qle_ceiling q) as U. pose proof (Qceiling_lt q) as L.
  pose proof (Qle_ceiling (q - 1)) as U'.
  pose proof (Qceiling_lt (q - 1)) as L'.
  rewrite inject_Z_minus in L, L'. change (inject_Z 1) with 1 in L, L'.
  apply Z.le_antisymm.
  - apply Z.lt_succ_r. unfold Z.succ. rewrite Zlt_Qlt.
    rewrite inject_Z_plus, inject_Z_minus. change (inject_Z 1) with 1. lra.
  - apply Z.lt_succ_r. unfold Z.succ. rewrite Zlt_Qlt.
    rewrite inject_Z_plus, inject_Z_minus. change (inject_Z 1) with 1. lra.
Qed.

Lemma loopFuel_step (i bound : Q) :
  i < bound → loopFuel i bound = S (loopFuel (i + 1) bound).
Proof.
  intros L. unfold loopFuel.
  replace (Qceiling (bound - (i + 1))) with (Qceiling (bound - i) - 1)%Z.
  2:{ rewrite <- Qceiling_pred. apply Qceiling_comp. lra. }
  assert (1 <= Qceiling (bound - i))%Z.
  { apply Z.lt_pred_le. change (Z.pred 1) with 0%Z. rewrite Zlt_Qlt.
    pose proof (Qle_ceiling (bound - i)). change (inject_Z 0) with 0. lra. }
  lia.
Qed.

Lemma loopFuel_done (i bound : Q) : bound <= i → loopFuel i bound = O.
Proof.
  intros L. unfold loopFuel.
  assert (Qceiling (bound - i) <= 0)%Z.
  { apply Z.lt_succ_r. change (Z.succ 0) with 1%Z. rewrite Zlt_Qlt.
    pose proof (Qceiling_lt (bound - i)) as C.
    rewrite inject_Z_minus in C. change (inject_Z 1) with 1 in *. lra. }
  lia.
Qed.

(** The loop visits [start], [start + 1], ... : with the fuel of
    [loopFuel] (or more) it is the fold of its body over these. *)
Lemma forLoop_foldl {S : Type} (body : Q → S → S) (bound : Q) :
  (∀ q q' s, q == q' → body q s = body q' s) →
  ∀ fuel start s,
    (loopFuel start bound <= fuel)%nat →
    forLoop fuel start bound body s =
    foldl (λ s k, body (start + inject_Z (Z.of_nat k)) s) s
          (seq 0 (loopFuel start bound)).
Proof.
  intros Hb fuel. induction fuel as [|n IH]; intros start s Hf.
  - replace (loopFuel start bound) with O by lia. reflexivity.
  - simpl. destruct (Qltb start bound) eqn:E.
    + apply Qltb_lt in E. rewrite (loopFuel_step _ _ E) in Hf |- *.
      rewrite IH by lia. simpl seq. simpl foldl.
      rewrite <- fmap_S_seq, foldl_fmap.
      rewrite (Hb (start + inject_Z (Z.of_nat 0)) start) by (change (inject_Z (Z.of_nat 0)) with 0; lra).
      generalize (body start s). generalize (seq 0 (loopFuel (start + 1) bound)).
      intros l. induction l as [|k l IHl]; intros s'; simpl; [reflexivity|].
      rewrite IHl. f_equal. apply Hb.
      rewrite Nat2Z.inj_succ. unfold Z.succ. rewrite inject_Z_plus.
      change (inject_Z 1) with 1. lra.
    + apply Qltb_ge in E. now rewrite (loopFuel_done _ _ E).
Qed.

End JSFacts.

(** ** The region filler: loops, frame and values *)

Module LnwremoveFacts.
Import JS JSFacts Lnwremove.

Lemma sampleStep_comp (w : Z) (sY : Q) (data : list Z) (ny ny' nx nx' : Q)
    (acc : Acc) :
  ny == ny' → nx == nx' →
  sampleStep w sY data ny nx acc = sampleStep w sY data ny' nx' acc.
Proof.
  intros Hy Hx. unfold sampleStep, guard.
  rewrite (Qleb_comp 0 0 (Qeq_refl 0) ny ny' Hy).
  rewrite (Qltb_comp ny ny' Hy sY sY (Qeq_refl sY)).
  rewrite (Qleb_comp 0 0 (Qeq_refl 0) nx nx' Hx).
  rewrite (Qltb_comp nx nx' Hx _ _ (Qeq_refl (inject_Z w))).
  destruct (_ && _); [|reflexivity].
  assert (E : (ny * inject_Z w + nx) * 4 == (ny' * inject_Z w + nx') * 4)
    by (rewrite Hy, Hx; reflexivity).
  f_equal; f_equal; apply get_comp; rewrite E; reflexivity.
Qed.

Lemma sampleNeighbourhood_comp (w : Z) (sY : Q) (data : list Z)
    (sampleY sampleY' x x' : Q) :
  sampleY == sampleY' → x == x' →
  sampleNeighbourhood w sY data sampleY x =
  sampleNeighbourhood w sY data sampleY' x'.
Proof.
  intros Hy Hx. unfold sampleNeighbourhood, offsets. simpl foldl.
  repeat match goal with
  | |- sampleStep _ _ _ (sampleY + ?dy) (x + ?dx) ?a =
       sampleStep _ _ _ (sampleY' + ?dy) (x' + ?dx) ?a' =>
      transitivity (sampleStep w sY data (sampleY' + dy) (x' + dx) a);
      [apply sampleStep_comp; [now rewrite Hy | now rewrite Hx] | f_equal]
  end.
Qed.

Lemma writePixel_comp (data : list Z) (idx idx' : Q) (acc : Acc) :
  idx == idx' → writePixel data idx acc = writePixel data idx' acc.
Proof.
  intros E. unfold writePixel.
  rewrite (set_key_eq data idx idx') by exact E.
  rewrite (set_key_eq _ (idx + 1) (idx' + 1)) by (rewrite E; reflexivity).
  rewrite (set_key_eq _ (idx + 2) (idx' + 2)) by (rewrite E; reflexivity).
  rewrite (set_key_eq _ (idx + 3) (idx' + 3)) by (rewrite E; reflexivity).
  reflexivity.
Qed.

Lemma sampleRow_comp (sY y y' : Q) : y == y' → sampleRow sY y == sampleRow sY y'.
Proof. intros E. unfold sampleRow. now rewrite E. Qed.

Lemma fillPixelFrom_comp (w : Z) (sY : Q) (src : list Z) (x x' y y' : Q)
    (dst : list Z) :
  x == x' → y == y' →
  fillPixelFrom w sY src x y dst = fillPixelFrom w sY src x' y' dst.
Proof.
  intros Hx Hy. unfold fillPixelFrom.
  pose proof (sampleRow_comp sY y y' Hy) as Hs.
  rewrite (Qleb_comp 0 0 (Qeq_refl 0) _ _ Hs).
  rewrite (sampleNeighbourhood_comp w sY src _ _ x x' Hs Hx).
  destruct (Qle_bool _ _); [|reflexivity].
  destruct (0 <? _)%Z; [|reflexivity].
  apply writePixel_comp. now rewrite Hx, Hy.
Qed.

Lemma fillPixel_from (w : Z) (sY x y : Q) (data : list Z) :
  fillPixel w sY x y data = fillPixelFrom w sY data x y data.
Proof. reflexivity. Qed.

Lemma fillPixel_comp (w : Z) (sY : Q) (x x' y y' : Q) (data : list Z) :
  x == x' → y == y' → fillPixel w sY x y data = fillPixel w sY x' y' data.
Proof. intros. rewrite !fillPixel_from. now apply fillPixelFrom_comp. Qed.

Lemma foldl_bind {A B C : Type} (f : A → C → A) (k : B → list C)
    (l : list B) (a : A) :
  foldl f a (l ≫= k) = foldl (λ a x, foldl f a (k x)) a l.
Proof.
  revert a. induction l as [|x l IH]; intros a; [reflexivity|].
  rewrite bind_cons, foldl_app. apply IH.
Qed.

Lemma foldl_ext_all {A B : Type} (f f' : A → B → A) (l : list B) (a : A) :
  (∀ a x, f a x = f' a x) → foldl f a l = foldl f' a l.
Proof.
  intros E. revert a. induction l as [|x l IH]; intros a; simpl; [done|].
  now rewrite E, IH.
Qed.

(** The two loops make exactly the row-major pass over [rectOffsets]. *)
Lemma fillRegion_inOrder (w h : Z) (data : list Z) :
  fillRegion w h data = fillInOrder w h (rectOffsets w h) data.
Proof.
  unfold fillRegion, fillInOrder, rectOffsets.
  rewrite foldl_bind.
  rewrite forLoop_foldl; [|
    intros q q' s E; apply forLoop_ext; intros x d;
    now apply fillPixel_comp | fold (rectRows h); lia ].
  fold (rectRows h). apply foldl_ext_all. intros d i.
  rewrite forLoop_foldl; [|
    intros q q' s E; now apply fillPixel_comp | fold (rectCols w); lia ].
  fold (rectCols w). now rewrite foldl_fmap.
Qed.

(** *** The rectangle *)

Lemma watermarkHeight_bounds (h : Z) :
  (0 <= h)%Z →
  0 <= watermarkHeight h ∧ watermarkHeight h <= 100 ∧
  watermarkHeight h <= inject_Z h * 0.15.
Proof.
  intros Hh. unfold watermarkHeight.
  rewrite Zle_Qle in Hh. change (inject_Z 0) with 0 in Hh.
  pose proof (Q.le_min_l 100 (inject_Z h * 0.15)).
  pose proof (Q.le_min_r 100 (inject_Z h * 0.15)).
  destruct (Q.min_spec 100 (inject_Z h * 0.15)) as [[_ E]|[_ E]];
    repeat split; lra.
Qed.

Lemma watermarkWidth_bounds (w : Z) :
  (0 <= w)%Z →
  0 <= watermarkWidth w ∧ watermarkWidth w <= 150 ∧
  watermarkWidth w <= inject_Z w * 0.25.
Proof.
  intros Hw. unfold watermarkWidth.
  rewrite Zle_Qle in Hw. change (inject_Z 0) with 0 in Hw.
  pose proof (Q.le_min_l 150 (inject_Z w * 0.25)).
  pose proof (Q.le_min_r 150 (inject_Z w * 0.25)).
  destruct (Q.min_spec 150 (inject_Z w * 0.25)) as [[_ E]|[_ E]];
    repeat split; lra.
Qed.

Lemma loopFuel_lt (start bound : Q) (k : nat) :
  (k < loopFuel start bound)%nat → start + inject_Z (Z.of_nat k) < bound.
Proof.
  unfold loopFuel. intros L.
  assert (L' : (Z.of_nat k <= Qceiling (bound - start) - 1)%Z) by lia.
  rewrite Zle_Qle in L'. pose proof (Qceiling_lt (bound - start)). lra.
Qed.

Lemma loopFuel_gt (start bound : Q) (k : nat) :
  start + inject_Z (Z.of_nat k) < bound → (k < loopFuel start bound)%nat.
Proof.
  unfold loopFuel. intros L.
  assert (L' : (Z.of_nat k < Qceiling (bound - start))%Z).
  { rewrite Zlt_Qlt. pose proof (Qle_ceiling (bound - start)). lra. }
  lia.
Qed.

Lemma inject_nat_nonneg (k : nat) : 0 <= inject_Z (Z.of_nat k).
Proof. change 0 with (inject_Z 0). rewrite <- Zle_Qle. lia. Qed.

Lemma inject_nat_pos (k : nat) : (0 < k)%nat → 1 <= inject_Z (Z.of_nat k).
Proof. intros. change 1 with (inject_Z 1). rewrite <- Zle_Qle. lia. Qed.

(** *** Samples are read below every key that is assigned *)

Lemma read_before_write (w h : Z) (i j : nat) (dy dx : Z) :
  (0 <= w)%Z → (0 <= h)%Z →
  (i < rectRows h)%nat → (j < rectCols w)%nat →
  dy ∈ offsets → dx ∈ offsets →
  let ny := sampleRow (startY h) (coordY h i) + inject_Z dy in
  let nx := coordX w j + inject_Z dx in
  0 <= ny → ny < startY h → 0 <= nx → nx < inject_Z w →
  (ny * inject_Z w + nx) * 4 + 2 < writeBase w h.
Proof.
  intros Hw Hh Hi Hj Hdy Hdx ny nx Hny0 Hny Hnx0 Hnx.
  destruct (watermarkHeight_bounds h Hh) as (Hh0 & Hh100 & Hh15).
  destruct (watermarkWidth_bounds w Hw) as (Hw0 & Hw150 & Hw25).
  apply loopFuel_lt in Hi, Hj. fold (coordY h i) in Hi. fold (coordX w j) in Hj.
  pose proof (inject_nat_nonneg i) as Hi0.
  pose proof (inject_nat_nonneg j) as Hj0.
  assert (HW1 : 1 <= inject_Z w).
  { assert (0 < w)%Z by (rewrite Zlt_Qlt; change (inject_Z 0) with 0; lra).
    change 1 with (inject_Z 1). rewrite <- Zle_Qle. lia. }
  unfold writeBase. subst ny nx.
  unfold coordX, coordY, startX, startY in *.
  set (W := inject_Z w) in *. set (H := inject_Z h) in *.
  set (wmH := watermarkHeight h) in *. set (wmW := watermarkWidth w) in *.
  set (I := inject_Z (Z.of_nat i)) in *. set (J := inject_Z (Z.of_nat j)) in *.
  unfold sampleRow in *.
  set (e := H - wmH - (H - wmH + I - (H - wmH)) - 1) in *.
  destruct (Q.max_spec 0 e) as [[Lt E]|[Le E]].
  - (* the mirrored row is a row of the image *)
    set (m := Qmax 0 e) in *.
    assert (Hle : (m + inject_Z dy) * W <= (H - wmH - 1) * W).
    { apply Qmult_le_compat_r; [|lra].
      assert (Hd : inject_Z dy <= I).
      { unfold offsets in Hdy. rewrite !elem_of_cons in Hdy.
        destruct Hdy as [->|[->|[->|Hdy]]].
        - change (inject_Z (-1)) with (-1). lra.
        - change (inject_Z 0) with 0. lra.
        - change (inject_Z 1) with 1 in *.
          destruct i as [|i']; [|apply (inject_nat_pos (S i')); lia].
          subst I e. change (inject_Z (Z.of_nat 0)) with 0 in *. lra.
        - now apply elem_of_nil in Hdy. }
      subst e. lra. }
    lra.
  - (* the mirrored row is clamped to row 0: the image has a single row *)
    set (m := Qmax 0 e) in *.
    assert (Hh1 : h = 1%Z).
    { assert (H < 2) by (subst e; lra). assert (0 < H) by (subst e; lra).
      assert (h < 2)%Z by (rewrite Zlt_Qlt; exact H0).
      assert (0 < h)%Z by (rewrite Zlt_Qlt; exact H1). lia. }
    assert (EwmH : wmH == 0.15) by (subst wmH; rewrite Hh1; reflexivity).
    assert (EH : H == 1) by (subst H; rewrite Hh1; reflexivity).
    assert (Hd : inject_Z dy == 0).
    { unfold offsets in Hdy. rewrite !elem_of_cons in Hdy.
      destruct Hdy as [->|[->|[->|Hdy]]].
      - change (inject_Z (-1)) with (-1) in *. lra.
      - reflexivity.
      - change (inject_Z 1) with 1 in *. lra.
      - now apply elem_of_nil in Hdy. }
    assert (Z0 : (m + inject_Z dy) * W == 0) by (rewrite E, Hd; ring).
    assert (P : (H - wmH) * W == 0.85 * W) by (rewrite EH, EwmH; ring).
    lra.
Qed.

Lemma write_at_or_after_base (w h : Z) (i j : nat) :
  (0 <= w)%Z →
  writeBase w h <= (coordY h i * inject_Z w + coordX w j) * 4.
Proof.
  intros Hw. unfold writeBase, coordX, coordY.
  rewrite Zle_Qle in Hw. change (inject_Z 0) with 0 in Hw.
  pose proof (inject_nat_nonneg i). pose proof (inject_nat_nonneg j).
  assert (0 <= inject_Z (Z.of_nat i) * inject_Z w)
    by (apply Qmult_le_0_compat; lra).
  lra.
Qed.

(** *** Reads do not see the writes *)

Lemma agreeBelow_refl (bound : Q) (d : list Z) : agreeBelow bound d d.
Proof. now split. Qed.

Lemma agreeBelow_trans (bound : Q) (d1 d2 d3 : list Z) :
  agreeBelow bound d1 d2 → agreeBelow bound d2 d3 → agreeBelow bound d1 d3.
Proof.
  intros [L1 A1] [L2 A2]. split; [congruence|].
  intros p Hp. now rewrite A1, A2.
Qed.

Lemma get_agree (bound q : Q) (d d' : list Z) :
  agreeBelow bound d d' → q < bound → get d q = get d' q.
Proof.
  intros [L A] Hq. unfold get. rewrite <- L.
  destruct (arrayIndex (length d) q) as [p|] eqn:E; [|reflexivity].
  simpl. apply A. apply arrayIndex_Some in E as [E _]. lra.
Qed.

Lemma set_agree (bound q : Q) (d : list Z) (v : number) :
  bound <= q → agreeBelow bound d (set d q v).
Proof.
  intros Hq. split; [now rewrite length_set|].
  intros p Hp. rewrite lookup_set.
  destruct (decide _) as [E|]; [|reflexivity].
  apply arrayIndex_Some in E as [E _]. lra.
Qed.

Lemma writePixel_agree (bound idx : Q) (d : list Z) (acc : Acc) :
  bound <= idx → agreeBelow bound d (writePixel d idx acc).
Proof.
  intros Hq. unfold writePixel.
  repeat (eapply agreeBelow_trans; [|apply set_agree; lra]).
  apply agreeBelow_refl.
Qed.

Lemma guard_true (w : Z) (sY ny nx : Q) :
  guard w sY ny nx = true ↔
  (0 <= ny ∧ ny < sY) ∧ (0 <= nx ∧ nx < inject_Z w).
Proof.
  unfold guard. rewrite !andb_true_iff, !Qle_bool_iff, !Qltb_lt. tauto.
Qed.

Lemma sampleStep_agree (bound : Q) (w : Z) (sY ny nx : Q) (d d' : list Z)
    (acc : Acc) :
  agreeBelow bound d d' →
  (guard w sY ny nx = true → (ny * inject_Z w + nx) * 4 + 2 < bound) →
  sampleStep w sY d ny nx acc = sampleStep w sY d' ny nx acc.
Proof.
  intros A Hb. unfold sampleStep.
  destruct (guard w sY ny nx); [|reflexivity].
  specialize (Hb eq_refl).
  rewrite !(get_agree bound _ d d' A) by lra. reflexivity.
Qed.

Lemma sampleNeighbourhood_agree (bound : Q) (w : Z) (sY sampleY x : Q)
    (d d' : list Z) :
  agreeBelow bound d d' →
  (∀ dy dx, dy ∈ offsets → dx ∈ offsets →
     guard w sY (sampleY + inject_Z dy) (x + inject_Z dx) = true →
     ((sampleY + inject_Z dy) * inject_Z w + (x + inject_Z dx)) * 4 + 2
     < bound) →
  sampleNeighbourhood w sY d sampleY x = sampleNeighbourhood w sY d' sampleY x.
Proof.
  intros A Hb. unfold sampleNeighbourhood, offsets. simpl foldl.
  repeat match goal with
  | |- sampleStep _ _ d ?ny ?nx ?a = sampleStep _ _ d' ?ny ?nx ?a' =>
      transitivity (sampleStep w sY d' ny nx a);
      [apply (sampleStep_agree bound); [exact A|];
       apply Hb; unfold offsets; rewrite !elem_of_cons; auto
      | f_equal]
  end.
Qed.

(** Run over offsets of the rectangle, in any order and any number of
    times, the in-place filler computes what the two-buffer filler does. *)
Lemma fillInOrder_pure (w h : Z) (order : list (nat * nat)) (data : list Z) :
  (0 <= w)%Z → (0 <= h)%Z → Forall (inRect w h) order →
  fillInOrder w h order data = fillRegionPure w h order data.
Proof.
  intros Hw Hh Hin. unfold fillInOrder, fillRegionPure.
  assert (G : ∀ cur, agreeBelow (writeBase w h) data cur →
    foldl (λ d ij, fillPixel w (startY h) (coordX w ij.2) (coordY h ij.1) d)
      cur order =
    foldl (λ out ij, fillPixelFrom w (startY h) data
                       (coordX w ij.2) (coordY h ij.1) out) cur order).
  2:{ apply G, agreeBelow_refl. }
  induction Hin as [|[i j] order [Hi Hj] Hin IH]; intros cur A; [reflexivity|].
  simpl in Hi, Hj. simpl foldl.
  assert (S : sampleNeighbourhood w (startY h) cur
                (sampleRow (startY h) (coordY h i)) (coordX w j) =
              sampleNeighbourhood w (startY h) data
                (sampleRow (startY h) (coordY h i)) (coordX w j)).
  { symmetry. apply (sampleNeighbourhood_agree (writeBase w h)); [exact A|].
    intros dy dx Hdy Hdx Hg. apply guard_true in Hg as [[? ?] [? ?]].
    now apply read_before_write. }
  assert (F : fillPixel w (startY h) (coordX w j) (coordY h i) cur =
              fillPixelFrom w (startY h) data (coordX w j) (coordY h i) cur).
  { unfold fillPixel, fillPixelFrom. now rewrite S. }
  rewrite F. apply IH.
  eapply agreeBelow_trans; [exact A|].
  unfold fillPixelFrom.
  destruct (Qle_bool _ _); [|apply agreeBelow_refl].
  destruct (0 <? _)%Z; [|apply agreeBelow_refl].
  apply writePixel_agree. now apply write_at_or_after_base.
Qed.

(** *** Writes of different pixels do not overlap *)

Lemma set_writePixel (d : list Z) (idx q : Q) (acc : Acc) (v : number) :
  q < idx ∨ idx + 3 < q →
  set (writePixel d idx acc) q v = writePixel (set d q v) idx acc.
Proof.
  intros Hq. unfold writePixel.
  rewrite (set_commute _ (idx + 3) q) by (intros E; lra).
  rewrite (set_commute _ (idx + 2) q) by (intros E; lra).
  rewrite (set_commute _ (idx + 1) q) by (intros E; lra).
  rewrite (set_commute _ idx q) by (intros E; lra).
  reflexivity.
Qed.

Lemma writePixel_commute (d : list Z) (idx idx' : Q) (acc acc' : Acc) :
  idx + 4 <= idx' ∨ idx' + 4 <= idx →
  writePixel (writePixel d idx acc) idx' acc' =
  writePixel (writePixel d idx' acc') idx acc.
Proof.
  intros Hq. unfold writePixel at 1.
  rewrite (set_writePixel _ idx idx') by lra.
  rewrite (set_writePixel _ idx (idx' + 1)) by lra.
  rewrite (set_writePixel _ idx (idx' + 2)) by lra.
  rewrite (set_writePixel _ idx (idx' + 3)) by lra.
  reflexivity.
Qed.

Lemma rectCols_lt (w : Z) (j : nat) :
  (0 <= w)%Z → (j < rectCols w)%nat → (4 * Z.of_nat j < w)%Z.
Proof.
  intros Hw Hj. apply loopFuel_lt in Hj.
  destruct (watermarkWidth_bounds w Hw) as (_ & _ & Hw25).
  unfold startX in Hj. rewrite Zlt_Qlt, inject_Z_mult.
  change (inject_Z 4) with 4. lra.
Qed.

Lemma pixel_keys_apart (w h : Z) (i j i' j' : nat) :
  (0 <= w)%Z → (j < rectCols w)%nat → (j' < rectCols w)%nat →
  (i, j) ≠ (i', j') →
  let idx := (coordY h i * inject_Z w + coordX w j) * 4 in
  let idx' := (coordY h i' * inject_Z w + coordX w j') * 4 in
  idx + 4 <= idx' ∨ idx' + 4 <= idx.
Proof.
  intros Hw Hj Hj' Hne idx idx'.
  apply rectCols_lt in Hj, Hj'; try assumption.
  set (m := ((Z.of_nat i' - Z.of_nat i) * w +
             (Z.of_nat j' - Z.of_nat j))%Z).
  assert (E : idx' - idx == 4 * inject_Z m).
  { subst idx idx' m. unfold coordX, coordY.
    rewrite inject_Z_plus, inject_Z_mult, !inject_Z_minus. ring. }
  assert (Hm : (1 <= m ∨ m <= -1)%Z).
  { assert (m ≠ 0%Z); [|lia]. subst m. intros E0.
    assert (Z.of_nat i' = Z.of_nat i) by nia.
    assert (Z.of_nat j' = Z.of_nat j) by nia.
    apply Hne. f_equal; lia. }
  destruct Hm as [Hm|Hm]; rewrite Zle_Qle in Hm;
    [change (inject_Z 1) with 1 in Hm | change (inject_Z (-1)) with (-1) in Hm];
    [left|right]; lra.
Qed.

Lemma fillPixelFrom_commute (w h : Z) (src : list Z) (a b : nat * nat)
    (d : list Z) :
  (0 <= w)%Z → inRect w h a → inRect w h b →
  fillPixelFrom w (startY h) src (coordX w b.2) (coordY h b.1)
    (fillPixelFrom w (startY h) src (coordX w a.2) (coordY h a.1) d) =
  fillPixelFrom w (startY h) src (coordX w a.2) (coordY h a.1)
    (fillPixelFrom w (startY h) src (coordX w b.2) (coordY h b.1) d).
Proof.
  intros Hw [_ Ha] [_ Hb].
  destruct (decide (a = b)) as [->|Hne]; [reflexivity|].
  destruct a as [i j], b as [i' j']. simpl in *.
  pose proof (pixel_keys_apart w h i j i' j' Hw Ha Hb Hne) as K.
  unfold fillPixelFrom.
  destruct (Qle_bool 0 (sampleRow (startY h) (coordY h i))); [|reflexivity].
  destruct (Qle_bool 0 (sampleRow (startY h) (coordY h i'))); [|reflexivity].
  destruct (0 <? count _)%Z; [|reflexivity].
  destruct (0 <? count _)%Z; [|reflexivity].
  now apply writePixel_commute.
Qed.

Lemma foldl_Permutation {A B : Type} (f : A → B → A) (P : B → Prop) :
  (∀ a x y, P x → P y → f (f a x) y = f (f a y) x) →
  ∀ l l', l ≡ₚ l' → Forall P l → ∀ a, foldl f a l = foldl f a l'.
Proof.
  intros C l l' Hp. induction Hp as [|x l l' Hp IH|x y l|l l' l'' H1 IH1 H2 IH2];
    intros HP a; simpl.
  - reflexivity.
  - apply IH. now apply Forall_cons in HP.
  - apply Forall_cons in HP as [Hy HP]. apply Forall_cons in HP as [Hx HP].
    now rewrite (C a y x).
  - rewrite IH1 by assumption. apply IH2. now rewrite <- H1.
Qed.

Lemma rectOffsets_inRect (w h : Z) : Forall (inRect w h) (rectOffsets w h).
Proof.
  apply Forall_forall. intros [i j] Hin. unfold rectOffsets in Hin.
  apply list_elem_of_bind in Hin as (i' & Hin & Hi).
  apply list_elem_of_fmap in Hin as (j' & [= -> ->] & Hj).
  apply elem_of_seq in Hi, Hj. split; simpl; lia.
Qed.

(** The two-buffer filler does not depend on the order of the pixels. *)
Lemma fillRegionPure_order (w h : Z) (order : list (nat * nat))
    (data : list Z) :
  (0 <= w)%Z → order ≡ₚ rectOffsets w h →
  fillRegionPure w h order data = fillRegionPure w h (rectOffsets w h) data.
Proof.
  intros Hw Hp. unfold fillRegionPure. symmetry.
  apply (foldl_Permutation _ (inRect w h)).
  - intros d a b Ha Hb. now apply fillPixelFrom_commute.
  - now symmetry.
  - apply rectOffsets_inRect.
Qed.

(** *** What a pixel write leaves in the buffer *)

Lemma length_writePixel (d : list Z) (idx : Q) (acc : Acc) :
  length (writePixel d idx acc) = length d.
Proof. unfold writePixel. now rewrite !length_set. Qed.

Lemma length_fillPixelFrom (w : Z) (sY : Q) (src : list Z) (x y : Q)
    (dst : list Z) :
  length (fillPixelFrom w sY src x y dst) = length dst.
Proof.
  unfold fillPixelFrom. destruct (Qle_bool _ _); [|reflexivity].
  destruct (0 <? _)%Z; [apply length_writePixel | reflexivity].
Qed.

Lemma length_fillRegionPure (w h : Z) (order : list (nat * nat))
    (input : list Z) :
  length (fillRegionPure w h order input) = length input.
Proof.
  unfold fillRegionPure. generalize input at 2 3.
  induction order as [|a order IH]; intros out; simpl; [reflexivity|].
  now rewrite IH, length_fillPixelFrom.
Qed.

Lemma lookup_writePixel (d : list Z) (idx : Q) (acc : Acc) (p : nat) :
  idx == inject_Z (Z.of_nat p) → (p + 3 < length d)%nat →
  writePixel d idx acc !! p =
    Some (toUint8Clamp (divCount (r acc) (count acc))) ∧
  writePixel d idx acc !! S p =
    Some (toUint8Clamp (divCount (g acc) (count acc))) ∧
  writePixel d idx acc !! S (S p) =
    Some (toUint8Clamp (divCount (b acc) (count acc))) ∧
  writePixel d idx acc !! S (S (S p)) = Some 255%Z.
Proof.
  intros E Hp. unfold writePixel.
  assert (K : ∀ (c : nat) (n : Z), n = Z.of_nat c → (c <= 3)%nat →
    ∀ len, len = length d →
      arrayIndex len (idx + inject_Z n) = Some (p + c)%nat).
  { intros c n -> Hc len ->. apply arrayIndex_Some. split; [|lia].
    rewrite E, <- inject_Z_plus. apply inject_Z_injective. lia. }
  assert (N : ∀ (c c' : nat) (n : Z), n = Z.of_nat c → (c <= 3)%nat →
    c ≠ c' → ∀ len, len = length d →
      arrayIndex len (idx + inject_Z n) ≠ Some (p + c')%nat).
  { intros c c' n Hn Hc Hne len Hl. rewrite (K c n Hn Hc len Hl).
    intros [= ?]. lia. }
  assert (E0 : idx == idx + inject_Z 0) by (change (inject_Z 0) with 0; ring).
  replace (S (S (S p))) with (p + 3)%nat by lia.
  replace (S (S p)) with (p + 2)%nat by lia.
  replace (S p) with (p + 1)%nat by lia.
  replace p with (p + 0)%nat at 1 by lia.
  rewrite (set_key_eq d idx _ _ E0).
  change (idx + 1) with (idx + inject_Z 1).
  change (idx + 2) with (idx + inject_Z 2).
  change (idx + 3) with (idx + inject_Z 3).
  rewrite !lookup_set, !length_set.
  repeat split;
    repeat match goal with
    | |- context [decide (arrayIndex ?len (idx + inject_Z ?n) = Some (p + ?c)%nat)] =>
        let Y := fresh "Y" in
        destruct (decide (arrayIndex len (idx + inject_Z n) = Some (p + c)%nat))
          as [Y|Y];
        [ try (exfalso; revert Y;
               apply (N (Z.to_nat n) c n); [done|simpl; lia|simpl; lia|done])
        | try (exfalso; apply Y;
               apply (K (Z.to_nat n) n); [done|simpl; lia|done]) ]
    end; reflexivity.
Qed.

(** For a mean of bytes the clamped store is rounding to nearest-even. *)
Lemma toUint8Clamp_round (q : Q) :
  0 <= q <= 255 → toUint8Clamp (Some q) = roundHalfEven q.
Proof.
  intros [L U]. unfold toUint8Clamp, roundHalfEven.
  assert (C : Qmin (Qmax q 0) 255 == q).
  { rewrite Q.max_l by exact L. now rewrite Q.min_l. }
  rewrite (Qfloor_comp _ _ C).
  rewrite (Qltb_comp _ _ C _ _ (Qeq_refl _)).
  rewrite (Qltb_comp _ _ (Qeq_refl (inject_Z (Qfloor q) + 0.5)) _ _ C).
  destruct (Qltb q (inject_Z (Qfloor q) + 0.5)) eqn:E1;
    destruct (Qltb (q - inject_Z (Qfloor q)) 0.5) eqn:E1';
    Qltb_prop E1; Qltb_prop E1'; try lra; try reflexivity.
  destruct (Qltb (inject_Z (Qfloor q) + 0.5) q) eqn:E2;
    destruct (Qltb 0.5 (q - inject_Z (Qfloor q))) eqn:E2';
    Qltb_prop E2; Qltb_prop E2'; try lra; reflexivity.
Qed.

Lemma toUint8Clamp_comp (q q' : Q) :
  q == q' → toUint8Clamp (Some q) = toUint8Clamp (Some q').
Proof.
  intros E. unfold toUint8Clamp.
  assert (C : Qmin (Qmax q 0) 255 == Qmin (Qmax q' 0) 255) by now rewrite E.
  rewrite (Qfloor_comp _ _ C).
  rewrite (Qltb_comp _ _ C _ _ (Qeq_refl _)).
  now rewrite (Qltb_comp _ _ (Qeq_refl _) _ _ C).
Qed.

Lemma inRect_elem (w h : Z) (ij : nat * nat) :
  inRect w h ij → ij ∈ rectOffsets w h.
Proof.
  destruct ij as [i j]. intros [Hi Hj]. simpl in *. unfold rectOffsets.
  apply list_elem_of_bind. exists i. split.
  - apply list_elem_of_fmap. exists j. split; [reflexivity|].
    apply elem_of_seq. lia.
  - apply elem_of_seq. lia.
Qed.

(** The pass can be reordered so that a given pixel comes last. *)
Lemma fillRegionPure_last (w h : Z) (ij : nat * nat) (data : list Z) :
  (0 <= w)%Z → inRect w h ij →
  ∃ out, length out = length data ∧
    fillRegionPure w h (rectOffsets w h) data =
    fillPixelFrom w (startY h) data (coordX w ij.2) (coordY h ij.1) out.
Proof.
  intros Hw Hin. apply inRect_elem in Hin.
  apply list_elem_of_split in Hin as (l1 & l2 & E).
  exists (fillRegionPure w h (l1 ++ l2) data). split.
  - apply length_fillRegionPure.
  - rewrite <- (fillRegionPure_order w h ((l1 ++ l2) ++ [ij])); [|exact Hw|].
    + unfold fillRegionPure. now rewrite foldl_snoc.
    + rewrite E. rewrite <- app_assoc.
      apply Permutation_app_head. symmetry. apply Permutation_cons_append.
Qed.

(** *** Rectangles with integer corners *)

Lemma isInteger_floor (q : Q) : isInteger q = true → q == inject_Z (Qfloor q).
Proof. unfold isInteger. intros E. apply Qeq_bool_eq in E. now symmetry. Qed.

Section IntegerRectangle.
Variables (w h : Z) (data : list Z).
Hypothesis Hw : (0 < w)%Z.
Hypothesis Hh : (0 < h)%Z.
Hypothesis Hint : integerRect w h = true.
Hypothesis Hlen : length data = Z.to_nat (4 * w * h).

Lemma startX_int : startX w == inject_Z (rectLeft w).
Proof.
  unfold integerRect in Hint. apply andb_true_iff in Hint as [E _].
  now apply isInteger_floor.
Qed.

Lemma startY_int : startY h == inject_Z (rectTop h).
Proof.
  unfold integerRect in Hint. apply andb_true_iff in Hint as [_ E].
  now apply isInteger_floor.
Qed.

Lemma rectTop_bounds : (0 < rectTop h <= h)%Z ∧ (20 * (h - rectTop h) <= 3 * h)%Z.
Proof using Hh Hint.
  clear Hlen Hw.
  pose proof startY_int as E. unfold startY in E.
  destruct (watermarkHeight_bounds h ltac:(lia)) as (H0 & _ & H15).
  assert (Hq : 0 < inject_Z h)
    by (change 0 with (inject_Z 0); apply Qlt_inject; lia).
  repeat split.
  - apply Qlt_inject. change (inject_Z 0) with 0. lra.
  - apply Qle_inject. lra.
  - apply Qle_inject. rewrite !inject_Z_mult, inject_Z_minus.
    change (inject_Z 20) with 20. change (inject_Z 3) with 3. lra.
Qed.

Lemma rectLeft_bounds : (0 < rectLeft w <= w)%Z.
Proof using Hw Hint.
  clear Hlen Hh.
  pose proof startX_int as E. unfold startX in E.
  destruct (watermarkWidth_bounds w ltac:(lia)) as (H0 & _ & H25).
  assert (Hq : 0 < inject_Z w)
    by (change 0 with (inject_Z 0); apply Qlt_inject; lia).
  split.
  - apply Qlt_inject. change (inject_Z 0) with 0. lra.
  - apply Qle_inject. lra.
Qed.

Lemma guard_qualifies (ny nx : Q) (nyz nxz : Z) :
  ny == inject_Z nyz → nx == inject_Z nxz →
  guard w (startY h) ny nx = true ↔ qualifies w (rectTop h) (nxz, nyz).
Proof.
  intros Ey Ex. rewrite guard_true. unfold qualifies. simpl.
  pose proof startY_int as E.
  rewrite <- !Qle_inject, <- !Qlt_inject. change (inject_Z 0) with 0.
  split; intros [[? ?] [? ?]]; repeat split; lra.
Qed.

Lemma get_int (q : Q) (k : Z) :
  q == inject_Z k → (0 <= k < 4 * w * h)%Z →
  get data q = data !! Z.to_nat k ∧ is_Some (data !! Z.to_nat k).
Proof.
  intros E Hk. unfold get.
  assert (A : arrayIndex (length data) q = Some (Z.to_nat k)).
  { apply arrayIndex_Some. rewrite Z2Nat.id by lia. split; [exact E|lia]. }
  rewrite A. simpl. split; [reflexivity|].
  apply lookup_lt_is_Some. lia.
Qed.

Lemma sampleStep_spec (ny nx : Q) (nyz nxz : Z) (acc : Acc)
    (sr sg sb n : Z) :
  ny == inject_Z nyz → nx == inject_Z nxz → accIs acc sr sg sb n →
  let q := bool_decide (qualifies w (rectTop h) (nxz, nyz)) in
  accIs (sampleStep w (startY h) data ny nx acc)
    (if q then sr + byteAt w data 0 (nxz, nyz) else sr)%Z
    (if q then sg + byteAt w data 1 (nxz, nyz) else sg)%Z
    (if q then sb + byteAt w data 2 (nxz, nyz) else sb)%Z
    (if q then n + 1 else n)%Z.
Proof.
  intros Ey Ex A q. unfold sampleStep.
  pose proof (guard_qualifies ny nx nyz nxz Ey Ex) as G.
  subst q. destruct (guard w (startY h) ny nx).
  2:{ rewrite bool_decide_eq_false_2; [exact A|].
      intros Q. apply G in Q. discriminate. }
  assert (Q : qualifies w (rectTop h) (nxz, nyz)) by now apply G.
  rewrite bool_decide_eq_true_2 by exact Q.
  destruct Q as [Qy Qx]. simpl in Qy, Qx.
  destruct rectTop_bounds as [Ht _].
  destruct A as ((qr & Er & Hr) & (qg & Eg & Hg) & (qb & Eb & Hb) & Hn).
  assert (Hk : (0 <= 4 * (nyz * w + nxz) ∧
                4 * (nyz * w + nxz) + 3 < 4 * w * h)%Z) by nia.
  assert (K : ∀ c : Z, (0 <= c <= 3)%Z →
    (ny * inject_Z w + nx) * 4 + inject_Z c ==
    inject_Z (4 * (nyz * w + nxz) + c)).
  { intros c _. rewrite Ey, Ex.
    rewrite !inject_Z_plus, !inject_Z_mult, inject_Z_plus, inject_Z_mult.
    change (inject_Z 4) with 4. ring. }
  assert (B : ∀ (c : Z) key, (0 <= c <= 3)%Z →
    key == (ny * inject_Z w + nx) * 4 + inject_Z c →
    get data key = Some (byteAt w data c (nxz, nyz))).
  { intros c key Hc Ek. rewrite Ek in *.
    destruct (get_int _ _ (K c Hc)) as [-> [v Ev]]; [lia|].
    unfold byteAt. simpl. now rewrite Ev. }
  rewrite (B 0%Z) by (try lia; change (inject_Z 0) with 0; ring).
  rewrite (B 1%Z) by (try lia; change (inject_Z 1) with 1; ring).
  rewrite (B 2%Z) by (try lia; change (inject_Z 2) with 2; ring).
  rewrite Er, Eg, Eb. simpl. unfold accIs. simpl.
  repeat split; try (eexists; split; [reflexivity|]);
    rewrite ?inject_Z_plus; try lra. lia.
Qed.

Lemma accIs_ext (acc : Acc) (sr sr' sg sg' sb sb' n n' : Z) :
  sr = sr' → sg = sg' → sb = sb' → n = n' →
  accIs acc sr sg sb n → accIs acc sr' sg' sb' n'.
Proof. now intros -> -> -> ->. Qed.

Lemma foldl_sampleStep_spec (cs : list (Z * Z)) :
  ∀ (acc : Acc) (sr sg sb n : Z),
    accIs acc sr sg sb n →
    let ns := filter (qualifies w (rectTop h)) cs in
    accIs (foldl (λ acc c, sampleStep w (startY h) data
                             (inject_Z c.2) (inject_Z c.1) acc) acc cs)
      (sr + channelSum w data 0 ns) (sg + channelSum w data 1 ns)
      (sb + channelSum w data 2 ns) (n + Z.of_nat (length ns)).
Proof.
  induction cs as [|[nxz nyz] cs IH]; intros acc sr sg sb n A ns.
  - subst ns. simpl. eapply accIs_ext; [..|exact A]; lia.
  - simpl foldl.
    pose proof (sampleStep_spec (inject_Z nyz) (inject_Z nxz) nyz nxz acc
                  sr sg sb n (Qeq_refl _) (Qeq_refl _) A) as St.
    cbv zeta in St. subst ns.
    destruct (decide (qualifies w (rectTop h) (nxz, nyz))) as [q|q].
    + rewrite (bool_decide_eq_true_2 _ q) in St. apply IH in St.
      rewrite filter_cons_True by exact q. simpl.
      eapply accIs_ext; [..|exact St]; lia.
    + rewrite (bool_decide_eq_false_2 _ q) in St. apply IH in St.
      rewrite filter_cons_False by exact q.
      exact St.
Qed.

Lemma sampleNeighbourhood_spec (sampleY x : Q) (row xz : Z) :
  sampleY == inject_Z row → x == inject_Z xz →
  let ns := filter (qualifies w (rectTop h)) (candidates xz row) in
  accIs (sampleNeighbourhood w (startY h) data sampleY x)
    (channelSum w data 0 ns) (channelSum w data 1 ns)
    (channelSum w data 2 ns) (Z.of_nat (length ns)).
Proof.
  intros Ey Ex ns.
  assert (A0 : accIs acc0 0 0 0 0).
  { unfold accIs, acc0. simpl.
    repeat split; try (eexists; split; [reflexivity|reflexivity]). }
  pose proof (foldl_sampleStep_spec (candidates xz row) acc0 0 0 0 0 A0) as F.
  simpl in F. fold ns in F.
  replace (sampleNeighbourhood w (startY h) data sampleY x)
    with (foldl (λ acc c, sampleStep w (startY h) data
                            (inject_Z c.2) (inject_Z c.1) acc)
            acc0 (candidates xz row)); [exact F|].
  unfold sampleNeighbourhood, candidates, offsets. simpl.
  repeat match goal with
  | |- sampleStep _ _ _ ?ny ?nx ?a = sampleStep _ _ _ ?ny' ?nx' ?a' =>
      transitivity (sampleStep w (startY h) data ny' nx' a);
      [apply sampleStep_comp;
       rewrite ?Ey, ?Ex, ?inject_Z_plus; reflexivity
      | f_equal]
  end.
Qed.

(** *** A pixel of the rectangle and its offsets *)

Variables (x y : Z).
Hypothesis Hx : (rectLeft w <= x < w)%Z.
Hypothesis Hy : (rectTop h <= y < h)%Z.

Let i : nat := Z.to_nat (y - rectTop h).
Let j : nat := Z.to_nat (x - rectLeft w).

Lemma coordX_int : coordX w j == inject_Z x.
Proof.
  unfold coordX, j. rewrite startX_int, Z2Nat.id by lia.
  rewrite inject_Z_minus. ring.
Qed.

Lemma coordY_int : coordY h i == inject_Z y.
Proof.
  unfold coordY, i. rewrite startY_int, Z2Nat.id by lia.
  rewrite inject_Z_minus. ring.
Qed.

Lemma pixel_inRect : inRect w h (i, j).
Proof.
  split; simpl; apply loopFuel_gt.
  - fold (coordY h i). rewrite coordY_int. apply Qlt_inject. lia.
  - fold (coordX w j). rewrite coordX_int. apply Qlt_inject. lia.
Qed.

Lemma sampleRow_int :
  sampleRow (startY h) (coordY h i) == inject_Z (sourceRow (rectTop h) y).
Proof.
  unfold sampleRow, sourceRow. rewrite coordY_int, startY_int.
  set (e := (rectTop h - (y - rectTop h) - 1)%Z).
  assert (E : inject_Z (rectTop h) - (inject_Z y - inject_Z (rectTop h)) - 1
              == inject_Z e)
    by (subst e; rewrite !inject_Z_minus; reflexivity).
  rewrite E.
  destruct (Z.max_spec 0 e) as [[L ->]|[L ->]].
  - rewrite Q.max_r; [reflexivity|].
    change 0 with (inject_Z 0). apply Qle_inject. lia.
  - rewrite Q.max_l; [reflexivity|].
    change 0 with (inject_Z 0). apply Qle_inject. lia.
Qed.

(** The mirrored row is a row above the rectangle, and the pixel right
    above it on that row always qualifies. *)
Lemma centre_qualifies :
  (x, sourceRow (rectTop h) y) ∈ neighbours w (rectTop h) x y.
Proof.
  destruct rectTop_bounds as [Ht Hs].
  destruct rectLeft_bounds as [Hl _].
  unfold neighbours. apply list_elem_of_filter. split.
  - unfold qualifies, sourceRow. simpl. lia.
  - unfold candidates, offsets. simpl.
    replace x with (x + 0)%Z at 1 by lia.
    replace (sourceRow (rectTop h) y) with (sourceRow (rectTop h) y + 0)%Z
      at 1 by lia.
    rewrite !elem_of_cons. auto 10.
Qed.

Hypothesis Hbytes : Forall (λ v, (0 <= v <= 255)%Z) data.

Lemma byteAt_range (c : Z) (n : Z * Z) : (0 <= byteAt w data c n <= 255)%Z.
Proof.
  unfold byteAt. destruct (data !! _) as [v|] eqn:E; simpl; [|lia].
  exact (proj1 (Forall_lookup _ _) Hbytes _ _ E).
Qed.

Lemma channelSum_range (c : Z) (ns : list (Z * Z)) :
  (0 <= channelSum w data c ns <= 255 * Z.of_nat (length ns))%Z.
Proof.
  induction ns as [|n ns IH]; simpl; [lia|].
  pose proof (byteAt_range c n). lia.
Qed.

Lemma stored_mean (q : Q) (s : Z) (ns : list (Z * Z)) (c : Z) :
  q == inject_Z s → s = channelSum w data c ns → (0 < length ns)%nat →
  toUint8Clamp (divCount (Some q) (Z.of_nat (length ns))) =
  roundedMean s (length ns).
Proof.
  intros E -> Hn. unfold roundedMean.
  set (n := Z.of_nat (length ns)).
  change (divCount (Some q) n) with (Some (q / inject_Z n)).
  assert (Hq : 0 < inject_Z n)
    by (change 0 with (inject_Z 0); apply Qlt_inject; lia).
  rewrite (toUint8Clamp_comp _ (inject_Z (channelSum w data c ns) / inject_Z n))
    by now rewrite E.
  apply toUint8Clamp_round.
  pose proof (channelSum_range c ns) as [L U]. fold n in U.
  apply Qle_inject in L, U. rewrite inject_Z_mult in U.
  change (inject_Z 0) with 0 in L. change (inject_Z 255) with 255 in U.
  split.
  - apply Qle_shift_div_l; [exact Hq|lra].
  - apply Qle_shift_div_r; [exact Hq|lra].
Qed.

(** Every pixel of the rectangle ends as the rounded mean of the
    input's qualifying neighbours, fully opaque. *)
Lemma filled_pixel :
  pixelAt w (fillRegion w h data) x y =
  filledPixel roundedMean w (rectTop h) data x y.
Proof.
  rewrite fillRegion_inOrder.
  rewrite fillInOrder_pure by (try lia; apply rectOffsets_inRect).
  destruct (fillRegionPure_last w h (i, j) data ltac:(lia) pixel_inRect)
    as (out & Hl & ->).
  unfold fillPixelFrom. cbn [fst snd].
  assert (S0 : Qle_bool 0 (sampleRow (startY h) (coordY h i)) = true)
    by (apply Qle_bool_iff, Q.le_max_l).
  rewrite S0.
  pose proof (sampleNeighbourhood_spec _ _ _ _ sampleRow_int coordX_int) as A.
  cbv zeta in A. fold (neighbours w (rectTop h) x y) in A.
  set (ns := neighbours w (rectTop h) x y) in *.
  assert (Hn : (0 < length ns)%nat).
  { pose proof centre_qualifies as Hc. fold ns in Hc.
    destruct ns; [now apply elem_of_nil in Hc | simpl; lia]. }
  destruct A as ((qr & Er & Hr) & (qg & Eg & Hg) & (qb & Eb & Hb) & Hc).
  rewrite Hc.
  replace (0 <? Z.of_nat (length ns))%Z with true
    by (symmetry; apply Z.ltb_lt; lia).
  set (acc := sampleNeighbourhood _ _ _ _ _) in *.
  destruct rectTop_bounds as [Ht _]. destruct rectLeft_bounds as [Hlft _].
  set (p := Z.to_nat (4 * (y * w + x))).
  destruct (lookup_writePixel out
              ((coordY h i * inject_Z w + coordX w j) * 4) acc p)
    as (P0 & P1 & P2 & P3).
  { rewrite coordY_int, coordX_int. subst p. rewrite Z2Nat.id by nia.
    rewrite inject_Z_mult, inject_Z_plus, inject_Z_mult.
    change (inject_Z 4) with 4. ring. }
  { rewrite Hl, Hlen. subst p. nia. }
  unfold pixelAt, filledPixel. fold p. fold ns.
  rewrite P0, P1, P2, P3, Er, Eg, Eb, Hc.
  rewrite (stored_mean qr _ ns 0 Hr eq_refl Hn).
  rewrite (stored_mean qg _ ns 1 Hg eq_refl Hn).
  rewrite (stored_mean qb _ ns 2 Hb eq_refl Hn).
  reflexivity.
Qed.

End IntegerRectangle.

(** *** With integer corners only the rectangle is written *)

Lemma lookup_writePixel_other (d : list Z) (idx : Q) (acc : Acc) (p : nat) :
  inject_Z (Z.of_nat p) < idx ∨ idx + 3 < inject_Z (Z.of_nat p) →
  writePixel d idx acc !! p = d !! p.
Proof.
  intros Hp. unfold writePixel. rewrite !lookup_set, !length_set.
  repeat match goal with
  | |- context [decide (arrayIndex ?len ?q = Some p)] =>
      destruct (decide (arrayIndex len q = Some p)) as [Y|_];
      [apply arrayIndex_Some in Y as [Y _]; exfalso; lra|]
  end.
  reflexivity.
Qed.

Lemma lookup_fillRegionPure_other (w h : Z) (order : list (nat * nat))
    (data : list Z) (p : nat) :
  Forall (λ ij,
    let idx := (coordY h ij.1 * inject_Z w + coordX w ij.2) * 4 in
    inject_Z (Z.of_nat p) < idx ∨ idx + 3 < inject_Z (Z.of_nat p)) order →
  fillRegionPure w h order data !! p = data !! p.
Proof.
  intros Hall. unfold fillRegionPure. generalize data at 2 3.
  induction Hall as [|ij order Hij Hall IH]; intros out; [reflexivity|].
  simpl. rewrite IH. unfold fillPixelFrom.
  destruct (Qle_bool _ _); [|reflexivity].
  destruct (0 <? _)%Z; [|reflexivity].
  now apply lookup_writePixel_other.
Qed.

(** When the corners of the rectangle are integers, every pixel of the
    image that is not in the rectangle keeps its four bytes. *)
Lemma frame_outside_rectangle (w h : Z) (data : list Z) (x y : Z) :
  (0 < w)%Z → (0 < h)%Z → integerRect w h = true →
  (0 <= x < w)%Z → (0 <= y < h)%Z →
  ¬ ((rectLeft w <= x)%Z ∧ (rectTop h <= y)%Z) →
  pixelAt w (fillRegion w h data) x y = pixelAt w data x y.
Proof.
  intros Hw Hh Hint Hx Hy Hout.
  rewrite fillRegion_inOrder.
  rewrite fillInOrder_pure by (try lia; apply rectOffsets_inRect).
  pose proof (startX_int w h Hint) as Ex.
  pose proof (startY_int w h Hint) as Ey.
  destruct (rectTop_bounds w h Hh Hint) as [Ht _].
  destruct (rectLeft_bounds w h Hw Hint) as [Hl _].
  assert (K : ∀ c : nat, (c <= 3)%nat →
    fillRegionPure w h (rectOffsets w h) data
      !! (Z.to_nat (4 * (y * w + x)) + c)%nat =
    data !! (Z.to_nat (4 * (y * w + x)) + c)%nat).
  { intros c Hc. apply lookup_fillRegionPure_other.
    apply Forall_forall. intros [i j] Hij.
    destruct (proj1 (Forall_forall _ _) (rectOffsets_inRect w h) _ Hij)
      as [_ Hj].
    apply rectCols_lt in Hj; [|lia]. cbn [fst snd].
    set (X := (rectLeft w + Z.of_nat j)%Z).
    set (Y := (rectTop h + Z.of_nat i)%Z).
    assert (E : (coordY h i * inject_Z w + coordX w j) * 4
                == inject_Z (4 * (Y * w + X))).
    { unfold coordX, coordY, X, Y. rewrite Ex, Ey.
      rewrite inject_Z_mult, inject_Z_plus, inject_Z_mult, !inject_Z_plus.
      change (inject_Z 4) with 4. ring. }
    assert (HX : (X < w)%Z).
    { apply Qlt_inject. unfold X. rewrite inject_Z_plus, <- Ex.
      pose proof (proj1 (Forall_forall _ _) (rectOffsets_inRect w h) _ Hij)
        as [_ Hj']. now apply loopFuel_lt in Hj'. }
    assert (D : (4 * (y * w + x) + Z.of_nat c < 4 * (Y * w + X) ∨
                 4 * (Y * w + X) + 3 < 4 * (y * w + x) + Z.of_nat c)%Z).
    { assert (y * w + x ≠ Y * w + X)%Z; [|lia].
      intros Eq. apply Hout.
      assert (y = Y) by (unfold X in *; nia).
      assert (x = X) by nia. unfold X, Y in *. lia. }
    rewrite E. rewrite Nat2Z.inj_add, Z2Nat.id by nia.
    change 3 with (inject_Z 3). rewrite <- inject_Z_plus.
    destruct D as [D|D]; [left|right]; apply Qlt_inject; lia. }
  unfold pixelAt.
  pose proof (K 0%nat ltac:(lia)) as K0. pose proof (K 1%nat ltac:(lia)) as K1.
  pose proof (K 2%nat ltac:(lia)) as K2. pose proof (K 3%nat ltac:(lia)) as K3.
  rewrite Nat.add_0_r in K0.
  replace (_ + 1)%nat with (S (Z.to_nat (4 * (y * w + x)))) in K1 by lia.
  replace (_ + 2)%nat with (S (S (Z.to_nat (4 * (y * w + x))))) in K2 by lia.
  replace (_ + 3)%nat with (S (S (S (Z.to_nat (4 * (y * w + x)))))) in K3 by lia.
  now rewrite K0, K1, K2, K3.
Qed.

End LnwremoveFacts.

(** ** The region filler: the properties of the specification *)

Module LnwremoveSpec.
Import JS JSFacts Lnwremove LnwremoveFacts.

(** *** The rectangle, in the numbers of the code *)

Lemma allFrom_spec (f : Z → bool) (p : positive) (lo : Z) :
  Binary64.allFrom f p lo = true →
  ∀ z, (lo <= z < lo + Zpos p)%Z → f z = true.
Proof.
  revert lo. induction p as [q IH|q IH|]; intros lo H z Hz; cbn in H.
  - apply andb_true_iff in H as [H H2]. apply andb_true_iff in H as [H0 H1].
    rewrite Pos2Z.inj_xI in Hz.
    destruct (Z.eq_dec z lo) as [->|N]; [exact H0|].
    destruct (Z_lt_ge_dec z (lo + 1 + Zpos q)).
    + apply (IH (lo + 1)%Z H1). lia.
    + apply (IH (lo + 1 + Zpos q)%Z H2). lia.
  - apply andb_true_iff in H as [H1 H2]. rewrite Pos2Z.inj_xO in Hz.
    destruct (Z_lt_ge_dec z (lo + Zpos q)).
    + apply (IH lo H1). lia.
    + apply (IH (lo + Zpos q)%Z H2). lia.
  - replace z with lo by lia. exact H.
Qed.

Lemma of_Z_succ (z : Z) :
  PrimInt63.add (Uint63.of_Z z) Binary64.one = Uint63.of_Z (z + 1).
Proof.
  apply Uint63.to_Z_inj. rewrite Uint63.add_spec, !Uint63.of_Z_spec.
  change (Uint63.to_Z Binary64.one) with 1%Z.
  now rewrite Z.add_mod_idemp_l by (unfold Uint63.wB; simpl; lia).
Qed.

Lemma of_Z_sub (z c : Z) :
  PrimInt63.sub (Uint63.of_Z z) (Uint63.of_Z c) = Uint63.of_Z (z - c).
Proof.
  apply Uint63.to_Z_inj. rewrite Uint63.sub_spec, !Uint63.of_Z_spec.
  now rewrite <- Zminus_mod.
Qed.

Lemma iter_scan (f : PrimInt63.int → bool) (n : nat) (lo : Z) :
  let st := Nat.iter n (Binary64.scan f) (Uint63.of_Z lo, true) in
  fst st = Uint63.of_Z (lo + Z.of_nat n) ∧
  (snd st = true →
   ∀ k, (k < n)%nat → f (Uint63.of_Z (lo + Z.of_nat k)) = true).
Proof.
  induction n as [|n IH]; cbv zeta.
  - split; [now rewrite Z.add_0_r|]. intros _ k Hk. lia.
  - change (Nat.iter (S n) (Binary64.scan f) (Uint63.of_Z lo, true))
      with (Binary64.scan f
              (Nat.iter n (Binary64.scan f) (Uint63.of_Z lo, true))).
    cbv zeta in IH.
    destruct (Nat.iter n (Binary64.scan f) (Uint63.of_Z lo, true)) as [i ok].
    destruct IH as [IH1 IH2]. cbn [fst snd] in *.
    unfold Binary64.scan. cbn [fst snd]. split.
    + rewrite IH1, of_Z_succ. f_equal. lia.
    + intros H. apply andb_true_iff in H as [H1 H2]. intros k Hk.
      destruct (Nat.eq_dec k n) as [->|N].
      * now rewrite <- IH1.
      * apply IH2; [exact H1|lia].
Qed.

Lemma allFromInt_spec (f : PrimInt63.int → bool) (p : positive) (lo : Z) :
  Binary64.allFromInt f p (Uint63.of_Z lo) = true →
  ∀ z, (lo <= z < lo + Zpos p)%Z → f (Uint63.of_Z z) = true.
Proof.
  unfold Binary64.allFromInt. rewrite Pos2Nat.inj_iter. intros H z Hz.
  destruct (iter_scan f (Pos.to_nat p) lo) as [_ A].
  replace z with (lo + Z.of_nat (Z.to_nat (z - lo)))%Z by lia.
  apply (A H). lia.
Qed.

Lemma heights_in_image :
  Binary64.allFromInt Binary64.heightInImage Binary64.maxSide
    (Uint63.of_Z 1) = true.
Proof. vm_compute. reflexivity. Qed.

Lemma widths_in_image :
  Binary64.allFromInt Binary64.widthInImage Binary64.maxSide
    (Uint63.of_Z 1) = true.
Proof. vm_compute. reflexivity. Qed.

Lemma heights_rounded : Binary64.allFrom Binary64.heightRounded 666 1 = true.
Proof. vm_compute. reflexivity. Qed.

Lemma widths_exact : Binary64.allFrom Binary64.widthExact 599 1 = true.
Proof. vm_compute. reflexivity. Qed.

Lemma sideInImage_spec (cap : float) (capZ switch : Z)
    (dim start : float → float) (n : Z) :
  (0 <= n < Uint63.wB)%Z → (0 <= switch < Uint63.wB)%Z →
  Binary64.sideInImage cap (Uint63.of_Z capZ) (Uint63.of_Z switch) dim start
    (Uint63.of_Z n) = true →
  let N := Binary64.ofZ n in
  (Binary64.ltF 0 (dim N) ∧ Binary64.leF (dim N) cap ∧
   Binary64.leF (dim N) N ∧
   Binary64.leF 0 (start N) ∧ Binary64.ltF (start N) N) ∧
  ((switch <= n)%Z →
   Binary64.eqF (dim N) cap ∧
   Binary64.eqF (start N) (Binary64.ofZ (n - capZ))).
Proof.
  intros Hn Hs. unfold Binary64.sideInImage, Binary64.ofZ. cbv zeta. intros H.
  repeat (apply andb_true_iff in H as [H ?]).
  split; [now repeat split|]. intros L.
  match goal with
  | X : PrimInt63.ltb _ _ || _ = true |- _ =>
      apply orb_true_iff in X as [X|X];
      [apply Uint63.ltb_spec in X;
       rewrite !Uint63.of_Z_spec, !Z.mod_small in X by lia; lia|];
      apply andb_true_iff in X as [? ?]
  end.
  split; [assumption|]. unfold Binary64.eqF. now rewrite <- of_Z_sub.
Qed.

Lemma within_spec (a b eps : Q) :
  Binary64.within a b eps = true → b - eps <= a ∧ a <= b + eps.
Proof.
  unfold Binary64.within. intros H. apply andb_true_iff in H as [H1 H2].
  now apply Qle_bool_iff in H1, H2.
Qed.




(** C1.  On the 10 x 10 opaque black image the rectangle starts at
    (7.5, 8.5): the filler succeeds, keeps the dimensions, and turns
    pixel (3, 9), which lies outside the rectangle, from black to
    green. *)
Theorem fill_writes_outside_rectangle :
  wellFormed opaqueBlack10 ∧
  (2 <= width opaqueBlack10)%Z ∧ (2 <= height opaqueBlack10)%Z ∧
  outsideRect 10 10 3 9 ∧
  ∃ out, removeWatermark opaqueBlack10 = Some out ∧
    width out = 10%Z ∧ height out = 10%Z ∧
    pixelAt 10 (pixels opaqueBlack10) 3 9
      = [Some 0; Some 0; Some 0; Some 255]%Z ∧
    pixelAt 10 (pixels out) 3 9
      = [Some 0; Some 255; Some 0; Some 255]%Z.
Proof.
  split.
  { unfold wellFormed. split; [|split; [|split]];
      [vm_compute; congruence | vm_compute; congruence | reflexivity |].
    unfold opaqueBlack10, solid. simpl.
    repeat (apply Forall_cons; split; [lia|]). constructor. }
  split; [vm_compute; congruence|]. split; [vm_compute; congruence|].
  split; [left; vm_compute; congruence|].
  eexists. split; [vm_compute; reflexivity|].
  repeat split.
Qed.

(** C4.  On the 10 x 10 transparent image pixel (9, 9) lies inside the
    rectangle and has alpha 0 after the fill. *)
Theorem fill_leaves_alpha_in_rectangle :
  wellFormed transparent10 ∧
  (2 <= width transparent10)%Z ∧ (2 <= height transparent10)%Z ∧
  insideRect 10 10 9 9 ∧
  ∃ out, removeWatermark transparent10 = Some out ∧
    pixelAt 10 (pixels out) 9 9 = [Some 0; Some 0; Some 0; Some 0]%Z.
Proof.
  split.
  { unfold wellFormed. split; [|split; [|split]];
      [vm_compute; congruence | vm_compute; congruence | reflexivity |].
    unfold transparent10, solid. simpl.
    repeat (apply Forall_cons; split; [lia|]). constructor. }
  split; [vm_compute; congruence|]. split; [vm_compute; congruence|].
  split.
  { repeat split; try lia; vm_compute; congruence. }
  eexists. split; [vm_compute; reflexivity|]. reflexivity.
Qed.

Lemma speckled4x20_wellFormed : wellFormed speckled4x20.
Proof.
  unfold wellFormed. split; [|split; [|split]];
    [vm_compute; congruence | vm_compute; congruence | reflexivity |].
  apply Forall_forall. intros v Hv.
  apply list_elem_of_In in Hv. vm_compute in Hv.
  repeat (destruct Hv as [<-|Hv]; [lia|]). destruct Hv.
Qed.

(** C2, as stated.  On the 4 x 20 speckled image (rectangle: column 3,
    rows 17 to 19) the four neighbours of pixel (3, 17) have red 1, 1, 1
    and 0: the filler stores 1, the truncated mean is 0. *)
Lemma truncated_mean_refuted :
  wellFormed speckled4x20 ∧ integerRect 4 20 = true ∧
  ¬ FillsWith truncatedMean 4 20 (pixels speckled4x20).
Proof.
  split; [exact speckled4x20_wellFormed|].
  split; [reflexivity|].
  intros F. destruct (F 3%Z 17%Z) as [_ E].
  - vm_compute. split; congruence.
  - vm_compute. split; congruence.
  - vm_compute in E. discriminate.
Qed.

(** C2, amended.  When the corners of the rectangle are integers, every
    pixel of the rectangle has a qualifying neighbour and ends as the mean
    of the input's red, green and blue over the qualifying neighbours of
    (x, max(0, top - (y - top) - 1)), rounded to nearest with ties to
    even, with alpha 255; and a pixel for which no neighbour qualifies is
    left as it is. *)
Theorem fill_stores_rounded_mean (img : Image) :
  wellFormed img → (0 < width img)%Z → (0 < height img)%Z →
  integerRect (width img) (height img) = true →
  FillsWith roundedMean (width img) (height img) (pixels img) ∧
  (∀ (sY x y : Q) (d : list Z),
     count (sampleNeighbourhood (width img) sY d (sampleRow sY y) x) = 0%Z →
     fillPixel (width img) sY x y d = d).
Proof.
  intros (_ & _ & Hlen & Hbytes) Hw Hh Hint. split.
  - intros x y Hx Hy. split.
    + intros E.
      assert (C : (x, sourceRow (rectTop (height img)) y) ∈
                  neighbours (width img) (rectTop (height img)) x y)
        by (eapply centre_qualifies; eassumption).
      rewrite E in C. now apply elem_of_nil in C.
    + now apply filled_pixel.
  - intros sY x y d E. unfold fillPixel. rewrite E.
    now destruct (Qle_bool _ _).
Qed.

Lemma fill_stores_rounded_mean_witness :
  FillsWith roundedMean 4 20 (pixels speckled4x20) ∧
  pixelAt 4 (fillRegion 4 20 (pixels speckled4x20)) 3 17 =
    [Some 1; Some 0; Some 0; Some 255]%Z.
Proof.
  split; [|vm_compute; reflexivity].
  refine (proj1 (fill_stores_rounded_mean speckled4x20
                   speckled4x20_wellFormed _ _ _)).
  - vm_compute; reflexivity.
  - vm_compute; reflexivity.
  - reflexivity.
Defined.



End LnwremoveSpec.

(** ** The adapter: frames and invariants *)

Module AiremoveFacts.
Import JS JSFacts Airemove.

#[export] Instance sameButOutput_preorder : PreOrder sameButOutput.
Proof.
  split.
  - intros w. unfold sameButOutput. tauto.
  - intros w1 w2 w3 H12 H23. unfold sameButOutput in *.
    destruct H12 as (?&?&?&?&?&?&?&?&?&?), H23 as (?&?&?&?&?&?&?&?&?&?).
    repeat split; congruence.
Qed.

Section Preserves.
Context (R : World → World → Prop) `{!PreOrder R}.

Lemma preserves_ret {A : Type} (a : A) : preserves R (ret a).
Proof. intros w. simpl. reflexivity. Qed.

Lemma preserves_bind {A B : Type} (m : M A) (k : A → M B) :
  preserves R m → (∀ a, preserves R (k a)) → preserves R (bind m k).
Proof.
  intros Hm Hk w. unfold bind. specialize (Hm w).
  destruct (m w) as [[a|] w']; simpl in *; [|exact Hm].
  etransitivity; [exact Hm | apply Hk].
Qed.

Lemma preserves_modify (f : World → World) :
  (∀ w, R w (f w)) → preserves R (modify f).
Proof. intros Hf w. apply Hf. Qed.

Lemma preserves_tryCatch (body handler : M unit) :
  preserves R body → preserves R handler → preserves R (tryCatch body handler).
Proof.
  intros Hb Hh w. unfold tryCatch. specialize (Hb w).
  destruct (body w) as [[[]|] w']; simpl in *; [exact Hb|].
  etransitivity; [exact Hb | apply Hh].
Qed.
End Preserves.

Lemma sameButOutput_withMats (m : gmap nat MatData) (w : World) :
  sameButOutput w (withMats m w).
Proof. unfold sameButOutput. simpl. tauto. Qed.

Lemma sameButOutput_withOutCanvas (c : Canvas) (w : World) :
  sameButOutput w (withOutCanvas c w).
Proof. unfold sameButOutput. simpl. tauto. Qed.

Lemma preserves_allocMat (d : option MatData) :
  preserves sameButOutput (allocMat d).
Proof.
  intros w. unfold allocMat. destruct d; simpl;
    [apply sameButOutput_withMats | reflexivity].
Qed.

Lemma preserves_readMat (h : nat) : preserves sameButOutput (readMat h).
Proof. intros w. unfold readMat. destruct (mats w !! h); reflexivity. Qed.

Lemma preserves_writeMat (h : nat) (d : option MatData) :
  preserves sameButOutput (writeMat h d).
Proof.
  intros w. unfold writeMat. destruct d; simpl;
    [apply sameButOutput_withMats | reflexivity].
Qed.

Lemma preserves_deleteMat (h : nat) : preserves sameButOutput (deleteMat h).
Proof.
  apply (preserves_modify sameButOutput). intros w.
  apply sameButOutput_withMats.
Qed.

Lemma preserves_cvImshow (cv : Cv) (h : nat) :
  preserves sameButOutput (cvImshow cv h).
Proof.
  apply (preserves_bind sameButOutput); [apply preserves_readMat |].
  intros m w. destruct (imshow cv m); simpl;
    [apply sameButOutput_withOutCanvas | reflexivity].
Qed.

Create HintDb frame.

#[local] Hint Resolve preserves_allocMat preserves_readMat preserves_writeMat
  preserves_deleteMat preserves_cvImshow : frame.

Ltac frame_steps :=
  repeat first
    [ solve [eauto with frame]
    | apply (preserves_bind sameButOutput); [ | intros ?] ].

(** [inpaintToCanvas] leaves everything but the native buffers and the
    output canvas as it was, whether it returns or throws. *)
Lemma inpaintData_frame (cv : Cv) (r : Q) (i m : ImageData) :
  preserves sameButOutput (inpaintData cv r i m).
Proof.
  unfold inpaintData, cvCvtColor, cvThreshold, cvInpaint. frame_steps.
Qed.

Lemma inpaintToCanvas_frame (cv : Cv) (r : Q) :
  preserves sameButOutput (inpaintToCanvas cv r).
Proof. intros w. apply inpaintData_frame. Qed.

(** *** The click handler once resumed *)

#[export] Instance keepsShape_preorder : PreOrder keepsShape.
Proof.
  split.
  - intros w. unfold keepsShape. tauto.
  - intros w1 w2 w3 (?&?&?&?&?) (?&?&?&?&?). unfold keepsShape.
    repeat split; congruence.
Qed.

Lemma sameButOutput_keepsShape (w w' : World) :
  sameButOutput w w' → keepsShape w w'.
Proof.
  intros (Hs&Hi&Hm&_&_&_&_&_&_&Hp). unfold keepsShape.
  rewrite Hs, Hi, Hm, Hp. tauto.
Qed.

Lemma syncControls_keepsShape (w : World) : keepsShape w (syncControls w).
Proof. unfold keepsShape, syncControls. simpl. tauto. Qed.

Lemma removeResume_keepsShape (cv : Cv) : preserves keepsShape (removeResume cv).
Proof.
  unfold removeResume.
  apply (preserves_bind keepsShape); [|intros _].
  - apply (preserves_tryCatch keepsShape).
    + intros w.
      apply (preserves_bind keepsShape); [|intros _].
      { intros w1. apply sameButOutput_keepsShape, inpaintToCanvas_frame. }
      apply (preserves_bind keepsShape); [|intros _].
      { apply (preserves_modify keepsShape). intros w1.
        unfold keepsShape. simpl. tauto. }
      apply (preserves_bind keepsShape); [|intros _].
      { intros w1. unfold drawOutOnImg.
        destruct (_ || _); simpl; [reflexivity|].
        unfold keepsShape. simpl. tauto. }
      apply (preserves_modify keepsShape). intros w1.
      unfold keepsShape. simpl. tauto.
    + apply (preserves_modify keepsShape). intros w1.
      unfold keepsShape. simpl. tauto.
  - apply (preserves_modify keepsShape). intros w1.
    etransitivity; [|apply syncControls_keepsShape].
    unfold keepsShape. simpl. tauto.
Qed.

Lemma removeResume_returns (cv : Cv) (w : World) :
  ∃ w1, removeResume cv w = (Ok tt, syncControls w1).
Proof.
  unfold removeResume. unfold bind at 1. unfold tryCatch, modify.
  match goal with
  | |- context [bind ?m ?k w] => destruct (bind m k w) as [[[]|] w1]
  end; eexists; reflexivity.
Qed.

Lemma syncControls_disabled (w : World) :
  img (state (syncControls w)) = None →
  removeDisabled (syncControls w) = true.
Proof.
  unfold syncControls. simpl. intros E. rewrite E.
  rewrite bool_decide_eq_false_2; [reflexivity|].
  intros [? ?]. discriminate.
Qed.

(** If [inpaintToCanvas] throws, the handler reports the failure and the
    image canvas is the one it found. *)
Lemma removeResume_on_throw (cv : Cv) (w : World) :
  (inpaintToCanvas cv (radius (state w)) w).1 = Throw →
  (removeResume cv w).1 = Ok tt ∧
  status (removeResume cv w).2 = StatusFailed ∧
  imgCanvas (removeResume cv w).2 = imgCanvas w.
Proof.
  intros T. pose proof (inpaintToCanvas_frame cv (radius (state w)) w) as F.
  unfold removeResume, bind, tryCatch, modify.
  destruct (inpaintToCanvas cv (radius (state w)) w) as [r w1].
  simpl in T, F. subst r. simpl.
  destruct F as (_ & Hi & _). repeat split. exact Hi.
Qed.

(** *** The invariant of the page *)

Lemma paintMask_invariant (f : list Stamp → list Stamp) (w : World) :
  pageInvariant w → pageInvariant (paintMask f w).
Proof. unfold pageInvariant, paintMask. simpl. tauto. Qed.

Lemma syncControls_invariant (w : World) :
  (img (state w) = None → pending w = []) →
  (is_Some (img (state w)) →
     cwidth (imgCanvas w) = cwidth (maskCanvas w) ∧
     cheight (imgCanvas w) = cheight (maskCanvas w)) →
  pageInvariant (syncControls w).
Proof.
  intros Hp Hd. split.
  - intros E. split; [now apply syncControls_disabled|].
    apply Hp. exact E.
  - exact Hd.
Qed.

Lemma step_invariant (e : Event) (w : World) :
  pageInvariant w → pageInvariant (step e w).
Proof.
  intros I. pose proof I as [Hn Hs]. destruct e; simpl.
  - (* FileLoaded *)
    unfold loadImageFromFile, renderImage. cbv zeta.
    apply syncControls_invariant; simpl; [discriminate | tauto].
  - (* PointerDown *)
    unfold pointerDown. destruct (img (state w)) eqn:E; [|exact I].
    apply paintMask_invariant. split; simpl; rewrite E.
    + discriminate.
    + intros _. apply Hs. eauto.
  - (* PointerMove *)
    unfold pointerMove. destruct (_ || _); [exact I|].
    assert (P : ∀ f, pageInvariant
      (withState (λ s0, mkAppState (img s0) (imgWidth s0) (imgHeight s0)
                          (drawing s0) (brush s0) (radius s0) (Some p))
         (paintMask f w))).
    { intros f. unfold pageInvariant. simpl. tauto. }
    destruct shiftKey, (lastPoint (state w)); apply P.
  - (* PointerUp *) unfold pointerUp, pageInvariant. simpl. tauto.
  - (* KeyEscape *) unfold pointerUp, pageInvariant. simpl. tauto.
  - (* SliderInput *)
    apply syncControls_invariant; simpl; [apply Hn | exact Hs].
  - (* CvLoaded *) unfold pageInvariant. simpl. tauto.
  - unfold pageInvariant. simpl. tauto.
  - unfold pageInvariant. simpl. tauto.
  - (* ClickClear *)
    destruct (clearDisabled w); [exact I|].
    unfold clearClick. destruct (img (state w)) eqn:E; [|exact I].
    unfold pageInvariant. simpl. rewrite E. split; [discriminate|].
    intros _. apply Hs. eauto.
  - (* ClickRemove *)
    destruct (removeDisabled w) eqn:D; [exact I|].
    unfold removeClick. destruct (img (state w)) eqn:E; [|exact I].
    assert (P : ∀ w', img (state w') = img (state w) →
                imgCanvas w' = imgCanvas w → maskCanvas w' = maskCanvas w →
                pageInvariant w').
    { intros w' Ei Ec Em. unfold pageInvariant. rewrite Ei, Ec, Em, E.
      split; [discriminate|]. intros _. apply Hs. eauto. }
    destruct (windowCv w); [destruct (negb (isCvReady w))|];
      apply P; reflexivity.
  - (* RemoveTimer *)
    destruct (pending w) as [|cv rest] eqn:P; [exact I|].
    assert (L : is_Some (img (state w))).
    { destruct (img (state w)) eqn:E; [eauto|].
      destruct (Hn eq_refl) as [_ ?]. congruence. }
    pose proof (removeResume_keepsShape cv (withPending rest w))
      as (Ki & Kw & Kh & Km & Kp).
    destruct (removeResume_returns cv (withPending rest w)) as [w1 R].
    rewrite R in Ki, Kw, Kh, Km |- *. cbn [snd] in *. split.
    + intros E. rewrite Ki in E. simpl in E. destruct L as [? L]. congruence.
    + intros _. rewrite Kw, Kh, Km. simpl. now apply Hs.
Qed.

(** An invocation is the call the timer event makes: the resumed handler
    starts with [inpaintToCanvas], which hands the two buffers of these
    sizes to [cv.matFromImageData]. *)
Lemma invocation_is_call (e : Event) (w : World) (iw ih mw mh : Z) :
  invocation e w = Some ((iw, ih), (mw, mh)) →
  ∃ cv rest,
    e = RemoveTimer ∧ pending w = cv :: rest ∧
    step e w = (removeResume cv (withPending rest w)).2 ∧
    ∀ r, inpaintToCanvas cv r (withPending rest w) =
         inpaintData cv r (mkImageData iw ih (bitmap (imgCanvas w)))
           (mkImageData mw mh (bitmap (maskCanvas w))) (withPending rest w).
Proof.
  destruct e; try discriminate. simpl.
  destruct (pending w) as [|cv rest]; [discriminate|].
  intros [= <- <- <- <-]. exists cv, rest. repeat split.
Qed.

Lemma initial_invariant (w : World) : initial w → pageInvariant w.
Proof.
  intros (Hi & Hp & Hr & _). split; [tauto|].
  intros [? E]. congruence.
Qed.

Lemma run_invariant (es : list Event) (w : World) :
  pageInvariant w → pageInvariant (run es w).
Proof.
  revert w. induction es as [|e es IH]; intros w I; [exact I|].
  simpl. apply IH. now apply step_invariant.
Qed.

(** *** Native buffers *)

Lemma ensures_bind {A B : Type} (m : M A) (k : A → M B)
    (P : World → Prop) (Q : A → World → Prop) (R : B → World → Prop) :
  ensures m P Q → (∀ a, ensures (k a) (Q a) R) → ensures (bind m k) P R.
Proof.
  intros Hm Hk w b w' HP E. unfold bind in E.
  destruct (m w) as [[a|] w1] eqn:Em; [|discriminate].
  eapply Hk; [|exact E]. eapply Hm; eassumption.
Qed.

Section Tracked.
Variable m0 : gmap nat MatData.

Lemma tracked_alloc (d : option MatData) (live : list nat) :
  ensures (allocMat d) (tracked m0 live [])
    (λ h, tracked m0 (h :: live) []).
Proof.
  intros w h w' (Hout & Hin & _) E. unfold allocMat in E.
  destruct d as [m|]; [|discriminate]. injection E as <- <-.
  set (h := fresh (dom (mats w))).
  assert (F : mats w !! h = None) by apply not_elem_of_dom, is_fresh.
  unfold tracked; cbn [mats withMats]; repeat split.
  - intros k Hk. apply not_elem_of_cons in Hk as [Hne Hk].
    rewrite lookup_insert_ne by congruence. now apply Hout.
  - intros k Hk. apply elem_of_cons in Hk as [->|Hk]; [|now apply Hin].
    destruct (decide (h ∈ live)) as [Hl|Hl]; [now apply Hin|].
    rewrite <- (Hout h Hl). exact F.
  - intros k Hk. now apply elem_of_nil in Hk.
Qed.

Lemma tracked_read (h : nat) (live gone : list nat) :
  ensures (readMat h) (tracked m0 live gone) (λ _, tracked m0 live gone).
Proof.
  intros w m w' T E. unfold readMat in E.
  destruct (mats w !! h); [|discriminate]. now injection E as _ <-.
Qed.

Lemma tracked_write (h : nat) (d : option MatData) (live : list nat) :
  h ∈ live →
  ensures (writeMat h d) (tracked m0 live []) (λ _, tracked m0 live []).
Proof.
  intros Hh w u w' (Hout & Hin & _) E. unfold writeMat in E.
  destruct d as [m|]; [|discriminate]. injection E as E; subst w'.
  unfold tracked; cbn [mats withMats]; repeat split.
  - intros k Hk. rewrite lookup_insert_ne; [now apply Hout|].
    intros ->. contradiction.
  - exact Hin.
  - intros k Hk. now apply elem_of_nil in Hk.
Qed.

Lemma tracked_imshow (cv : Cv) (h : nat) (live gone : list nat) :
  ensures (cvImshow cv h) (tracked m0 live gone)
    (λ _, tracked m0 live gone).
Proof.
  eapply ensures_bind; [apply tracked_read|].
  intros m w u w' T E. simpl in E.
  destruct (imshow cv m); [|discriminate]. injection E as E; subst w'.
  exact T.
Qed.

Lemma tracked_delete (h : nat) (live gone : list nat) :
  h ∈ live →
  ensures (deleteMat h) (tracked m0 live gone)
    (λ _, tracked m0 live (h :: gone)).
Proof.
  intros Hh w u w' (Hout & Hin & Hg) E. unfold deleteMat, modify in E.
  injection E as E; subst w'. unfold tracked; cbn [mats withMats]; repeat split.
  - intros k Hk. rewrite lookup_delete_ne; [now apply Hout|].
    intros ->. contradiction.
  - exact Hin.
  - intros k Hk. apply elem_of_cons in Hk as [->|Hk].
    + apply lookup_delete_eq.
    + apply lookup_delete_None. right. now apply Hg.
Qed.

Lemma tracked_done (live gone : list nat) (w : World) :
  live ⊆ gone → tracked m0 live gone w → mats w = m0.
Proof.
  intros Hs (Hout & Hin & Hg). apply map_eq. intros k.
  destruct (decide (k ∈ live)) as [Hk|Hk]; [|now apply Hout].
  rewrite (Hin k Hk). apply Hg, Hs, Hk.
Qed.
End Tracked.

Ltac in_list := rewrite ?elem_of_cons; auto 10.

Lemma ensures_post {A : Type} (m : M A) (P : World → Prop)
    (Q Q' : A → World → Prop) :
  ensures m P Q → (∀ a w, Q a w → Q' a w) → ensures m P Q'.
Proof. intros Hm HQ w a w' HP E. eapply HQ, Hm; eassumption. Qed.

Lemma inpaintData_releases (cv : Cv) (r : Q) (i m : ImageData)
    (m0 : gmap nat MatData) :
  ensures (inpaintData cv r i m) (tracked m0 [] [])
    (λ _ w', mats w' = m0).
Proof.
  unfold inpaintData.
  eapply ensures_bind; [apply tracked_alloc|]. intros srcRgba.
  eapply ensures_bind; [apply tracked_alloc|]. intros srcRgb.
  eapply ensures_bind.
  { unfold cvCvtColor. eapply ensures_bind; [apply tracked_read|].
    intros ?. apply tracked_write. in_list. }
  intros ?.
  eapply ensures_bind; [apply tracked_alloc|]. intros maskRgba.
  eapply ensures_bind; [apply tracked_alloc|]. intros maskGray.
  eapply ensures_bind.
  { unfold cvCvtColor. eapply ensures_bind; [apply tracked_read|].
    intros ?. apply tracked_write. in_list. }
  intros ?.
  eapply ensures_bind; [apply tracked_alloc|]. intros maskBin.
  eapply ensures_bind.
  { unfold cvThreshold. eapply ensures_bind; [apply tracked_read|].
    intros ?. apply tracked_write. in_list. }
  intros ?.
  eapply ensures_bind; [apply tracked_alloc|]. intros dst.
  eapply ensures_bind.
  { unfold cvInpaint. eapply ensures_bind; [apply tracked_read|].
    intros ?. eapply ensures_bind; [apply tracked_read|].
    intros ?. apply tracked_write. in_list. }
  intros ?.
  eapply ensures_bind; [apply tracked_imshow|]. intros ?.
  eapply ensures_bind; [apply (tracked_delete _ srcRgba); in_list|]. intros ?.
  eapply ensures_bind; [apply (tracked_delete _ srcRgb); in_list|]. intros ?.
  eapply ensures_bind; [apply (tracked_delete _ maskRgba); in_list|]. intros ?.
  eapply ensures_bind; [apply (tracked_delete _ maskGray); in_list|]. intros ?.
  eapply ensures_bind; [apply (tracked_delete _ maskBin); in_list|]. intros ?.
  eapply ensures_post; [apply (tracked_delete _ dst); in_list|].
  intros ? w T. cbv beta in T. eapply tracked_done; [|exact T].
  intros k; in_list; tauto.
Qed.

(** When [inpaintToCanvas] returns, every buffer it allocated is deleted:
    the live buffers are those there were before the call. *)
Lemma inpaintToCanvas_releases (cv : Cv) (r : Q) (w w' : World) :
  inpaintToCanvas cv r w = (Ok tt, w') → mats w' = mats w.
Proof.
  intros E. unfold inpaintToCanvas in E.
  eapply (inpaintData_releases cv r _ _ (mats w) w tt w'); [|exact E].
  repeat split; intros k Hk; now apply elem_of_nil in Hk.
Qed.

(** *** Strokes *)

Lemma Qsquare_nonneg (x : Q) : 0 <= x * x.
Proof.
  destruct (Qlt_le_dec x 0) as [L|L].
  - assert (E : x * x == (- x) * (- x)) by ring.
    rewrite E. apply Qmult_le_0_compat; lra.
  - apply Qmult_le_0_compat; lra.
Qed.

(** [ceilSqrtDiv s step] is the least natural number [n] with
    [sqrt s <= n * step], that is [ceil (sqrt s / step)]. *)
Lemma ceilSqrtDiv_spec (s step : Q) :
  0 <= s → 0 < step →
  let n := ceilSqrtDiv s step in
  (0 <= n)%Z ∧
  s <= (inject_Z n * step) * (inject_Z n * step) ∧
  ((0 < n)%Z →
   (inject_Z (n - 1) * step) * (inject_Z (n - 1) * step) < s).
Proof.
  intros Hs Hstep n.
  assert (Hss : 0 < step * step) by (apply Qmult_lt_0_compat; lra).
  set (q := s / (step * step)).
  assert (Eq : s == q * (step * step)) by (subst q; field; lra).
  assert (Hq : 0 <= q).
  { subst q. apply Qle_shift_div_l; [exact Hss|lra]. }
  pose proof (Qle_ceiling q) as Hc1. pose proof (Qceiling_lt q) as Hc2.
  rewrite inject_Z_minus in Hc2. change (inject_Z 1) with 1 in Hc2.
  set (c := Qceiling q) in *.
  assert (Hc0 : (0 <= c)%Z).
  { apply Z.lt_pred_le. change (Z.pred 0) with (-1)%Z.
    apply Qlt_inject. change (inject_Z (-1)) with (-1). lra. }
  pose proof (Z.sqrt_spec c Hc0) as [Hr1 Hr2].
  pose proof (Z.sqrt_nonneg c) as Hr0.
  unfold Z.succ in Hr2.
  assert (Up : ∀ m : Z, (c <= m * m)%Z →
               s <= (inject_Z m * step) * (inject_Z m * step)).
  { intros m Hm. apply Qle_inject in Hm. rewrite inject_Z_mult in Hm.
    assert (E : inject_Z m * step * (inject_Z m * step)
                == (inject_Z m * inject_Z m) * (step * step)) by ring.
    rewrite Eq, E. apply Qmult_le_compat_r; lra. }
  assert (Lo : ∀ m : Z, (m * m <= c - 1)%Z →
               (inject_Z m * step) * (inject_Z m * step) < s).
  { intros m Hm. apply Qle_inject in Hm.
    rewrite inject_Z_mult, inject_Z_minus in Hm.
    change (inject_Z 1) with 1 in Hm.
    assert (E : inject_Z m * step * (inject_Z m * step)
                == (inject_Z m * inject_Z m) * (step * step)) by ring.
    rewrite Eq, E. apply Qmult_lt_compat_r; lra. }
  subst n. unfold ceilSqrtDiv. fold q. fold c.
  destruct (Z.eqb_spec (Z.sqrt c * Z.sqrt c) c) as [E|E].
  - split; [exact Hr0|]. split; [apply Up; lia|].
    intros Hpos. apply Lo. nia.
  - split; [lia|]. split; [apply Up; lia|].
    intros _. apply Lo. replace (Z.sqrt c + 1 - 1)%Z with (Z.sqrt c) by lia.
    lia.
Qed.

Lemma foldl_drawBrush (f : nat → Point) (brush : Q) (l : list nat)
    (ctx : list Stamp) :
  foldl (λ ctx i, drawBrush ctx (f i) brush) ctx l =
  ctx ++ ((λ i, mkStamp (f i) (brush / 2)) <$> l).
Proof.
  revert ctx. induction l as [|i l IH]; intros ctx; simpl.
  - now rewrite app_nil_r.
  - rewrite IH. unfold drawBrush. now rewrite <- app_assoc.
Qed.

Lemma drawLine_stamps (ctx : list Stamp) (a b : Point) (brush : Q) :
  drawLine ctx a b brush = ctx ++ lineStamps a b brush.
Proof. unfold drawLine, lineStamps. apply foldl_drawBrush. Qed.

Lemma lineSteps_spec (a b : Point) (brush : Q) :
  let s := (px b - px a) * (px b - px a) + (py b - py a) * (py b - py a) in
  let step := Qmax 1 (brush / 3) in
  let n := lineSteps a b brush in
  (0 <= n)%Z ∧
  s <= (inject_Z n * step) * (inject_Z n * step) ∧
  ((0 < n)%Z →
   (inject_Z (n - 1) * step) * (inject_Z (n - 1) * step) < s).
Proof.
  intros s step n. subst n. unfold lineSteps. fold s. fold step.
  apply ceilSqrtDiv_spec.
  - pose proof (Qsquare_nonneg (px b - px a)).
    pose proof (Qsquare_nonneg (py b - py a)). subst s. lra.
  - pose proof (Q.le_max_l 1 (brush / 3)). subst step. lra.
Qed.

End AiremoveFacts.

(** ** The exact model agrees with binary64 on the images used above *)

Module Binary64Facts.

Lemma rectangle_10x10 :
  PrimFloat.eqb (Binary64.startX 10) 7.5 = true ∧
  PrimFloat.eqb (Binary64.startY 10) 8.5 = true ∧
  PrimFloat.eqb (Binary64.key 10 7.5 8.5) 370 = true ∧
  Lnwremove.startX 10 == 7.5 ∧ Lnwremove.startY 10 == 8.5.
Proof. repeat split; vm_compute; reflexivity. Qed.

Lemma rectangle_4x20 :
  PrimFloat.eqb (Binary64.startX 4) 3 = true ∧
  PrimFloat.eqb (Binary64.startY 20) 17 = true ∧
  Lnwremove.startX 4 == 3 ∧ Lnwremove.startY 20 == 17.
Proof. repeat split; vm_compute; reflexivity. Qed.

(** For the heights 20, 40, ..., 660 the rectangle's top is the integer
    [0.85 * height] in binary64 too, for the widths 4, 8, ..., 596 its
    left is [0.75 * width]; from height 667 and width 600 on the rectangle
    is 100 high and 150 wide. *)
Lemma integer_corners :
  forallb (λ k, PrimFloat.eqb (Binary64.startY (Binary64.ofZ (20 * k)))
                  (Binary64.ofZ (17 * k)))
          (Z.of_nat <$> seq 1 33) = true ∧
  forallb (λ k, PrimFloat.eqb (Binary64.startX (Binary64.ofZ (4 * k)))
                  (Binary64.ofZ (3 * k)))
          (Z.of_nat <$> seq 1 149) = true ∧
  PrimFloat.eqb (Binary64.watermarkHeight 667) 100 = true ∧
  PrimFloat.eqb (Binary64.watermarkWidth 600) 150 = true.
Proof. repeat split; vm_compute; reflexivity. Qed.

Lemma stroke_30_brush_10 :
  PrimFloat.eqb (Binary64.strokeRatio 30 10) 9 = true.
Proof. vm_compute; reflexivity. Qed.

End Binary64Facts.


(** ** Strokes in binary64 *)

Module StrokeFacts.
Import Binary64 Stroke.

Lemma value_Finite (x : float) (q : Q) :
  value x = Finite q →
  (∃ s, Prim2SF x = S754_zero s) ∨ (∃ s m e, Prim2SF x = S754_finite s m e).
Proof.
  unfold value. destruct (Prim2SF x) as [s|s| |s m e]; try discriminate.
  - left. now exists s.
  - right. now exists s, m, e.
Qed.

(** A finite number minus itself is 0. *)
Lemma sub_self (x : float) (q : Q) :
  value x = Finite q → (x - x)%float = 0%float.
Proof.
  intros V. rewrite <- (SF2Prim_Prim2SF (x - x)), sub_spec.
  destruct (value_Finite x q V) as [[s ->]|(s & m & e & ->)].
  - now destruct s.
  - unfold SF64sub, SFsub. cbv zeta. rewrite Z.sub_diag. reflexivity.
Qed.

(** 0 divided by a number above 1 is 0. *)
Lemma zero_div (s : float) :
  PrimFloat.ltb 1 s = true → (0 / s)%float = 0%float.
Proof.
  intros L. rewrite ltb_spec in L.
  rewrite <- (SF2Prim_Prim2SF (0 / s)), div_spec.
  change (Prim2SF 0) with (S754_zero false).
  change (Prim2SF 1) with (S754_finite false 4503599627370496 (-52)) in L.
  destruct (Prim2SF s) as [sg|sg| |sg m e]; try discriminate.
  - destruct sg; [discriminate|reflexivity].
  - destruct sg; [discriminate|reflexivity].
Qed.

(** The divisor [Math.max(1, brush / 3)] is 1 at least. *)
Lemma stepOf_ge_1 (brush : float) :
  PrimFloat.is_nan (brush / 3) = false → leF 1 (stepOf brush).
Proof.
  intros N. unfold leF, stepOf, max1. rewrite N.
  destruct (PrimFloat.ltb 1 (brush / 3)) eqn:L; [|reflexivity].
  rewrite ltb_spec in L. rewrite leb_spec.
  unfold SFltb in L. unfold SFleb.
  destruct (SFcompare _ _) as [[]|]; try discriminate. reflexivity.
Qed.

Lemma lineSteps_coincident (a : Point) (brush : float) (qx qy : Q) :
  value (px a) = Finite qx → value (py a) = Finite qy →
  PrimFloat.is_nan (brush / 3) = false →
  lineSteps a a brush = Whole 0.
Proof.
  intros Vx Vy N. unfold lineSteps, distance. cbv zeta.
  rewrite (sub_self _ _ Vx), (sub_self _ _ Vy).
  change (PrimFloat.sqrt (0 * 0 + 0 * 0)) with 0%float.
  unfold stepOf, max1. rewrite N.
  destruct (PrimFloat.ltb 1 (brush / 3)) eqn:L.
  - now rewrite zero_div.
  - reflexivity.
Qed.

(** The ceiling of a number above 0 is 1 at least. *)
Lemma ceil_positive (x : float) (n : Z) :
  ltF 0 x → ceil x = Whole n → (1 <= n)%Z.
Proof.
  unfold ltF, ceil, value. rewrite ltb_spec.
  change (Prim2SF 0) with (S754_zero false).
  destruct (Prim2SF x) as [s|s| |s m e]; try discriminate.
  destruct s; [discriminate|]. intros _ [= <-].
  set (q := match e with
            | 0%Z => inject_Z (Z.pos m)
            | Z.pos p => inject_Z (Z.pos m * 2 ^ Z.pos p)
            | Z.neg p => Z.pos m # 2 ^ p
            end).
  assert (P : 0 < q).
  { subst q. destruct e as [|p|p]; unfold Qlt; simpl; lia. }
  apply Z.lt_pred_le. change (Z.pred 1) with 0%Z.
  rewrite Zlt_Qlt. change (inject_Z 0) with 0%Q.
  pose proof (Qle_ceiling q). lra.
Qed.

Lemma foldl_stamps (f : nat → Point) (brush : float) (l : list nat)
    (ctx : list Stamp) :
  foldl (λ ctx i, drawBrush ctx (f i) brush) ctx l =
  ctx ++ ((λ i, mkStamp (f i) (brush / 2)) <$> l).
Proof.
  revert ctx. induction l as [|i l IH]; intros ctx; simpl.
  - now rewrite app_nil_r.
  - rewrite IH. unfold drawBrush. now rewrite <- app_assoc.
Qed.

Lemma drawLine_appends (ctx : list Stamp) (a b : Point) (brush : float)
    (n : Z) :
  lineSteps a b brush = Whole n → (0 <= n < 2 ^ 53)%Z →
  drawLine ctx a b brush = Some (ctx ++ lineStamps a b brush n).
Proof.
  intros E Hn. unfold drawLine. rewrite E.
  replace (n <? 0)%Z with false by (symmetry; apply Z.ltb_ge; lia).
  replace (2 ^ 53 <=? n)%Z with false by (symmetry; apply Z.leb_gt; lia).
  unfold lineStamps. now rewrite foldl_stamps.
Qed.

Lemma brushes_1_to_4096 : allFrom threeBrushesApart 4096 1 = true.
Proof. vm_compute. reflexivity. Qed.

(** The quotient is rounded: between points 65 apart with the brush 13,
    [65 / (13 / 3)] is 15 and the code computes a number above 15, takes 16
    steps and draws 17 stamps. *)
Lemma rounded_quotient_65_13 :
  let a := mkPoint 0 0 in
  let b := mkPoint 65 0 in
  (inject_Z 65 / (inject_Z 13 / 3) == 15)%Q ∧
  ltF 15 (distance a b / stepOf 13) ∧
  lineSteps a b 13 = Whole 16 ∧
  length <$> drawLine [] a b 13 = Some 17%nat.
Proof. repeat split; vm_compute; reflexivity. Qed.

End StrokeFacts.

(** ** Strokes: the property of the specification *)

Module StrokeSpec.
Import Binary64 Stroke StrokeFacts.




End StrokeSpec.

(** ** The adapter: the properties of the specification *)

Module AiremoveSpec.
Import JS JSFacts Airemove AiremoveFacts.

(** C5, as stated.  With the cutoff 1 that [inpaintToCanvas] passes,
    intensity 1 is not above the cutoff: it maps to 0, intensity 255 maps
    to 255. *)
Lemma threshold_separates_1_and_255 :
  maskThreshold 1 = 0 ∧ maskThreshold 255 = 255 ∧
  ¬ maskThreshold 1 == maskThreshold 255.
Proof. repeat split. vm_compute. discriminate. Qed.

(** C5, amended.  The thresholding step maps every intensity above 1 to
    255 and the intensities 0 and 1 to 0; its result is always 0 or 255. *)
Theorem threshold_binary_above_one (v : Z) :
  maskThreshold v = (if (1 <? v)%Z then 255 else 0) ∧
  maskThreshold 0 = 0 ∧ maskThreshold 1 = 0 ∧
  (maskThreshold v = 0 ∨ maskThreshold v = 255).
Proof.
  assert (E : maskThreshold v = (if (1 <? v)%Z then 255 else 0)).
  { unfold maskThreshold, thresholdBinary, maskThresh, maskMaxval.
    destruct (Z.ltb_spec 1 v) as [L|L].
    - rewrite (proj2 (Qltb_lt 1 (inject_Z v))); [reflexivity|].
      change 1 with (inject_Z 1). now apply Qlt_inject.
    - rewrite (proj2 (Qltb_ge 1 (inject_Z v))); [reflexivity|].
      change 1 with (inject_Z 1). now apply Qle_inject. }
  split; [exact E|]. split; [reflexivity|]. split; [reflexivity|].
  rewrite E. destruct (1 <? v)%Z; auto.
Qed.

(** C6.  On the page, whenever the remove button can be clicked and the
    primitive is not ready, the click handler returns normally with the
    not-ready status and touches nothing else: no canvas, no native
    buffer, no suspended handler.  And if [inpaintToCanvas] throws, the
    resumed handler returns normally with the failure status and the
    image canvas it found. *)
Theorem remove_refuses_or_reports :
  (∀ (w0 : World) (es : list Event),
     initial w0 →
     let w := run es w0 in
     removeDisabled w = false → isCvReady w = false →
     removeClick w = (Ok tt, setStatus StatusNotReady w) ∧
     status (removeClick w).2 = StatusNotReady ∧
     imgCanvas (removeClick w).2 = imgCanvas w ∧
     outCanvas (removeClick w).2 = outCanvas w ∧
     mats (removeClick w).2 = mats w ∧
     pending (removeClick w).2 = pending w) ∧
  (∀ (cv : Cv) (w : World),
     (inpaintToCanvas cv (radius (state w)) w).1 = Throw →
     (removeResume cv w).1 = Ok tt ∧
     status (removeResume cv w).2 = StatusFailed ∧
     imgCanvas (removeResume cv w).2 = imgCanvas w).
Proof.
  split.
  - intros w0 es Hi w Hd Hcv.
    pose proof (run_invariant es w0 (initial_invariant w0 Hi)) as [Hn _].
    fold w in Hn.
    assert (E : removeClick w = (Ok tt, setStatus StatusNotReady w)).
    { unfold removeClick. destruct (img (state w)) eqn:Ei.
      - unfold isCvReady in Hcv |- *. destruct (windowCv w); [|reflexivity].
        now rewrite Hcv.
      - destruct (Hn eq_refl) as [D _]. congruence. }
    rewrite E. repeat split.
  - intros cv w. apply removeResume_on_throw.
Qed.

Lemma remove_refuses_or_reports_witness :
  status (removeClick (run [FileLoaded photo] freshPage)).2 = StatusNotReady ∧
  status (removeResume cvInpaintThrows
            (run [FileLoaded photo; CvLoaded cvInpaintThrows] freshPage)).2
    = StatusFailed.
Proof.
  split.
  - refine (proj1 (proj2 (proj1 remove_refuses_or_reports freshPage
                             [FileLoaded photo] _ _ _))).
    + repeat split.
    + vm_compute; reflexivity.
    + vm_compute; reflexivity.
  - refine (proj1 (proj2 (proj2 remove_refuses_or_reports cvInpaintThrows
                             _ _))).
    vm_compute; reflexivity.
Defined.

(** C7.  With a primitive whose [cv.inpaint] throws, the six buffers
    allocated by [inpaintToCanvas] are still allocated after the handler
    has reported the failure; with one that does not throw, none is. *)
Theorem buffers_leak_when_inpaint_throws :
  let clicked cv := run [FileLoaded photo; CvLoaded cv; ClickRemove] freshPage in
  size (mats (clicked cvInpaintThrows)) = 0%nat ∧
  status (step RemoveTimer (clicked cvInpaintThrows)) = StatusFailed ∧
  size (mats (step RemoveTimer (clicked cvInpaintThrows))) = 6%nat ∧
  status (step RemoveTimer (clicked cvWorking)) = StatusDone ∧
  size (mats (step RemoveTimer (clicked cvWorking))) = 0%nat.
Proof. repeat split; vm_compute; reflexivity. Qed.



End AiremoveSpec.

(** ** The region filler: further properties of the loops *)

Module LnwremoveMore.
Import JS JSFacts Lnwremove LnwremoveFacts.

(** *** The stored bytes *)

Lemma toUint8Clamp_range (v : number) : (0 <= toUint8Clamp v <= 255)%Z.
Proof.
  destruct v as [q|]; simpl; [|lia].
  set (c := Qmin (Qmax q 0) 255).
  assert (Hc : 0 <= c ∧ c <= 255).
  { subst c. split.
    - apply Q.min_glb; [apply Q.le_max_r|lra].
    - apply Q.le_min_r. }
  pose proof (Qfloor_le c) as F1. pose proof (Qlt_floor c) as F2.
  rewrite inject_Z_plus in F2. change (inject_Z 1) with 1 in F2.
  assert (F0 : (0 <= Qfloor c)%Z).
  { apply Z.lt_pred_le. change (Z.pred 0) with (-1)%Z.
    apply Qlt_inject. change (inject_Z (-1)) with (-1). lra. }
  assert (F255 : (Qfloor c <= 255)%Z).
  { apply Qle_inject. change (inject_Z 255) with 255. lra. }
  destruct (Qltb c (inject_Z (Qfloor c) + 0.5)) eqn:E1; [lia|].
  Qltb_prop E1.
  assert (F254 : (Qfloor c <= 254)%Z).
  { apply Z.lt_succ_r. change (Z.succ 254) with 255%Z.
    apply Qlt_inject. change (inject_Z 255) with 255. lra. }
  destruct (Qltb (inject_Z (Qfloor c) + 0.5) c); [lia|].
  destruct (Z.even (Qfloor c)); lia.
Qed.

Definition byteList (d : list Z) : Prop := Forall (λ v, (0 <= v <= 255)%Z) d.

Lemma set_bytes (d : list Z) (q : Q) (v : number) :
  byteList d → byteList (set d q v).
Proof.
  intros H. unfold set. destruct (arrayIndex _ q); [|exact H].
  apply Forall_insert; [exact H | apply toUint8Clamp_range].
Qed.

Lemma fillPixel_bytes (w : Z) (sY x y : Q) (d : list Z) :
  byteList d → byteList (fillPixel w sY x y d).
Proof.
  intros H. unfold fillPixel. destruct (Qle_bool _ _); [|exact H].
  destruct (0 <? _)%Z; [|exact H].
  unfold writePixel. now repeat apply set_bytes.
Qed.

Lemma fillRegion_bytes (w h : Z) (d : list Z) :
  byteList d → byteList (fillRegion w h d).
Proof.
  rewrite fillRegion_inOrder. unfold fillInOrder.
  generalize (rectOffsets w h). intros l. revert d.
  induction l as [|a l IH]; intros d H; [exact H|].
  simpl. apply IH. now apply fillPixel_bytes.
Qed.

Lemma fillRegion_length (w h : Z) (d : list Z) :
  length (fillRegion w h d) = length d.
Proof.
  rewrite fillRegion_inOrder. unfold fillInOrder.
  generalize (rectOffsets w h). intros l. revert d.
  induction l as [|a l IH]; intros d; [reflexivity|].
  simpl. rewrite IH. rewrite fillPixel_from. apply length_fillPixelFrom.
Qed.

(** X1.  With a 2D context, for every well-formed image with a pixel at
    least whose rectangle has integer corners, [removeWatermark] returns,
    and what it returns is a well-formed image of the same width and
    height: as many bytes, each in 0..255. *)
Theorem removeWatermark_wellFormed (img : Image) :
  wellFormed img → (0 < width img)%Z → (0 < height img)%Z →
  integerRect (width img) (height img) = true →
  ∃ out, WatermarkRemover.removeWatermarkOn true img = Some out ∧
    wellFormed out ∧
    width out = width img ∧ height out = height img ∧
    length (pixels out) = length (pixels img).
Proof.
  intros (Hw & Hh & Hlen & Hb) Pw Ph _.
  unfold WatermarkRemover.removeWatermarkOn, removeWatermark.
  replace (width img =? 0)%Z with false by (symmetry; apply Z.eqb_neq; lia).
  replace (height img =? 0)%Z with false by (symmetry; apply Z.eqb_neq; lia).
  eexists. split; [reflexivity|]. unfold wellFormed. cbn [width height pixels].
  repeat split; try assumption.
  - now rewrite fillRegion_length.
  - now apply fillRegion_bytes.
  - apply fillRegion_length.
Qed.

Lemma removeWatermark_wellFormed_witness :
  ∃ out, WatermarkRemover.removeWatermarkOn true speckled4x20 = Some out ∧
    wellFormed out ∧
    width out = 4%Z ∧ height out = 20%Z ∧ length (pixels out) = 320%nat.
Proof.
  refine (removeWatermark_wellFormed speckled4x20
            LnwremoveSpec.speckled4x20_wellFormed _ _ _); reflexivity.
Defined.

(** *** Running the filler again *)

Lemma writePixel_twice (d : list Z) (idx : Q) (acc : Acc) :
  writePixel (writePixel d idx acc) idx acc = writePixel d idx acc.
Proof.
  apply list_eq. intros p. unfold writePixel.
  rewrite !lookup_set, !length_set.
  repeat destruct (decide _); reflexivity.
Qed.

Lemma fillPixelFrom_twice (w : Z) (sY : Q) (src : list Z) (x y : Q)
    (d : list Z) :
  fillPixelFrom w sY src x y (fillPixelFrom w sY src x y d) =
  fillPixelFrom w sY src x y d.
Proof.
  unfold fillPixelFrom. destruct (Qle_bool _ _); [|reflexivity].
  destruct (0 <? _)%Z; [apply writePixel_twice | reflexivity].
Qed.

(** Steps that commute with one another and change nothing when repeated:
    a second pass over the list changes nothing. *)
Lemma foldl_absorb {A B : Type} (f : A → B → A) (P : B → Prop) :
  (∀ a x y, P x → P y → f (f a x) y = f (f a y) x) →
  (∀ a x, P x → f (f a x) x = f a x) →
  ∀ l, Forall P l → ∀ a, foldl f (foldl f a l) l = foldl f a l.
Proof.
  intros C I l Hl. induction Hl as [|x l Hx Hl IH]; intros a; [reflexivity|].
  simpl.
  assert (M : ∀ b, f (foldl f b l) x = foldl f (f b x) l).
  { clear IH. induction Hl as [|z l Hz Hl IH]; intros b; [reflexivity|].
    simpl. rewrite IH. f_equal. now apply C. }
  rewrite M, I by exact Hx. apply IH.
Qed.

(** X3.  For an image whose rectangle has integer corners the filler is
    idempotent: run on its own output it returns that output again. *)
Theorem fill_twice (w h : Z) (data : list Z) :
  (0 < w)%Z → (0 < h)%Z → integerRect w h = true →
  fillRegion w h (fillRegion w h data) = fillRegion w h data.
Proof.
  intros Pw Ph _.
  assert (Hw : (0 <= w)%Z) by lia. assert (Hh : (0 <= h)%Z) by lia.
  pose proof (rectOffsets_inRect w h) as R.
  rewrite !fillRegion_inOrder.
  transitivity (fillInOrder w h (rectOffsets w h ++ rectOffsets w h) data).
  { unfold fillInOrder. now rewrite foldl_app. }
  rewrite (fillInOrder_pure w h (rectOffsets w h ++ rectOffsets w h) data)
    by (try assumption; now apply Forall_app).
  rewrite (fillInOrder_pure w h (rectOffsets w h) data) by assumption.
  unfold fillRegionPure. rewrite foldl_app.
  apply (foldl_absorb _ (inRect w h)); [| |exact R].
  - intros d a b Ha Hb. now apply fillPixelFrom_commute.
  - intros d a _. apply fillPixelFrom_twice.
Qed.

Lemma fill_twice_witness :
  fillRegion 4 20 (fillRegion 4 20 (pixels speckled4x20)) =
  fillRegion 4 20 (pixels speckled4x20).
Proof. apply fill_twice; [lia | lia | reflexivity]. Defined.

(** *** Rectangles with integer corners *)

(** X4.  When the corners of the rectangle are integers, every pixel
    outside the rectangle keeps its four bytes. *)
Theorem fill_keeps_pixels_outside (img : Image) (x y : Z) :
  (0 < width img)%Z → (0 < height img)%Z →
  integerRect (width img) (height img) = true →
  (0 <= x < width img)%Z → (0 <= y < height img)%Z →
  (x < rectLeft (width img))%Z ∨ (y < rectTop (height img))%Z →
  ∃ out, removeWatermark img = Some out ∧
    pixelAt (width img) (pixels out) x y =
    pixelAt (width img) (pixels img) x y.
Proof.
  intros Hw Hh Hint Hx Hy Hout. unfold removeWatermark.
  replace (width img =? 0)%Z with false by (symmetry; apply Z.eqb_neq; lia).
  replace (height img =? 0)%Z with false by (symmetry; apply Z.eqb_neq; lia).
  eexists. split; [reflexivity|]. cbn [pixels].
  apply frame_outside_rectangle; try assumption. lia.
Qed.

Lemma fill_keeps_pixels_outside_witness :
  ∃ out, removeWatermark speckled4x20 = Some out ∧
    pixelAt 4 (pixels out) 2 17 = pixelAt 4 (pixels speckled4x20) 2 17.
Proof.
  apply (fill_keeps_pixels_outside speckled4x20 2 17);
    try reflexivity; try (simpl; lia).
  left. vm_compute. reflexivity.
Defined.

Lemma isInteger_iff (q : Q) : isInteger q = true ↔ ∃ k : Z, q == inject_Z k.
Proof.
  unfold isInteger. split.
  - intros E. apply Qeq_bool_eq in E. eexists. symmetry. exact E.
  - intros [k E]. apply Qeq_bool_iff.
    rewrite (Qfloor_comp _ _ E), Qfloor_Z. now symmetry.
Qed.

(** X5.  The sizes at which the corners of the rectangle are integers: a
    width of 600 or more or a multiple of 4, and a height of 667 or more
    or a multiple of 20. *)
Theorem integerRect_sizes (w h : Z) :
  (0 < w)%Z → (0 < h)%Z →
  integerRect w h = true ↔
  ((600 <= w)%Z ∨ (w mod 4 = 0)%Z) ∧ ((667 <= h)%Z ∨ (h mod 20 = 0)%Z).
Proof.
  intros Hw Hh. unfold integerRect.
  rewrite andb_true_iff, !isInteger_iff.
  assert (X : (∃ k, startX w == inject_Z k) ↔
              (600 <= w)%Z ∨ (w mod 4 = 0)%Z).
  { unfold startX, watermarkWidth.
    destruct (Z_le_gt_dec 600 w) as [L|L].
    - split; [auto|]. intros _. exists (w - 150)%Z.
      apply Qle_inject in L. change (inject_Z 600) with 600 in L.
      pose proof (Q.min_l 150 (inject_Z w * 0.25) ltac:(lra)) as M.
      rewrite inject_Z_minus. change (inject_Z 150) with 150. lra.
    - assert (Lq : inject_Z w < 600)
        by (change 600 with (inject_Z 600); apply Qlt_inject; lia).
      pose proof (Q.min_r 150 (inject_Z w * 0.25) ltac:(lra)) as M.
      set (m := Qmin _ _) in *. clearbody m.
      split.
      + intros [k E]. right.
        assert (E' : inject_Z (3 * w) == inject_Z (4 * k)).
        { rewrite !inject_Z_mult. change (inject_Z 3) with 3.
          change (inject_Z 4) with 4. lra. }
        apply (proj1 (inject_Z_injective _ _)) in E'.
        apply Z.mod_divide; [lia|]. exists (w - k)%Z. lia.
      + intros [?|D]; [lia|]. exists (3 * (w / 4))%Z.
        assert (E' : inject_Z w == inject_Z (4 * (w / 4)))
          by (rewrite <- Z.div_exact in D by lia; now rewrite <- D).
        rewrite inject_Z_mult in E'. rewrite inject_Z_mult.
        change (inject_Z 3) with 3. change (inject_Z 4) with 4 in E'. lra. }
  assert (Y : (∃ k, startY h == inject_Z k) ↔
              (667 <= h)%Z ∨ (h mod 20 = 0)%Z).
  { unfold startY, watermarkHeight.
    destruct (Z_le_gt_dec 667 h) as [L|L].
    - split; [auto|]. intros _. exists (h - 100)%Z.
      apply Qle_inject in L. change (inject_Z 667) with 667 in L.
      pose proof (Q.min_l 100 (inject_Z h * 0.15) ltac:(lra)) as M.
      rewrite inject_Z_minus. change (inject_Z 100) with 100. lra.
    - assert (Lq : inject_Z h <= 666)
        by (change 666 with (inject_Z 666); apply Qle_inject; lia).
      pose proof (Q.min_r 100 (inject_Z h * 0.15) ltac:(lra)) as M.
      set (m := Qmin _ _) in *. clearbody m.
      split.
      + intros [k E]. right.
        assert (E' : inject_Z (17 * h) == inject_Z (20 * k)).
        { rewrite !inject_Z_mult. change (inject_Z 17) with 17.
          change (inject_Z 20) with 20. lra. }
        apply (proj1 (inject_Z_injective _ _)) in E'.
        apply Z.mod_divide; [lia|]. exists (13 * k - 11 * h)%Z. lia.
      + intros [?|D]; [lia|]. exists (17 * (h / 20))%Z.
        assert (E' : inject_Z h == inject_Z (20 * (h / 20)))
          by (rewrite <- Z.div_exact in D by lia; now rewrite <- D).
        rewrite inject_Z_mult in E'. rewrite inject_Z_mult.
        change (inject_Z 17) with 17. change (inject_Z 20) with 20 in E'.
        lra. }
  now rewrite X, Y.
Qed.

Lemma integerRect_sizes_witness :
  integerRect 200 200 = true ↔
  ((600 <= 200)%Z ∨ (200 mod 4 = 0)%Z) ∧ ((667 <= 200)%Z ∨ (200 mod 20 = 0)%Z).
Proof. apply integerRect_sizes; lia. Defined.

(** *** Images of one colour *)

Lemma roundedMean_const (v : Z) (n : nat) :
  (0 < n)%nat → roundedMean (Z.of_nat n * v) n = v.
Proof.
  intros Hn. unfold roundedMean, roundHalfEven.
  set (q := inject_Z (Z.of_nat n * v) / inject_Z (Z.of_nat n)).
  assert (Nz : 0 < inject_Z (Z.of_nat n))
    by (change 0 with (inject_Z 0); apply Qlt_inject; lia).
  assert (E : q == inject_Z v).
  { subst q. rewrite inject_Z_mult. field. lra. }
  rewrite (Qfloor_comp _ _ E), Qfloor_Z.
  replace (Qltb (q - inject_Z v) 0.5) with true; [reflexivity|].
  symmetry. apply Qltb_lt. lra.
Qed.

Lemma channelSum_const (w : Z) (data : list Z) (c v : Z) (ns : list (Z * Z)) :
  Forall (λ n, byteAt w data c n = v) ns →
  channelSum w data c ns = (Z.of_nat (length ns) * v)%Z.
Proof.
  induction 1 as [|n ns Hn Hns IH]; [reflexivity|].
  cbn [channelSum foldr length]. fold (channelSum w data c ns).
  rewrite IH, Hn. lia.
Qed.

(** Two buffers of [w] x [h] pixels with the same pixels are equal. *)
Lemma pixels_ext (w h : Z) (d d' : list Z) :
  (0 < w)%Z → (0 < h)%Z →
  length d = Z.to_nat (4 * w * h) → length d' = length d →
  (∀ x y, (0 <= x < w)%Z → (0 <= y < h)%Z →
     pixelAt w d x y = pixelAt w d' x y) →
  d = d'.
Proof.
  intros Hw Hh Hl Hl' Hp. apply list_eq. intros p.
  destruct (decide (p < length d)%nat) as [Lt|Ge].
  2:{ rewrite !lookup_ge_None_2 by lia. reflexivity. }
  set (k := (Z.of_nat p / 4)%Z). set (c := (Z.of_nat p mod 4)%Z).
  assert (Ep : Z.of_nat p = (4 * k + c)%Z) by (apply Z.div_mod; lia).
  assert (Hc : (0 <= c < 4)%Z) by (apply Z.mod_pos_bound; lia).
  assert (Hk : (0 <= k < w * h)%Z) by lia.
  set (y := (k / w)%Z). set (x := (k mod w)%Z).
  assert (Ek : k = (w * y + x)%Z) by (apply Z.div_mod; lia).
  assert (Hx : (0 <= x < w)%Z) by (apply Z.mod_pos_bound; lia).
  assert (Hy : (0 <= y < h)%Z).
  { split; [apply Z.div_pos; lia|].
    apply Z.div_lt_upper_bound; lia. }
  specialize (Hp x y Hx Hy). unfold pixelAt in Hp.
  clearbody x y. clearbody k c.
  replace (4 * (y * w + x))%Z with (4 * k)%Z in Hp by lia.
  injection Hp as H0 H1 H2 H3.
  assert (C : p = Z.to_nat (4 * k) ∨ p = S (Z.to_nat (4 * k)) ∨
              p = S (S (Z.to_nat (4 * k))) ∨
              p = S (S (S (Z.to_nat (4 * k))))) by lia.
  destruct C as [->|[->|[->| ->]]]; assumption.
Qed.

Lemma byteAt_pixel (w : Z) (data : list Z) (n : Z * Z) (v0 v1 v2 v3 : Z) :
  (0 <= n.1)%Z → (0 <= n.2)%Z → (0 <= w)%Z →
  pixelAt w data n.1 n.2 = [Some v0; Some v1; Some v2; Some v3] →
  byteAt w data 0 n = v0 ∧ byteAt w data 1 n = v1 ∧ byteAt w data 2 n = v2.
Proof.
  intros Hx Hy Hw Hp. unfold pixelAt in Hp. injection Hp as H0 H1 H2 _.
  unfold byteAt.
  assert (K : (0 <= 4 * (n.2 * w + n.1))%Z) by nia.
  rewrite Z.add_0_r, H0.
  replace (Z.to_nat (4 * (n.2 * w + n.1) + 1))
    with (S (Z.to_nat (4 * (n.2 * w + n.1)))) by lia.
  replace (Z.to_nat (4 * (n.2 * w + n.1) + 2))
    with (S (S (Z.to_nat (4 * (n.2 * w + n.1))))) by lia.
  now rewrite H1, H2.
Qed.

(** X6.  An opaque image of one colour whose rectangle has integer
    corners is returned as it is: every byte of the result is the byte of
    the input. *)
Theorem fill_flat_image (img : Image) (cr cg cb : Z) :
  wellFormed img → (0 < width img)%Z → (0 < height img)%Z →
  integerRect (width img) (height img) = true →
  (∀ x y, (0 <= x < width img)%Z → (0 <= y < height img)%Z →
     pixelAt (width img) (pixels img) x y =
     [Some cr; Some cg; Some cb; Some 255%Z]) →
  removeWatermark img = Some img.
Proof.
  destruct img as [w h data]. cbn [width height pixels].
  intros (_ & _ & Hlen & Hb) Hw Hh Hint Hflat. cbn [width height pixels] in *.
  unfold removeWatermark. cbn [width height pixels].
  replace (w =? 0)%Z with false by (symmetry; apply Z.eqb_neq; lia).
  replace (h =? 0)%Z with false by (symmetry; apply Z.eqb_neq; lia).
  cbn [orb]. do 2 f_equal.
  symmetry. apply (pixels_ext w h); try assumption.
  { apply fillRegion_length. }
  intros x y Hx Hy. symmetry.
  destruct (decide ((rectLeft w <= x)%Z ∧ (rectTop h <= y)%Z)) as [[Ix Iy]|Out].
  2:{ now apply frame_outside_rectangle. }
  rewrite filled_pixel by (try assumption; lia).
  rewrite Hflat by assumption. unfold filledPixel.
  set (ns := neighbours w (rectTop h) x y).
  destruct (rectTop_bounds w h Hh Hint) as [Ht _].
  assert (Hn : (0 < length ns)%nat).
  { pose proof (centre_qualifies w h data Hw Hh Hint Hlen x y
                  ltac:(lia) ltac:(lia)) as C.
    fold ns in C. destruct ns; [inversion C | simpl; lia]. }
  assert (A : Forall (λ n, byteAt w data 0 n = cr ∧ byteAt w data 1 n = cg ∧
                           byteAt w data 2 n = cb) ns).
  { apply Forall_forall. intros n Hin. subst ns. unfold neighbours in Hin.
    apply list_elem_of_filter in Hin as [[Qy Qx] _].
    apply (byteAt_pixel w data n cr cg cb 255%Z); try lia.
    apply Hflat; lia. }
  rewrite (channelSum_const w data 0 cr ns)
    by (eapply Forall_impl; [exact A|]; now intros n (? & ? & ?)).
  rewrite (channelSum_const w data 1 cg ns)
    by (eapply Forall_impl; [exact A|]; now intros n (? & ? & ?)).
  rewrite (channelSum_const w data 2 cb ns)
    by (eapply Forall_impl; [exact A|]; now intros n (? & ? & ?)).
  now rewrite !roundedMean_const by exact Hn.
Qed.

Lemma length_solid (n : nat) (a b c d : Z) :
  length (solid n [a; b; c; d]) = (4 * n)%nat.
Proof.
  induction n as [|n IH]; [reflexivity|].
  unfold solid in *. simpl in *. rewrite IH. lia.
Qed.

Lemma Forall_solid (P : Z → Prop) (n : nat) (rgba : list Z) :
  Forall P rgba → Forall P (solid n rgba).
Proof.
  intros H. induction n as [|n IH]; [constructor|].
  unfold solid in *. simpl. now apply Forall_app.
Qed.

Lemma lookup_solid (n k : nat) (a b c d : Z) :
  (k < n)%nat →
  solid n [a; b; c; d] !! (4 * k)%nat = Some a ∧
  solid n [a; b; c; d] !! S (4 * k) = Some b ∧
  solid n [a; b; c; d] !! S (S (4 * k)) = Some c ∧
  solid n [a; b; c; d] !! S (S (S (4 * k))) = Some d.
Proof.
  revert k. induction n as [|n IH]; intros k Hk; [lia|].
  destruct k as [|k]; [now repeat split|].
  replace (4 * S k)%nat with (S (S (S (S (4 * k))))) by lia.
  apply (IH k). lia.
Qed.

Lemma fill_flat_image_witness :
  removeWatermark (mkImage 20 20 (solid 400 [255; 255; 255; 255]%Z)) =
  Some (mkImage 20 20 (solid 400 [255; 255; 255; 255]%Z)).
Proof.
  apply (fill_flat_image _ 255 255 255).
  - unfold wellFormed. cbn [width height pixels].
    split; [lia|]. split; [lia|]. split.
    + rewrite length_solid. reflexivity.
    + apply Forall_solid. repeat (apply Forall_cons; split; [lia|]).
      constructor.
  - reflexivity.
  - reflexivity.
  - vm_compute. reflexivity.
  - cbn [width height pixels]. intros x y Hx Hy. unfold pixelAt.
    replace (Z.to_nat (4 * (y * 20 + x)))
      with (4 * Z.to_nat (y * 20 + x))%nat by lia.
    destruct (lookup_solid 400 (Z.to_nat (y * 20 + x)) 255 255 255 255
                ltac:(lia)) as (-> & -> & -> & ->).
    reflexivity.
Defined.

End LnwremoveMore.

(** ** The page of the watermark remover: counters, removal, downloads *)

Module WatermarkRemoverFacts.
Import Lnwremove WatermarkRemover.

Lemma findIndex_Some (id : str) (l : list Stored) (i : nat) :
  findIndex id l = Some i →
  ∃ im, l !! i = Some im ∧ imageId im = id ∧
        find (λ im, bool_decide (imageId im = id)) l = Some im.
Proof.
  revert i. induction l as [|im l IH]; intros i; simpl; [discriminate|].
  destruct (bool_decide (imageId im = id)) eqn:E.
  - intros [= <-]. exists im. apply bool_decide_eq_true in E. now repeat split.
  - destruct (findIndex id l) as [k|]; [|discriminate].
    intros [= <-]. destruct (IH k eq_refl) as (im' & ? & ? & ?).
    now exists im'.
Qed.

Lemma findIndex_None (id : str) (l : list Stored) :
  findIndex id l = None ↔ Forall (λ im, imageId im ≠ id) l.
Proof.
  induction l as [|im l IH]; simpl.
  - split; [constructor | reflexivity].
  - destruct (bool_decide (imageId im = id)) eqn:E.
    + apply bool_decide_eq_true in E. split; [discriminate|].
      intros H. inversion H. contradiction.
    + apply bool_decide_eq_false in E.
      destruct (findIndex id l).
      * split; [discriminate|]. intros H. inversion H as [|? ? ? H'].
        apply IH in H'. discriminate.
      * split; [|reflexivity]. intros _. constructor; [exact E|].
        now apply IH.
Qed.

Lemma counted_processFinish (node : nat) (id : str) (file : File) (p : Page) :
  counted p → counted (processFinish node id file p).
Proof.
  intros [Hs Hp]. unfold processFinish, counted.
  destruct (decoded file) as [img|]; simpl; [|lia].
  destruct (removeWatermark img); simpl; [|lia].
  rewrite length_app. simpl. lia.
Qed.

Lemma counted_removeImage (id : str) (p : Page) :
  counted p → counted (removeImage id p).
Proof.
  intros [Hs Hp]. unfold removeImage.
  destruct (findIndex id (images p)) as [i|] eqn:F; [|now split].
  destruct (findIndex_Some _ _ _ F) as (im & Him & _). rewrite Him.
  cbn [images updateStats].
  destruct (delete i (images p)) eqn:D; [split; [reflexivity | apply Z.le_refl]|].
  unfold counted. cbn [images updateStats successCount processedCount].
  rewrite <- D, length_delete by (now exists im).
  apply lookup_lt_Some in Him. lia.
Qed.

(** X7.  After the constructor, whatever the handlers that run and in
    whatever order (a file's processing started, a processing finished
    with success or failure, an image removed, everything cleared), the
    success counter is the number of stored images, and the processed
    counter is no smaller. *)
Theorem counters_follow_images (dom : Page) (es : list Event) :
  let p := run es (constructor dom) in
  successCount p = Z.of_nat (length (images p)) ∧
  (successCount p <= processedCount p)%Z.
Proof.
  cbv zeta. change (counted (run es (constructor dom))).
  assert (I : counted (constructor dom))
    by (split; [reflexivity | apply Z.le_refl]).
  revert I. generalize (constructor dom). clear dom. unfold run.
  induction es as [|e es IH]; intros p I; [exact I|].
  simpl. apply IH. destruct e as [id file|node id file|id|]; simpl.
  - exact I.
  - now apply counted_processFinish.
  - now apply counted_removeImage.
  - split; [reflexivity | apply Z.le_refl].
Qed.

(** *** Removing an image *)

(** X9.  [removeImage] with an identifier that no stored image has
    changes nothing; with the identifier of the only stored image it
    leaves the page as [clearAll] does, both counters at zero and the grid
    empty, whatever the processed counter was and whatever else the grid
    showed. *)
Theorem removeImage_edges (id : str) (p : Page) :
  (Forall (λ im, imageId im ≠ id) (images p) → removeImage id p = p) ∧
  (∀ im, images p = [im] → imageId im = id →
     removeImage id p = clearAll p ∧
     processedCount (removeImage id p) = 0%Z ∧
     grid (removeImage id p) = []).
Proof.
  split.
  - intros H. apply findIndex_None in H. unfold removeImage. now rewrite H.
  - intros im E Hid. unfold removeImage. rewrite E. cbn [findIndex].
    rewrite bool_decide_eq_true_2 by exact Hid. simpl.
    now repeat split.
Qed.

(** *** The name of a download *)

Lemma forallb_extensionChar_dot (l1 l2 : str) :
  forallb extensionChar (l1 ++ dot :: l2) = false.
Proof.
  induction l1 as [|c l1 IH]; cbn [app forallb].
  - reflexivity.
  - rewrite IH. apply andb_false_r.
Qed.

Lemma stripExtension_cut (stem ext : str) :
  ext ≠ [] → forallb extensionChar ext = true →
  stripExtension (stem ++ dot :: ext) = stem.
Proof.
  intros Hne Hext. induction stem as [|c stem IH]; simpl.
  - rewrite bool_decide_eq_false_2 by exact Hne. now rewrite Hext.
  - rewrite forallb_extensionChar_dot, andb_false_r. now rewrite IH.
Qed.

Lemma stripExtension_keep (name : str) :
  (∀ stem ext, name = stem ++ dot :: ext →
     ext = [] ∨ forallb extensionChar ext = false) →
  stripExtension name = name.
Proof.
  induction name as [|c rest IH]; intros H; [reflexivity|].
  simpl. destruct (Nat.eqb c dot && negb (bool_decide (rest = []))
                   && forallb extensionChar rest) eqn:E.
  - apply andb_true_iff in E as [E E3]. apply andb_true_iff in E as [E1 E2].
    apply Nat.eqb_eq in E1. subst c.
    destruct (H [] rest eq_refl) as [->|F].
    + now rewrite bool_decide_eq_true_2 in E2.
    + congruence.
  - f_equal. apply IH. intros stem ext ->.
    apply (H (c :: stem) ext). reflexivity.
Qed.

(** X10.  The name of a download is the name of the file cut at its last
    extension, followed by [_no_watermark.png].  A name that ends in a dot
    and one or more code units other than dot and slash is cut at that
    dot, whatever comes before it; any other name is kept whole. *)
Theorem downloadName_spec (name : str) :
  (∀ stem ext, name = stem ++ dot :: ext → ext ≠ [] →
     forallb extensionChar ext = true →
     downloadName name = stem ++ suffix) ∧
  ((∀ stem ext, name = stem ++ dot :: ext →
      ext = [] ∨ forallb extensionChar ext = false) →
   downloadName name = name ++ suffix).
Proof.
  unfold downloadName. split.
  - intros stem ext -> Hne Hext. now rewrite stripExtension_cut.
  - intros H. now rewrite stripExtension_keep.
Qed.

(** [a.tar.gz] is cut to [a.tar]; [notes.] is kept whole. *)
Lemma downloadName_spec_witness :
  downloadName [97; 46; 116; 97; 114; 46; 103; 122]%nat =
    [97; 46; 116; 97; 114]%nat ++ suffix ∧
  downloadName [110; 111; 116; 101; 115; 46]%nat =
    [110; 111; 116; 101; 115; 46]%nat ++ suffix.
Proof.
  split.
  - apply (proj1 (downloadName_spec [97; 46; 116; 97; 114; 46; 103; 122]%nat)
             [97; 46; 116; 97; 114]%nat [103; 122]%nat);
      [reflexivity | discriminate | reflexivity].
  - apply (proj2 (downloadName_spec [110; 111; 116; 101; 115; 46]%nat)).
    intros stem ext E.
    do 6 (destruct stem as [|? stem]; [injection E as E; subst; auto|];
          injection E as ? E); try discriminate.
    all: destruct stem; discriminate.
Defined.

Lemma removeImage_edges_witness :
  removeImage [7]%nat samplePage = samplePage ∧
  removeImage [1]%nat samplePage = clearAll samplePage ∧
  processedCount (removeImage [1]%nat samplePage) = 0%Z ∧
  grid (removeImage [1]%nat samplePage) = [].
Proof.
  split.
  - apply (proj1 (removeImage_edges [7]%nat samplePage)).
    repeat constructor. discriminate.
  - apply (proj2 (removeImage_edges [1]%nat samplePage)
             (mkStored [1]%nat [97; 46; 112]%nat opaqueBlack10 2));
      reflexivity.
Defined.

End WatermarkRemoverFacts.

(** ** The inpainting page: further properties of the handlers *)

Module AiremoveMore.
Import JS JSFacts Airemove AiremoveInput AiremoveFacts.

(** X12.  [clamp(n, min, max)] with [min <= max] lies between the two,
    is [n] when [n] does, [min] when [n] is below and [max] when it is
    above: the radius passed to [cv.inpaint], [clamp(radius, 1, 30)], is
    always between 1 and 30. *)
Theorem clamp_spec (n lo hi : Q) :
  lo <= hi →
  (lo <= clamp n lo hi ∧ clamp n lo hi <= hi) ∧
  (lo <= n → n <= hi → clamp n lo hi == n) ∧
  (n <= lo → clamp n lo hi == lo) ∧
  (hi <= n → clamp n lo hi == hi).
Proof.
  intros H. unfold clamp.
  destruct (Q.min_spec hi n) as [[? E1]|[? E1]];
    destruct (Q.max_spec lo (Qmin hi n)) as [[? E2]|[? E2]];
    set (m := Qmin hi n) in *; set (c := Qmax lo m) in *;
    clearbody c; clearbody m; repeat split; intros; lra.
Qed.

Lemma clamp_spec_witness :
  (1 <= clamp 45 1 30 ∧ clamp 45 1 30 <= 30) ∧
  (1 <= 45 → 45 <= 30 → clamp 45 1 30 == 45) ∧
  (45 <= 1 → clamp 45 1 30 == 1) ∧
  (30 <= 45 → clamp 45 1 30 == 30).
Proof. apply clamp_spec. lra. Defined.

(** *** Loading an image *)

(** X16.  After [loadImageFromFile], whatever the page was: the page
    holds the image, the three canvases have one size, the one
    [renderImage] returns, the mask and the output are blank, the three
    buttons are enabled; the drawing flag, the native buffers and the
    suspended handlers are as before. *)
Theorem load_resets_page (i : HtmlImage) (w : World) :
  let w' := loadImageFromFile i w in
  let rw := (renderImage i w).1.1 in
  let rh := (renderImage i w).1.2 in
  img (state w') = Some i ∧
  imgCanvas w' = mkCanvas rw rh (Picture (imageId i) rw rh) ∧
  maskCanvas w' = mkCanvas rw rh Blank ∧
  outCanvas w' = mkCanvas rw rh Blank ∧
  (imgWidth (state w') = rw ∧ imgHeight (state w') = rh) ∧
  status w' = StatusImageReady ∧
  (removeDisabled w' = false ∧ clearDisabled w' = false ∧
   downloadDisabled w' = false) ∧
  drawing (state w') = drawing (state w) ∧
  mats w' = mats w ∧ pending w' = pending w.
Proof.
  cbv zeta. unfold loadImageFromFile, renderImage, syncControls. cbn.
  assert (Pw : (0 <? renderWidth i)%Z = true)
    by (apply Z.ltb_lt; unfold renderWidth; lia).
  assert (Ph : (0 <? renderHeight i)%Z = true)
    by (apply Z.ltb_lt; unfold renderHeight; lia).
  rewrite Pw, Ph. repeat split.
Qed.

(** *** The pointer *)

Lemma pointer_step (e : Event) (w : World) :
  pointerEvent e = true →
  let w' := step e w in
  (img (state w') = img (state w) ∧ imgCanvas w' = imgCanvas w ∧
   outCanvas w' = outCanvas w ∧ mats w' = mats w ∧ pending w' = pending w) ∧
  (cwidth (maskCanvas w') = cwidth (maskCanvas w) ∧
   cheight (maskCanvas w') = cheight (maskCanvas w)) ∧
  strokesOf (bitmap (maskCanvas w)) `prefix_of`
    strokesOf (bitmap (maskCanvas w')) ∧
  (img (state w) = None → maskCanvas w' = maskCanvas w).
Proof.
  intros He. cbv zeta.
  destruct e as [|p|p sh| | | | | | | | |]; try discriminate; cbn [step].
  - unfold pointerDown. destruct (img (state w)) eqn:E; cbn.
    + rewrite E. repeat split; try discriminate.
      unfold drawBrush. now apply prefix_app_r.
    + now repeat split.
  - unfold pointerMove.
    destruct (drawing (state w)); cbn [negb orb]; [|now repeat split].
    destruct (img (state w)) eqn:E.
    2:{ rewrite bool_decide_eq_false_2 by (intros [? ?]; discriminate).
        now repeat split. }
    rewrite bool_decide_eq_true_2 by (now eexists). cbn [negb].
    destruct sh, (lastPoint (state w)); cbn -[drawLine drawBrush];
      rewrite ?E; repeat split; try discriminate;
      rewrite ?drawLine_stamps; unfold drawBrush; now apply prefix_app_r.
  - now repeat split.
  - now repeat split.
Qed.

Lemma pointer_run (es : list Event) (w : World) :
  forallb pointerEvent es = true →
  let w' := run es w in
  (img (state w') = img (state w) ∧ imgCanvas w' = imgCanvas w ∧
   outCanvas w' = outCanvas w ∧ mats w' = mats w ∧ pending w' = pending w) ∧
  (cwidth (maskCanvas w') = cwidth (maskCanvas w) ∧
   cheight (maskCanvas w') = cheight (maskCanvas w)) ∧
  strokesOf (bitmap (maskCanvas w)) `prefix_of`
    strokesOf (bitmap (maskCanvas w')) ∧
  (img (state w) = None → maskCanvas w' = maskCanvas w).
Proof.
  cbv zeta. revert w. unfold run.
  induction es as [|e es IH]; intros w H.
  { now repeat split. }
  cbn [forallb] in H. apply andb_true_iff in H as [He Hes].
  cbn [foldl].
  destruct (pointer_step e w He) as ((A1 & A2 & A3 & A4 & A5) & (B1 & B2) & C & D).
  destruct (IH (step e w) Hes)
    as ((A1' & A2' & A3' & A4' & A5') & (B1' & B2') & C' & D').
  repeat split; try congruence.
  - etransitivity; eassumption.
  - intros N. rewrite D' by congruence. now apply D.
Qed.

(** X17.  The events of the pointer and of the Escape key, in any number
    and order, only add stamps to the mask: the stamps drawn before stay,
    the size of the mask, the image, the two other canvases, the buffers
    and the suspended handlers do not change; and without an image
    nothing is drawn. *)
Theorem pointer_only_adds_stamps (es : list Event) (w : World) :
  forallb pointerEvent es = true →
  let w' := run es w in
  (img (state w') = img (state w) ∧ imgCanvas w' = imgCanvas w ∧
   outCanvas w' = outCanvas w ∧ mats w' = mats w ∧ pending w' = pending w) ∧
  (cwidth (maskCanvas w') = cwidth (maskCanvas w) ∧
   cheight (maskCanvas w') = cheight (maskCanvas w)) ∧
  strokesOf (bitmap (maskCanvas w)) `prefix_of`
    strokesOf (bitmap (maskCanvas w')) ∧
  (img (state w) = None → maskCanvas w' = maskCanvas w).
Proof. apply pointer_run. Qed.

Lemma pointer_only_adds_stamps_witness :
  let w := run [PointerDown (mkPoint 3 4); PointerMove (mkPoint 9 4) true;
                PointerUp] (loadImageFromFile photo freshPage) in
  imgCanvas w = imgCanvas (loadImageFromFile photo freshPage) ∧
  cwidth (maskCanvas w) = 960%Z.
Proof.
  cbv zeta.
  destruct (pointer_only_adds_stamps
              [PointerDown (mkPoint 3 4); PointerMove (mkPoint 9 4) true;
               PointerUp] (loadImageFromFile photo freshPage) eq_refl)
    as ((_ & A & _) & (B & _) & _).
  split; [exact A|]. rewrite B. vm_compute. reflexivity.
Defined.

(** X18.  Once the pointer is released or Escape is pressed, pointer
    moves change nothing, however many there are, until the pointer is
    pressed again. *)
Theorem moves_after_release (moves : list Event) (w : World) :
  forallb isPointerMove moves = true →
  run moves (step PointerUp w) = step PointerUp w ∧
  run moves (step KeyEscape w) = step KeyEscape w.
Proof.
  intros H.
  assert (G : ∀ v, drawing (state v) = false → run moves v = v).
  { unfold run. induction moves as [|e es IH]; intros v Dv; [reflexivity|].
    cbn [forallb] in H. apply andb_true_iff in H as [He Hes].
    destruct e; try discriminate. cbn [foldl step].
    unfold pointerMove. rewrite Dv. cbn [negb orb]. now apply IH. }
  split; apply G; reflexivity.
Qed.

Lemma moves_after_release_witness :
  let w := loadImageFromFile photo freshPage in
  run [PointerMove (mkPoint 1 1) false; PointerMove (mkPoint 2 2) true]
      (step PointerUp w) = step PointerUp w.
Proof.
  cbv zeta.
  apply (proj1 (moves_after_release
                  [PointerMove (mkPoint 1 1) false;
                   PointerMove (mkPoint 2 2) true]
                  (loadImageFromFile photo freshPage) eq_refl)).
Defined.

(** X19.  With an image loaded, the clear button erases whatever the
    pointer has drawn: after any events of the pointer and a click, the
    mask is blank and of the size it had, and the image canvas, the output
    canvas and the buffers are as they were. *)
Theorem clear_erases_strokes (es : list Event) (w : World) :
  is_Some (img (state w)) → forallb pointerEvent es = true →
  let w' := clearClick (run es w) in
  maskCanvas w' =
    mkCanvas (cwidth (maskCanvas w)) (cheight (maskCanvas w)) Blank ∧
  status w' = StatusMaskCleared ∧
  imgCanvas w' = imgCanvas w ∧ outCanvas w' = outCanvas w ∧
  mats w' = mats w.
Proof.
  intros [i Hi] Hes. cbv zeta.
  destruct (pointer_run es w Hes)
    as ((A1 & A2 & A3 & A4 & _) & (B1 & B2) & _).
  cbv zeta in *. unfold clearClick. rewrite A1, Hi. cbn.
  rewrite B1, B2. now repeat split.
Qed.

Lemma clear_erases_strokes_witness :
  let w := loadImageFromFile photo freshPage in
  maskCanvas (clearClick (run [PointerDown (mkPoint 3 4)] w)) =
  mkCanvas (cwidth (maskCanvas w)) (cheight (maskCanvas w)) Blank.
Proof.
  cbv zeta.
  apply (clear_erases_strokes [PointerDown (mkPoint 3 4)]
           (loadImageFromFile photo freshPage)).
  - simpl. now eexists.
  - reflexivity.
Defined.

(** *** The remove button *)

Lemma syncControls_buttons (w : World) :
  removeDisabled (syncControls w) = negb (canWork w) ∧
  clearDisabled (syncControls w) = negb (canWork w).
Proof. now split. Qed.

(** X20.  The click handler, once resumed, always returns: no exception
    leaves it, whatever the primitive does.  It leaves the image, the mask
    with its strokes, the size of the image canvas and the other suspended
    handlers as they were, and the remove and clear buttons enabled exactly
    when an image is loaded on a canvas with an area. *)
Theorem remove_handler_returns (cv : Cv) (w : World) :
  ∃ w', removeResume cv w = (Ok tt, w') ∧
    img (state w') = img (state w) ∧
    maskCanvas w' = maskCanvas w ∧
    (cwidth (imgCanvas w') = cwidth (imgCanvas w) ∧
     cheight (imgCanvas w') = cheight (imgCanvas w)) ∧
    pending w' = pending w ∧
    removeDisabled w' = negb (canWork w) ∧
    clearDisabled w' = negb (canWork w).
Proof.
  destruct (removeResume_returns cv w) as [w1 E].
  pose proof (removeResume_keepsShape cv w) as K. rewrite E in K.
  destruct K as (K1 & K2 & K3 & K4 & K5). cbn [snd] in *.
  exists (syncControls w1). split; [exact E|].
  repeat split; try assumption.
  - destruct (syncControls_buttons w1) as [-> _]. f_equal.
    unfold canWork. now rewrite <- K1, <- K2, <- K3.
  - destruct (syncControls_buttons w1) as [_ ->]. f_equal.
    unfold canWork. now rewrite <- K1, <- K2, <- K3.
Qed.

(** X21.  When [inpaintToCanvas] returns and the output canvas has an
    area, the handler shows the output on the image canvas, whose size it
    keeps, reports success, and every native buffer allocated on the way
    has been deleted. *)
Theorem remove_success (cv : Cv) (w w1 : World) :
  inpaintToCanvas cv (radius (state w)) w = (Ok tt, w1) →
  (0 < cwidth (outCanvas w1))%Z → (0 < cheight (outCanvas w1))%Z →
  let w' := (removeResume cv w).2 in
  status w' = StatusDone ∧
  imgCanvas w' =
    mkCanvas (cwidth (imgCanvas w)) (cheight (imgCanvas w))
      (Copied (bitmap (outCanvas w1)) (cwidth (outCanvas w1))
         (cheight (outCanvas w1))) ∧
  outCanvas w' = outCanvas w1 ∧
  mats w' = mats w.
Proof.
  intros E Pw Ph. cbv zeta.
  pose proof (inpaintToCanvas_releases cv _ w w1 E) as R.
  destruct (inpaintToCanvas_frame cv (radius (state w)) w)
    as (_ & F & _). rewrite E in F. cbn [snd] in F.
  assert (Zw : (cwidth (outCanvas w1) =? 0)%Z = false)
    by (apply Z.eqb_neq; lia).
  assert (Zh : (cheight (outCanvas w1) =? 0)%Z = false)
    by (apply Z.eqb_neq; lia).
  unfold removeResume, tryCatch, bind, clearImgCanvas, drawOutOnImg, modify.
  cbv beta. rewrite E. cbn -[syncControls]. rewrite Zw, Zh.
  cbn. rewrite F, R. now repeat split.
Qed.

Lemma remove_success_witness :
  let w := withPending []
             (run [FileLoaded photo; CvLoaded cvWorking; ClickRemove]
                freshPage) in
  status (removeResume cvWorking w).2 = StatusDone ∧
  mats (removeResume cvWorking w).2 = mats w.
Proof.
  cbv zeta.
  set (w := withPending [] _).
  destruct (inpaintToCanvas cvWorking (radius (state w)) w)
    as [[[]|] w1] eqn:E.
  - destruct (remove_success cvWorking w w1 E) as (A & _ & _ & B).
    + pose proof (f_equal (λ r, cwidth (outCanvas r.2)) E) as G.
      cbn [snd] in G. rewrite <- G. vm_compute. reflexivity.
    + pose proof (f_equal (λ r, cheight (outCanvas r.2)) E) as G.
      cbn [snd] in G. rewrite <- G. vm_compute. reflexivity.
    + split; [exact A | exact B].
  - exfalso.
    pose proof (f_equal (λ r, match r.1 with Ok _ => true | Throw => false end)
                  E) as G.
    vm_compute in G. discriminate.
Defined.

(** X22.  A click on the remove button disables it and suspends one
    handler; an input event of a slider before the handler resumes enables
    the button again, and a second click then suspends a second handler. *)
Theorem slider_enables_remove_again (cv : Cv) (b r : Q) (w : World) :
  windowCv w = Some cv → hasMat cv = true → canWork w = true →
  removeDisabled w = false →
  let w1 := step ClickRemove w in
  let w2 := step (SliderInput b r) w1 in
  (removeDisabled w1 = true ∧ pending w1 = pending w ++ [cv]) ∧
  removeDisabled w2 = false ∧
  pending (step ClickRemove w2) = pending w ++ [cv; cv].
Proof.
  intros Hcv Hm Hc Hd. cbv zeta.
  unfold canWork in Hc.
  apply andb_true_iff in Hc as [Hc Hh]. apply andb_true_iff in Hc as [Hi Hw].
  apply bool_decide_eq_true in Hi as [i Hi].
  cbn [step]. rewrite Hd. unfold removeClick, isCvReady.
  rewrite Hi, Hcv, Hm. cbn.
  rewrite Hi, Hw, Hh, Hcv, Hm. cbn.
  rewrite <- app_assoc. now repeat split.
Qed.

Lemma slider_enables_remove_again_witness :
  let w := run [FileLoaded photo; CvLoaded cvWorking] freshPage in
  length (pending (run [ClickRemove; SliderInput 24 5; ClickRemove] w))
  = 2%nat.
Proof.
  cbv zeta.
  destruct (slider_enables_remove_again cvWorking 24 5
              (run [FileLoaded photo; CvLoaded cvWorking] freshPage))
    as (_ & _ & E);
    [vm_compute; reflexivity | reflexivity | vm_compute; reflexivity
    | vm_compute; reflexivity |].
  unfold run at 1. cbn [foldl]. rewrite E. vm_compute. reflexivity.
Defined.

(** *** The wait for the library *)

Lemma ticks_resolved (start timeoutMs t : Z) (reads : list (bool * Z))
    (k : nat) (now : Z) :
  clockFrom t reads → reads !! k = Some (true, now) →
  (now - start <= timeoutMs)%Z →
  ticks start timeoutMs reads = Resolved.
Proof.
  revert t k. induction reads as [|[ready t'] reads IH]; intros t k C Hk Hn.
  { destruct k; discriminate. }
  cbn [ticks]. destruct ready; [reflexivity|].
  destruct k as [|k]; [discriminate|]. cbn in Hk. destruct C as [_ C].
  assert (L : (t' <= now)%Z).
  { clear IH Hn. revert t' k C Hk.
    induction reads as [|[r2 t2] reads IH2]; intros t' k C Hk.
    - destruct k; discriminate.
    - destruct C as [L C]. destruct k as [|k].
      + injection Hk as _ <-. exact L.
      + cbn in Hk. specialize (IH2 t2 k C Hk). lia. }
  replace (timeoutMs <? t' - start)%Z with false
    by (symmetry; apply Z.ltb_ge; lia).
  now apply (IH t' k).
Qed.

Lemma ticks_rejected (start timeoutMs : Z) (reads : list (bool * Z)) :
  ticks start timeoutMs reads = Rejected →
  ∃ k now, reads !! k = Some (false, now) ∧ (timeoutMs < now - start)%Z ∧
    ∀ j r t, (j <= k)%nat → reads !! j = Some (r, t) → r = false.
Proof.
  induction reads as [|[ready t] reads IH]; [discriminate|].
  cbn [ticks]. destruct ready; [discriminate|].
  destruct (timeoutMs <? t - start)%Z eqn:E.
  - intros _. exists 0%nat, t. apply Z.ltb_lt in E.
    split; [reflexivity|]. split; [exact E|].
    intros j r t' Hj Hl. replace j with 0%nat in Hl by lia.
    now injection Hl as <- _.
  - intros R. destruct (IH R) as (k & now & Hk & Hn & Hall).
    exists (S k), now. split; [exact Hk|]. split; [exact Hn|].
    intros [|j] r t' Hj Hl.
    + now injection Hl as <- _.
    + apply (Hall j r t'); [lia | exact Hl].
Qed.

(** X23.  [waitForCvReady]: with a clock that does not go back, a call of
    [tick] that finds the library no later than [timeoutMs] after the start
    resolves the promise; and the promise is rejected only by a call made
    later than that, when neither this call nor one before it has found the
    library. *)
Theorem waitForCvReady_spec (timeoutMs start : Z) (ready : bool)
    (reads : list (bool * Z)) :
  (∀ k now, clockFrom start reads → reads !! k = Some (true, now) →
     (now - start <= timeoutMs)%Z →
     waitForCvReady timeoutMs ready start reads = Resolved) ∧
  (waitForCvReady timeoutMs ready start reads = Rejected →
   ready = false ∧
   ∃ k now, reads !! k = Some (false, now) ∧ (timeoutMs < now - start)%Z ∧
     ∀ j r t, (j <= k)%nat → reads !! j = Some (r, t) → r = false).
Proof.
  unfold waitForCvReady. split.
  - intros k now C Hk Hn. destruct ready; [reflexivity|].
    now apply (ticks_resolved start timeoutMs start reads k now).
  - destruct ready; [discriminate|]. intros R. split; [reflexivity|].
    now apply ticks_rejected.
Qed.

Lemma waitForCvReady_spec_witness :
  waitForCvReady 20000 false 1000
    [(false, 1000); (false, 1050); (true, 1100)]%Z = Resolved.
Proof.
  apply (proj1 (waitForCvReady_spec 20000 1000 false
                  [(false, 1000); (false, 1050); (true, 1100)]%Z)
           2%nat 1100%Z).
  - simpl. lia.
  - reflexivity.
  - lia.
Defined.

End AiremoveMore.
